(** * Multiplex proxy: server pool and switchboard

    A shallow embedding of [src/server-pool.ts], [src/server-resource.ts]
    and [src/switchboard.ts].

    The pool keeps three JavaScript [Map]s ([servers], [serverTasks],
    [pendingCreations]) and a port counter.  They are gmaps keyed by the
    hostname; the objects they point to (the [info] record of a server, its
    ready promise, its lifecycle task, the spawn task returned by
    [scope.run]) are created together, once per call of [doSpawnServer], and
    are kept in one store indexed by the creation number, so that two
    references to the same [info] object are the same index.

    JavaScript runs one synchronous segment at a time; a segment ends at an
    [await], at a [yield*] of a pending operation, or when the function
    returns.  Every transition below is one such segment.

    The pool is read twice.  [Pool] is the code of [server-pool.ts] on
    its own: every task runs from the [scope.run] that creates it, and the
    pool stays provided.  [Tasks] is the same code under the Effection
    runtime: when tasks start, what a failing task does to the pool, when
    a halted task runs its [finally], and what a closed signal delivers. *)

From Stdlib Require Import ZArith Lia Ascii.
From stdpp Require Import gmap strings list fin_maps pretty relations.

Open Scope string_scope.
Open Scope list_scope.

(** ** Switchboard: hostname extraction *)

Module Switchboard.

(** The two headers [extractHostname] reads with [req.get]; [None] is
    [undefined] (header not sent). *)
Record Request := mkRequest {
  host : option string;
  x_app_name : option string;
}.

(** JavaScript truthiness of a [string | undefined]. *)
Definition truthy (v : option string) : bool :=
  match v with
  | Some (String _ _) => true
  | _ => false
  end.

(** [v || ''] *)
Definition or_empty (v : option string) : string :=
  if truthy v then default "" v else "".

(** [s.split(sep)] for a one-character separator: never empty. *)
Fixpoint split (sep : ascii) (s : string) : list string :=
  match s with
  | EmptyString => [EmptyString]
  | String c r =>
      if Ascii.eqb c sep then EmptyString :: split sep r
      else match split sep r with
           | h :: t => String c h :: t
           | [] => [String c EmptyString]
           end
  end.

(** [s.includes(c)] for a one-character needle. *)
Fixpoint includes (c : ascii) (s : string) : bool :=
  match s with
  | EmptyString => false
  | String a r => Ascii.eqb a c || includes c r
  end.

Definition colon : ascii := ":"%char.
Definition dot : ascii := "."%char.

(** [host.split(':')[0] ?? ''] *)
Definition hostWithoutPort (h : string) : string :=
  default "" (head (split colon h)).

Definition extractHostname (req : Request) (defaultHostname : string) : string :=
  let h := hostWithoutPort (or_empty (host req)) in
  if includes dot h then
    let parts := split dot h in
    default defaultHostname (head parts)
  else
    let appHeader := x_app_name req in
    if truthy appHeader then default "" appHeader
    else defaultHostname.

(** The precedence as the specification words it, for comparison: the
    port is the part after the last colon, and a header that is present is
    used whatever its value. *)
Fixpoint strip_trailing_port (s : string) : string :=
  match s with
  | EmptyString => EmptyString
  | String c r =>
      if Ascii.eqb c colon && negb (includes colon r) then EmptyString
      else String c (strip_trailing_port r)
  end.

Fixpoint first_label (s : string) : string :=
  match s with
  | EmptyString => EmptyString
  | String c r => if Ascii.eqb c dot then EmptyString else String c (first_label r)
  end.

Definition spec_routing_key (req : Request) (defaultKey : string) : string :=
  let h := strip_trailing_port (default "" (host req)) in
  if includes dot h then first_label h
  else match x_app_name req with
       | Some v => v
       | None => defaultKey
       end.

End Switchboard.

(** ** Server pool *)

Module Pool.

(** [ServerPoolConfig]; [maxServers] is optional and defaults to 100. *)
Record ServerPoolConfig := mkConfig {
  basePort : Z;
  maxServers : option Z;
}.

(** The [Error] values the pool and the server resource create or pass on. *)
Inductive Error :=
  | MaxServersReached (limit : Z)
  | ListenError (message : string)
  | ServerDaemonError (hostname : string) (port : Z) (cause : option string)
  | HaltedError.

(** [ServerEvent]; the [message] of an error event is the message of its
    [error]. *)
Inductive ServerEvent :=
  | Started (hostname : string) (port : Z)
  | Stopped (hostname : string)
  | ErrorEvent (hostname : string) (error : Error).

(** [ServerInfo]; [app] and [server] are [null] in the placeholder and are
    assigned together, so one field stands for both.  A handle is the
    number of the server it belongs to.  [startedAt] is a wall-clock
    reading and is left out. *)
Record ServerInfo := mkInfo {
  hostname : string;
  port : Z;
  server : option nat;
  task : option nat;
}.

Inductive Promise :=
  | Pending
  | Fulfilled
  | Rejected (e : Error).

(** The listening socket behind [app.listen(port)]. [Closing]: [close()]
    was called and the ['close'] event has not been emitted yet. *)
Inductive Socket := Binding | Listening | Closing | Closed | Failed.

(** Where the [finally] block of [useExpressServer] stands. *)
Inductive Teardown :=
  | Provided        (* still at [provide] *)
  | AwaitingClose   (* [server.close()] called, waiting for ['close'] *)
  | Released.       (* ['close'] received *)

(** Where the lifecycle task of [doSpawnServer] stands.  Once the task is
    halted or has failed, its own [finally] block and the [finally] block
    of the server resource both have to run; which of the two the Effection
    runtime runs first is not decided by this code, so both are tracked.
    [thrown] is the error the task body has to handle in its [catch] block
    before the [finally]. *)
Inductive Lifecycle :=
  | Starting
  | Suspended
  | Halting (finallyRan : bool) (res : Teardown) (thrown : option Error)
  | Finished.

(** Everything one call of [doSpawnServer] creates, and the spawn task of
    [getOrCreate] that runs it.  A fulfilled promise is fulfilled with
    [info] itself. *)
Record Creation := mkCreation {
  info : ServerInfo;
  readyPromise : Promise;
  lifecycle : Lifecycle;
  spawnPromise : Promise;
  socket : Socket;
}.

(** What a caller of [getOrCreate] receives: the [info] object (by
    reference) or the error thrown. *)
Inductive Outcome :=
  | Resolved (ref : nat)
  | Threw (e : Error).

(** Where an invocation of [getOrCreate] stands. *)
Inductive CallState :=
  | Returned (o : Outcome)       (* fast path, or the capacity error *)
  | ReturnedPending (p : nat)    (* [return pending] *)
  | AwaitingSpawn (p : nat)      (* at [await spawnPromise] *)
  | Resumed (p : nat).           (* past the [finally] *)

Record Call := mkCall {
  call_hostname : string;
  call_state : CallState;
}.

(** Where an invocation of [shutdown] stands. *)
Inductive ShutdownCall :=
  | AwaitingHalt (t : nat)
  | ShutdownReturned (t : option nat).

Record State := mkState {
  servers : gmap string nat;
  serverTasks : gmap string nat;
  pendingCreations : gmap string nat;
  nextPort : Z;
  events : list ServerEvent;   (* what was passed to [events.send], in order *)
  eventsClosed : bool;         (* [events.close] was called *)
  store : list Creation;
  calls : list Call;
  shutdowns : list ShutdownCall;
}.

Definition with_servers (f : gmap string nat → gmap string nat) (st : State) : State :=
  mkState (f (servers st)) (serverTasks st) (pendingCreations st) (nextPort st)
          (events st) (eventsClosed st) (store st) (calls st) (shutdowns st).

Definition with_serverTasks (f : gmap string nat → gmap string nat) (st : State) : State :=
  mkState (servers st) (f (serverTasks st)) (pendingCreations st) (nextPort st)
          (events st) (eventsClosed st) (store st) (calls st) (shutdowns st).

Definition with_pendingCreations (f : gmap string nat → gmap string nat) (st : State) : State :=
  mkState (servers st) (serverTasks st) (f (pendingCreations st)) (nextPort st)
          (events st) (eventsClosed st) (store st) (calls st) (shutdowns st).

Definition with_nextPort (p : Z) (st : State) : State :=
  mkState (servers st) (serverTasks st) (pendingCreations st) p
          (events st) (eventsClosed st) (store st) (calls st) (shutdowns st).


Definition with_store (f : list Creation → list Creation) (st : State) : State :=
  mkState (servers st) (serverTasks st) (pendingCreations st) (nextPort st)
          (events st) (eventsClosed st) (f (store st)) (calls st) (shutdowns st).

Definition with_calls (f : list Call → list Call) (st : State) : State :=
  mkState (servers st) (serverTasks st) (pendingCreations st) (nextPort st)
          (events st) (eventsClosed st) (store st) (f (calls st)) (shutdowns st).

Definition with_shutdowns (f : list ShutdownCall → list ShutdownCall) (st : State) : State :=
  mkState (servers st) (serverTasks st) (pendingCreations st) (nextPort st)
          (events st) (eventsClosed st) (store st) (calls st) (f (shutdowns st)).

(** [events.send(event)] *)
Definition emitEvent (e : ServerEvent) (st : State) : State :=
  mkState (servers st) (serverTasks st) (pendingCreations st) (nextPort st)
          (events st ++ [e]) (eventsClosed st) (store st) (calls st) (shutdowns st).

Definition set_server (h : option nat) (c : Creation) : Creation :=
  mkCreation (mkInfo (hostname (info c)) (port (info c)) h (task (info c)))
             (readyPromise c) (lifecycle c) (spawnPromise c) (socket c).

Definition set_readyPromise (p : Promise) (c : Creation) : Creation :=
  mkCreation (info c) p (lifecycle c) (spawnPromise c) (socket c).

Definition set_lifecycle (l : Lifecycle) (c : Creation) : Creation :=
  mkCreation (info c) (readyPromise c) l (spawnPromise c) (socket c).

Definition set_spawnPromise (p : Promise) (c : Creation) : Creation :=
  mkCreation (info c) (readyPromise c) (lifecycle c) p (socket c).

Definition set_socket (s : Socket) (c : Creation) : Creation :=
  mkCreation (info c) (readyPromise c) (lifecycle c) (spawnPromise c) s.

(** A promise settles once: [resolve] and [reject] on a settled promise do
    nothing. *)
Definition settle (new old : Promise) : Promise :=
  match old with
  | Pending => new
  | _ => old
  end.

Definition is_settled (p : Promise) : bool :=
  match p with
  | Pending => false
  | _ => true
  end.

Definition update (i : nat) (f : Creation → Creation) (st : State) : State :=
  with_store (alter f i) st.

Section WithConfig.

Variable config : ServerPoolConfig.

(** [const { basePort, maxServers = 100 } = config] *)
Definition limit : Z := default 100%Z (maxServers config).

Definition init : State :=
  mkState ∅ ∅ ∅ (basePort config) [] false [] [] [].

(** The body of the [try] block's [finally] in the lifecycle task. *)
Definition finally_block (h : string) (st : State) : State :=
  with_serverTasks (delete h) (with_servers (delete h) (emitEvent (Stopped h) st)).

(** The [catch] block of the lifecycle task of creation [i]. *)
Definition catch_block (i : nat) (h : string) (e : Error) (st : State) : State :=
  update i (λ c, set_readyPromise (settle (Rejected e) (readyPromise c)) c)
         (emitEvent (ErrorEvent h e) st).

(** [doSpawnServer(hostname, port)] up to its [yield* call(() =>
    readyPromise)]: the placeholder is stored, the lifecycle task is started
    and runs until it waits for [app.listen], and the task is recorded. *)
Definition doSpawnServer (h : string) (p : Z) (st : State) : State :=
  let i := length (store st) in
  let c := mkCreation (mkInfo h p None (Some i)) Pending Starting Pending Binding in
  with_serverTasks <[h := i]> (with_servers <[h := i]> (with_store (λ s, s ++ [c]) st)).

(** [existing && existing.server] *)
Definition existing_ready (st : State) (h : string) : option nat :=
  i ← servers st !! h;
  c ← store st !! i;
  _ ← server (info c);
  Some i.

Definition push_call (h : string) (cs : CallState) (st : State) : State :=
  with_calls (λ l, l ++ [mkCall h cs]) st.

(** [getOrCreate(hostname)] up to its first [await] or its return. *)
Definition getOrCreate (h : string) (st : State) : State :=
  match existing_ready st h with
  | Some i => push_call h (Returned (Resolved i)) st
  | None =>
      match pendingCreations st !! h with
      | Some p => push_call h (ReturnedPending p) st
      | None =>
          if (limit <=? Z.of_nat (size (servers st)))%Z then
            let error := MaxServersReached limit in
            push_call h (Returned (Threw error)) (emitEvent (ErrorEvent h error) st)
          else
            let p := nextPort st in
            let i := length (store st) in
            let st1 := doSpawnServer h p (with_nextPort (p + 1)%Z st) in
            push_call h (AwaitingSpawn i) (with_pendingCreations <[h := i]> st1)
      end
  end.

(** [get(hostname)]: a reference to the record, whatever its state. *)
Definition get (st : State) (h : string) : option nat := servers st !! h.

Definition deref (st : State) (i : nat) : option ServerInfo := info <$> store st !! i.

(** [s.server !== null] for the record behind reference [i]. *)
Definition server_not_null (st : State) (i : nat) : bool :=
  match store st !! i with
  | Some c => match server (info c) with Some _ => true | None => false end
  | None => false
  end.

(** [list()]: the records whose [server] is not [null]. *)
Definition list_running (st : State) : list nat :=
  filter (λ i, server_not_null st i = true) (map_to_list (servers st)).*2.

(** The ['listening'] callback of [app.listen] for server [i]: the resource
    provides the handle, the task fills in [info], sends [started], resolves
    the ready promise and suspends.  A task halted while it was waiting is
    gone; its socket still opens. *)
Definition on_listening (i : nat) (st : State) : State :=
  match store st !! i with
  | Some c =>
      match socket c with
      | Binding =>
          match lifecycle c with
          | Starting =>
              emitEvent (Started (hostname (info c)) (port (info c)))
                (update i (λ c, set_lifecycle Suspended
                                  (set_readyPromise (settle Fulfilled (readyPromise c))
                                     (set_server (Some i) (set_socket Listening c)))) st)
          | _ => update i (set_socket Listening) st
          end
      | _ => st
      end
  | None => st
  end.

(** The ['error'] event of a server that is not listening yet: the
    resource throws before [provide], the task runs [catch], rethrows and
    runs [finally]. *)
Definition on_listen_error (i : nat) (message : string) (st : State) : State :=
  match store st !! i with
  | Some c =>
      match socket c with
      | Binding =>
          match lifecycle c with
          | Starting =>
              let h := hostname (info c) in
              update i (set_lifecycle Finished)
                (finally_block h
                   (catch_block i h (ListenError message)
                      (update i (set_socket Failed) st)))
          | _ => update i (set_socket Failed) st
          end
      | _ => st
      end
  | None => st
  end.

(** [return yield* call(() => readyPromise)]: the spawn task ends as the
    ready promise did. *)
Definition spawn_settles (i : nat) (st : State) : State :=
  match store st !! i with
  | Some c =>
      if is_settled (readyPromise c) then
        update i (λ c, set_spawnPromise (settle (readyPromise c) (spawnPromise c)) c) st
      else st
  | None => st
  end.

(** [getOrCreate] past [await spawnPromise]: the [finally] block deletes
    the pending entry. *)
Definition await_resumes (j : nat) (st : State) : State :=
  match calls st !! j with
  | Some (mkCall h (AwaitingSpawn p)) =>
      match store st !! p with
      | Some c =>
          if is_settled (spawnPromise c) then
            with_calls <[j := mkCall h (Resumed p)]>
              (with_pendingCreations (delete h) st)
          else st
      | None => st
      end
  | _ => st
  end.

(** [task.halt()] is requested.  A task waiting for [app.listen] has no
    resource to release: the resource body is left before its [try], and
    only the task's [finally] runs.  A suspended task starts its teardown. *)
Definition halt (i : nat) (st : State) : State :=
  match store st !! i with
  | Some c =>
      match lifecycle c with
      | Starting =>
          update i (set_lifecycle Finished) (finally_block (hostname (info c)) st)
      | Suspended => update i (set_lifecycle (Halting false Provided None)) st
      | _ => st
      end
  | None => st
  end.

(** [shutdown(hostname)] up to [await task.halt()]. *)
Definition shutdown (h : string) (st : State) : State :=
  match serverTasks st !! h with
  | Some t => with_shutdowns (λ l, l ++ [AwaitingHalt t]) (halt t st)
  | None => with_shutdowns (λ l, l ++ [ShutdownReturned None]) st
  end.

(** The teardown of a lifecycle task is over: both [finally] blocks ran. *)
Definition torn_down (c : Creation) : bool :=
  match lifecycle c with
  | Finished => true
  | Halting true Released _ => true
  | _ => false
  end.

(** [shutdown] past [await task.halt()]. *)
Definition shutdown_resumes (j : nat) (st : State) : State :=
  match shutdowns st !! j with
  | Some (AwaitingHalt t) =>
      match store st !! t with
      | Some c =>
          if torn_down c then with_shutdowns <[j := ShutdownReturned (Some t)]> st
          else st
      | None => st
      end
  | _ => st
  end.

(** The watcher of [useExpressServerDaemon] sees ['close'] ([cause] is
    [None]) or ['error'] on a running server and throws
    [ServerDaemonError].  Whether the runtime raises the failure of this
    child inside the task body, where the [catch] block sees it, or ends
    the body through its [finally] only, is [caught]. *)
Definition server_died (i : nat) (cause : option string) (caught : bool) (st : State) : State :=
  match store st !! i with
  | Some c =>
      match lifecycle c, socket c with
      | Suspended, Listening =>
          let e := ServerDaemonError (hostname (info c)) (port (info c)) cause in
          update i (λ c, set_lifecycle
                           (Halting false Provided (if caught then Some e else None))
                           (set_socket (match cause with Some _ => Listening | None => Closed end) c)) st
      | _, _ => st
      end
  | None => st
  end.

(** The [catch] (when something was thrown into the body) and [finally]
    blocks of a lifecycle task in teardown. *)
Definition task_finally (i : nat) (st : State) : State :=
  match store st !! i with
  | Some c =>
      match lifecycle c with
      | Halting false r thrown =>
          let h := hostname (info c) in
          let st1 := match thrown with
                     | Some e => catch_block i h e st
                     | None => st
                     end in
          update i (set_lifecycle (Halting true r thrown)) (finally_block h st1)
      | _ => st
      end
  | None => st
  end.

(** [server.close()]: a ['close'] event will follow, also for a server
    that is closed already. *)
Definition server_close (s : Socket) : Socket :=
  match s with
  | Listening | Closed => Closing
  | _ => s
  end.

(** The [finally] block of [useExpressServer] up to its wait. *)
Definition resource_closes (i : nat) (st : State) : State :=
  match store st !! i with
  | Some c =>
      match lifecycle c with
      | Halting f Provided thrown =>
          update i (λ c, set_lifecycle (Halting f AwaitingClose thrown)
                           (set_socket (server_close (socket c)) c)) st
      | _ => st
      end
  | None => st
  end.

(** The ['close'] event of a socket that was asked to close. *)
Definition close_emitted (i : nat) (st : State) : State :=
  match store st !! i with
  | Some c =>
      match socket c with
      | Closing =>
          update i (λ c, set_socket Closed
                           (match lifecycle c with
                            | Halting f AwaitingClose thrown =>
                                set_lifecycle (Halting f Released thrown) c
                            | _ => c
                            end)) st
      | _ => st
      end
  | None => st
  end.

(** What can happen while the pool is provided, one synchronous segment
    each.  A label that cannot occur in a state leaves it as it is. *)
Inductive Label :=
  | GetOrCreate (hostname : string)
  | NowListening (i : nat)
  | ListenFailed (i : nat) (message : string)
  | SpawnSettles (i : nat)
  | AwaitResumes (j : nat)
  | Shutdown (hostname : string)
  | ShutdownResumes (j : nat)
  | ServerDied (i : nat) (cause : option string) (caught : bool)
  | TaskFinally (i : nat)
  | ResourceCloses (i : nat)
  | CloseEmitted (i : nat).

Definition step (l : Label) (st : State) : State :=
  match l with
  | GetOrCreate h => getOrCreate h st
  | NowListening i => on_listening i st
  | ListenFailed i m => on_listen_error i m st
  | SpawnSettles i => spawn_settles i st
  | AwaitResumes j => await_resumes j st
  | Shutdown h => shutdown h st
  | ShutdownResumes j => shutdown_resumes j st
  | ServerDied i cause caught => server_died i cause caught st
  | TaskFinally i => task_finally i st
  | ResourceCloses i => resource_closes i st
  | CloseEmitted i => close_emitted i st
  end.

Fixpoint exec (ls : list Label) (st : State) : State :=
  match ls with
  | [] => st
  | l :: ls' => exec ls' (step l st)
  end.




(** The segments that finish the teardown of task [i]: its [finally]
    block, the [server.close()] of the resource, the ['close'] event. *)
Definition finish_teardown (i : nat) : list Label :=
  [TaskFinally i; ResourceCloses i; CloseEmitted i].

Definition outcome_of (i : nat) (p : Promise) : option Outcome :=
  match p with
  | Pending => None
  | Fulfilled => Some (Resolved i)
  | Rejected e => Some (Threw e)
  end.

(** What the promise returned by a [getOrCreate] invocation has settled
    to, if it has. *)
Definition call_result (st : State) (c : Call) : option Outcome :=
  match call_state c with
  | Returned o => Some o
  | ReturnedPending p | Resumed p =>
      c ← store st !! p; outcome_of p (spawnPromise c)
  | AwaitingSpawn _ => None
  end.

End WithConfig.

End Pool.

(** ** Switchboard: the proxy handler *)

Module Router.

Import Switchboard Pool.

(** The part of an Express response the handlers look at or write. *)
Record Response := mkResponse {
  headersSent : bool;
  statusCode : Z;
  body : option (string * string);   (* [{ error, message }] *)
}.

(** [res.status(code).json({ error, message })] *)
Definition status_json (code : Z) (error message : string) (res : Response) : Response :=
  mkResponse true code (Some (error, message)).

(** One request travelling through the main proxy handler: the hostname it
    was routed to, the [getOrCreate] invocation it awaits, and its
    response. *)
Record Exchange := mkExchange {
  target : string;
  call : nat;
  response : Response;
}.

Record System := mkSystem {
  pool : State;
  exchanges : list Exchange;
}.

Definition fresh_response : Response := mkResponse false 200 None.

(** The main proxy handler up to [await pool.getOrCreate(hostname)]. *)
Definition handle_request (config : ServerPoolConfig) (defaultHostname : string)
    (req : Request) (sys : System) : System :=
  let h := extractHostname req defaultHostname in
  mkSystem (getOrCreate config h (pool sys))
           (exchanges sys ++ [mkExchange h (length (calls (pool sys))) fresh_response]).

(** http-proxy writes the head of the backend's answer to [res]. *)
Definition backend_head_written (x : nat) (code : Z) (sys : System) : System :=
  mkSystem (pool sys)
           (alter (λ e, mkExchange (target e) (call e) (mkResponse true code None)) x
                  (exchanges sys)).

(** The callback given to [proxy.web], called with an error. *)
Definition proxy_web_failed (x : nat) (message : string) (sys : System) : System :=
  mkSystem (pool sys)
           (alter (λ e, mkExchange (target e) (call e)
                     (if headersSent (response e) then response e
                      else status_json 502 "Bad Gateway"
                             ("Failed to proxy to " +:+ target e +:+ ": " +:+ message)
                             (response e))) x
                  (exchanges sys)).

(** The handler of the proxy's ['error'] event. *)
Definition proxy_on_error (x : nat) (message : string) (sys : System) : System :=
  mkSystem (pool sys)
           (alter (λ e, mkExchange (target e) (call e)
                     (if headersSent (response e) then response e
                      else status_json 502 "Bad Gateway" message (response e))) x
                  (exchanges sys)).

(** A segment of the pool, seen from the switchboard. *)
Definition advance (config : ServerPoolConfig) (ls : list Label) (sys : System) : System :=
  mkSystem (exec config ls (pool sys)) (exchanges sys).

(** The exchange forwards to a backend that [getOrCreate] resolved and
    that is ready. *)
Definition forwarding_to_ready (sys : System) (x : nat) : Prop :=
  ∃ e c i b,
    exchanges sys !! x = Some e ∧
    calls (pool sys) !! call e = Some c ∧
    call_result (pool sys) c = Some (Resolved i) ∧
    store (pool sys) !! i = Some b ∧
    servers (pool sys) !! target e = Some i ∧
    is_Some (server (info b)).

(** C9 as the specification words it: a failed forward to a ready backend
    is answered with status 502. *)
Definition proxy_failure_answers_502 : Prop :=
  ∀ sys x message e',
    forwarding_to_ready sys x →
    exchanges (proxy_web_failed x message sys) !! x = Some e' →
    statusCode (response e') = 502%Z.

End Router.

(** ** Invariants of the pool *)

Module Invariant.

Import Pool.

(** The task's own [finally] block has not run yet: the server is still
    registered. *)
Definition live (c : Creation) : bool :=
  match lifecycle c with
  | Starting | Suspended | Halting false _ _ => true
  | _ => false
  end.

(** The creation a call state refers to. *)
Definition call_ref (cs : CallState) : option nat :=
  match cs with
  | Returned (Resolved i) => Some i
  | Returned (Threw _) => None
  | ReturnedPending p | AwaitingSpawn p | Resumed p => Some p
  end.

(** How one creation can change over time. *)
Definition evolves (c c' : Creation) : Prop :=
  hostname (info c') = hostname (info c) ∧
  port (info c') = port (info c) ∧
  (is_Some (server (info c)) → is_Some (server (info c'))) ∧
  (readyPromise c ≠ Pending → readyPromise c' = readyPromise c) ∧
  (spawnPromise c ≠ Pending → spawnPromise c' = spawnPromise c) ∧
  (live c = false → live c' = false) ∧
  (torn_down c = true → torn_down c' = true).

(** How one invocation of [getOrCreate] can change over time: only by
    resuming from its [await]. *)
Definition call_evolves (k k' : Call) : Prop :=
  call_hostname k' = call_hostname k ∧
  (call_state k' = call_state k ∨
   ∃ p, call_state k = AwaitingSpawn p ∧ call_state k' = Resumed p).

(** The task was asked to stop, or has ended. *)
Definition halted (c : Creation) : Prop :=
  lifecycle c ≠ Starting ∧ lifecycle c ≠ Suspended.

(** The spawn task ends as the ready promise did. *)
Definition follows (c : Creation) : Prop :=
  spawnPromise c = Pending ∨ spawnPromise c = readyPromise c.

(** The events one segment can send for the server of creation [c]:
    nothing, [started], [stopped], or [error] followed by [stopped]. *)
Definition tail_of (c : Creation) (del : bool) (tail : list ServerEvent) : Prop :=
  match tail with
  | [] => del = false
  | [Started h p] => del = false ∧ h = hostname (info c) ∧ p = port (info c)
  | [Stopped h] => del = true ∧ h = hostname (info c)
  | [ErrorEvent h e; Stopped h'] =>
      del = true ∧ h = hostname (info c) ∧ h' = hostname (info c)
  | _ => False
  end.

(** A segment that changes creation [i] from [c] to [c'], sends [tail]
    and, when [del], deletes the hostname of [c] from [servers] and
    [serverTasks]. *)
Definition apply_local (i : nat) (c c' : Creation) (del : bool)
    (tail : list ServerEvent) (st : State) : State :=
  let h := hostname (info c) in
  mkState (if del then delete h (servers st) else servers st)
          (if del then delete h (serverTasks st) else serverTasks st)
          (pendingCreations st) (nextPort st) (events st ++ tail)
          (eventsClosed st) (<[i := c']> (store st)) (calls st) (shutdowns st).

Section WithConfig.

Variable config : ServerPoolConfig.

(** What holds of the objects of creation number [i], whatever the rest of
    the pool does. *)
Definition wf (i : nat) (c : Creation) : Prop :=
  port (info c) = (basePort config + Z.of_nat i)%Z ∧
  match lifecycle c with
  | Starting =>
      readyPromise c = Pending ∧ server (info c) = None ∧ socket c = Binding
  | Suspended =>
      readyPromise c = Fulfilled ∧ server (info c) = Some i ∧ socket c = Listening
  | Halting _ r _ =>
      readyPromise c = Fulfilled ∧ server (info c) = Some i ∧
      match r with
      | Provided => socket c = Listening ∨ socket c = Closed
      | AwaitingClose => socket c = Closing
      | Released => socket c = Closed
      end
  | Finished =>
      server (info c) = None ∧ readyPromise c ≠ Fulfilled ∧
      socket c ≠ Closing ∧ socket c ≠ Closed
  end.

Record LocalStep (i : nat) (c c' : Creation) (del : bool)
    (tail : list ServerEvent) : Prop := {
  ls_wf : wf i c → wf i c';
  ls_evolves : evolves c c';
  ls_live : live c' = if del then false else live c;
  ls_del : del = true → live c = true;
  ls_tail : tail_of c del tail;
  ls_started : wf i c → ∀ h p, Started h p ∈ tail → readyPromise c' = Fulfilled;
  ls_follows : wf i c → follows c → follows c';
  ls_spawn : spawnPromise c' = Pending → spawnPromise c = Pending;
  ls_halted : halted c → halted c';
}.

(** What holds in every state, also while the pool is being left. *)
Record Core (st : State) : Prop := {
  core_next : nextPort st = (basePort config + Z.of_nat (length (store st)))%Z;
  core_wf : ∀ i c, store st !! i = Some c → wf i c;
  core_tasks : serverTasks st = servers st;
  core_live : ∀ k i, servers st !! k = Some i →
                ∃ c, store st !! i = Some c ∧ hostname (info c) = k ∧ live c = true;
  core_started : ∀ h p, Started h p ∈ events st →
                   ∃ i c, store st !! i = Some c ∧ hostname (info c) = h ∧
                          port (info c) = p ∧ readyPromise c = Fulfilled;
  core_stopped : ∀ i c, store st !! i = Some c → live c = false →
                   Stopped (hostname (info c)) ∈ events st;
  core_shutdown : ∀ j t, shutdowns st !! j = Some (ShutdownReturned (Some t)) →
                    ∃ c, store st !! t = Some c ∧ torn_down c = true;
  core_bounded : (0 ≤ limit config)%Z →
                 (Z.of_nat (size (servers st)) ≤ limit config)%Z;
}.

(** What holds while the pool is provided. *)
Record Provide (st : State) : Prop := {
  prov_follows : ∀ i c, store st !! i = Some c → follows c;
  prov_back : ∀ i c, store st !! i = Some c → live c = true →
                servers st !! hostname (info c) = Some i;
  prov_call : ∀ j h p, calls st !! j = Some (mkCall h (AwaitingSpawn p)) →
                pendingCreations st !! h = Some p;
  prov_entry : ∀ h p, pendingCreations st !! h = Some p →
                 ∃ j, calls st !! j = Some (mkCall h (AwaitingSpawn p));
  prov_ref : ∀ j h cs p, calls st !! j = Some (mkCall h cs) → call_ref cs = Some p →
               ∃ c, store st !! p = Some c ∧ hostname (info c) = h;
  prov_unique : ∀ j1 j2 h1 h2 p,
                  calls st !! j1 = Some (mkCall h1 (AwaitingSpawn p)) →
                  calls st !! j2 = Some (mkCall h2 (AwaitingSpawn p)) → j1 = j2;
  prov_spawn : ∀ i c, store st !! i = Some c → spawnPromise c = Pending →
                 ∃ j, calls st !! j = Some (mkCall (hostname (info c)) (AwaitingSpawn i));
  prov_same : ∀ h p i, pendingCreations st !! h = Some p → servers st !! h = Some i →
                i = p;
}.

Record Inv (st : State) : Prop := {
  inv_core : Core st;
  inv_provide : Provide st;
}.

(** [st'] is [st], or [st] after one segment on one creation. *)
Definition is_local (st st' : State) : Prop :=
  st' = st ∨
  ∃ i c c' del tail,
    store st !! i = Some c ∧ LocalStep i c c' del tail ∧
    st' = apply_local i c c' del tail st.

End WithConfig.

End Invariant.

(** ** Concrete runs *)

Module Scenario.

Import Pool.

(** The configuration of [start.ts]. *)
Definition capstone : ServerPoolConfig := mkConfig 3001 (Some 10%Z).

(** A pool with room for one server. *)
Definition single : ServerPoolConfig := mkConfig 3001 (Some 1%Z).

(** A server is requested, starts, is shut down and closes. *)
Definition serve_and_stop (h : string) (i : nat) : list Label :=
  [GetOrCreate h; NowListening i; SpawnSettles i; Shutdown h;
   TaskFinally i; ResourceCloses i; CloseEmitted i].

(** Two requests for the same new key, before the server listens. *)
Definition two_requests : list Label := [GetOrCreate "a"; GetOrCreate "a"].

(** A request for [app-a] is routed, its backend starts, and http-proxy has
    written the head of the backend's answer when the forward fails. *)
Definition forward_breaks_midway : Router.System :=
  Router.backend_head_written 0 200
    (Router.advance capstone [NowListening 0; SpawnSettles 0; AwaitResumes 0]
       (Router.handle_request capstone "default"
          (Switchboard.mkRequest (Some "app-a.localhost:8000") None)
          (Router.mkSystem (init capstone) []))).

(** The same, with the forward failing before anything was written. *)
Definition forward_refused : Router.System :=
  Router.advance capstone [NowListening 0; SpawnSettles 0; AwaitResumes 0]
    (Router.handle_request capstone "default"
       (Switchboard.mkRequest (Some "app-a.localhost:8000") None)
       (Router.mkSystem (init capstone) [])).

End Scenario.

(** ** Error messages *)

Module Errors.

Import Pool.

Definition quote : ascii := "034"%char.

(** The message [ServerDaemonError] builds in its constructor; [cause] is
    the message of the cause, when there is one. *)
Definition daemon_message (hostname : string) (port : Z) (cause : option string) : string :=
  "Server " +:+ String quote hostname +:+ String quote " on port " +:+ pretty port
  +:+ " unexpectedly closed"
  +:+ match cause with
      | Some m => ": " +:+ m
      | None => ""
      end.

(** The message of the error [getOrCreate] throws at capacity. *)
Definition capacity_message (maxServers : Z) : string :=
  "Maximum number of servers (" +:+ pretty maxServers +:+ ") reached".

(** [error.message]; a halted task rejects with the runtime's own error. *)
Definition message (e : Error) : string :=
  match e with
  | MaxServersReached n => capacity_message n
  | ListenError m => m
  | ServerDaemonError h p cause => daemon_message h p cause
  | HaltedError => "halted"
  end.

End Errors.

(** ** Switchboard: past the [await], and the listing routes *)

Module Handler.

Import Switchboard Pool Router Errors.

(** [`http://localhost:${serverInfo.port}`] *)
Definition target_url (port : Z) : string := "http://localhost:" +:+ pretty port.

(** The error-handling middleware, reached through [next(error)]. *)
Definition error_handler (err : Error) (res : Response) : Response :=
  if headersSent res then res
  else status_json 500 "Internal Server Error" (message err) res.

(** The main proxy handler past [await pool.getOrCreate(hostname)], once
    the promise has settled: it hands the request to [proxy.web] with the
    target it returns here, or passes the error on to the error handler. *)
Definition handler_resumes (x : nat) (sys : System) : System * option string :=
  match exchanges sys !! x with
  | Some e =>
      match calls (pool sys) !! call e ≫= call_result (pool sys) with
      | Some (Resolved i) =>
          (sys, (λ r, target_url (port r)) <$> deref (pool sys) i)
      | Some (Threw err) =>
          (mkSystem (pool sys)
             (alter (λ e, mkExchange (target e) (call e)
                                     (error_handler err (response e))) x
                    (exchanges sys)),
           None)
      | None => (sys, None)
      end
  | None => (sys, None)
  end.

(** What [/__switchboard/servers] and [/__switchboard/health] list:
    [pool.list().map(s => ({ hostname: s.hostname, port: s.port, ... }))],
    without the clock readings. *)
Definition servers_route (st : State) : list (string * Z) :=
  omap (λ i, (λ r, (hostname r, port r)) <$> deref st i) (list_running st).

End Handler.

(** ** Counting events and tasks *)

Module Trace.

Import Pool Invariant.

Definition count {A} (f : A → bool) (l : list A) : nat := length (List.filter f l).

Definition is_started (h : string) (e : ServerEvent) : bool :=
  match e with
  | Started h' _ => bool_decide (h' = h)
  | _ => false
  end.

Definition is_stopped (h : string) (e : ServerEvent) : bool :=
  match e with
  | Stopped h' => bool_decide (h' = h)
  | _ => false
  end.

(** The creations for hostname [h] whose server became ready, and those
    whose task has run its [finally] block. *)
Definition ready_for (h : string) (c : Creation) : bool :=
  bool_decide (hostname (info c) = h) &&
  match readyPromise c with
  | Fulfilled => true
  | _ => false
  end.

Definition ended_for (h : string) (c : Creation) : bool :=
  bool_decide (hostname (info c) = h) && negb (live c).

Section WithConfig.

Variable config : ServerPoolConfig.

(** What one segment does to the creation it touches, beyond
    [LocalStep]. *)
Record Segment (i : nat) (c c' : Creation) (del : bool)
    (tail : list ServerEvent) : Prop := {
  sg_local : LocalStep config i c c' del tail;
  sg_task : task (info c') = task (info c);
  sg_started : wf config i c →
               (tail = [Started (hostname (info c)) (port (info c))] ∧
                readyPromise c = Pending ∧ readyPromise c' = Fulfilled) ∨
               ((∀ h p, Started h p ∉ tail) ∧ readyPromise c' = readyPromise c) ∨
               ((∀ h p, Started h p ∉ tail) ∧ readyPromise c = Pending ∧
                ∃ e, readyPromise c' = Rejected e ∧ lifecycle c ≠ Finished);
  sg_finished : lifecycle c = Finished → lifecycle c' = Finished;
  sg_spawn : spawnPromise c' = spawnPromise c ∨
             (readyPromise c ≠ Pending ∧ readyPromise c' = readyPromise c);
}.

(** One step, seen from the registry: a creation, a segment on one
    creation, a resumed [getOrCreate], or bookkeeping only. *)
Inductive View (st st' : State) : Prop :=
  | Creates (h : string) :
      existing_ready st h = None → pendingCreations st !! h = None →
      servers st !! h = None →
      (Z.of_nat (size (servers st)) < limit config)%Z →
      store st' =
        store st ++ [mkCreation (mkInfo h (nextPort st) None (Some (length (store st))))
                                Pending Starting Pending Binding] →
      servers st' = <[h := length (store st)]> (servers st) →
      pendingCreations st' = <[h := length (store st)]> (pendingCreations st) →
      nextPort st' = (nextPort st + 1)%Z →
      events st' = events st →
      calls st' = calls st ++ [mkCall h (AwaitingSpawn (length (store st)))] →
      View st st'
  | Moves (i : nat) (c c' : Creation) (del : bool) (tail : list ServerEvent) :
      store st !! i = Some c → Segment i c c' del tail →
      store st' = <[i := c']> (store st) →
      servers st' = (if del then delete (hostname (info c)) (servers st) else servers st) →
      pendingCreations st' = pendingCreations st →
      nextPort st' = nextPort st →
      events st' = events st ++ tail →
      calls st' = calls st →
      View st st'
  | Resumes (j : nat) (h : string) (p : nat) (c : Creation) :
      calls st !! j = Some (mkCall h (AwaitingSpawn p)) →
      store st !! p = Some c → spawnPromise c ≠ Pending →
      store st' = store st → servers st' = servers st →
      pendingCreations st' = delete h (pendingCreations st) →
      nextPort st' = nextPort st → events st' = events st →
      calls st' = <[j := mkCall h (Resumed p)]> (calls st) →
      View st st'
  | Stays :
      store st' = store st → servers st' = servers st →
      pendingCreations st' = pendingCreations st →
      nextPort st' = nextPort st →
      (events st' = events st ∨
       ∃ h, events st' = events st ++ [ErrorEvent h (MaxServersReached (limit config))]) →
      (calls st' = calls st ∨
       ∃ h cs, calls st' = calls st ++ [mkCall h cs] ∧
               match cs with
               | Returned (Resolved i) => existing_ready st h = Some i
               | Returned (Threw e) =>
                   e = MaxServersReached (limit config) ∧
                   servers st !! h = None ∧ pendingCreations st !! h = None ∧
                   (limit config ≤ Z.of_nat (size (servers st)))%Z
               | ReturnedPending p =>
                   existing_ready st h = None ∧ pendingCreations st !! h = Some p
               | _ => False
               end) →
      View st st'.

End WithConfig.

End Trace.

(** ** Server pool under the runtime's scheduling *)

(** [Pool] above reads [useServerPool] with every task started by the call
    of [scope.run] that creates it, and with the pool's scope staying
    open.  This module reads the same code with what the Effection runtime
    adds to it written out:
    - [scope.run] hands the task to the scope; called from inside an
      operation, the task starts only when that operation yields (the
      tutorial's "spawn is lazy");
    - a lifecycle task that ends with an error fails the pool's scope
      ("it would take down the entire pool"): the pool resource is left,
      its [finally] block closes the event signal and every task of the
      scope is halted;
    - [task.halt()] only requests the halt; the task's [finally] block runs
      in a later segment, before the resources of the task are released;
    - a signal that was closed delivers nothing to its subscribers;
    - [nextPort++] is arithmetic on doubles. *)

Module Tasks.

Import Pool.

(** The nearest double to an integer, ties to even.  Integers up to
    [2^53] in absolute value are doubles; values beyond the largest
    double are not considered. *)
Definition to_double (x : Z) : Z :=
  let a := Z.abs x in
  if (a <=? 2 ^ 53)%Z then x
  else
    let e := (Z.log2 a - 52)%Z in
    let q := Z.shiftr a e in
    let r := (a - Z.shiftl q e)%Z in
    let half := Z.shiftl 1 (e - 1) in
    let q' := if (r <? half)%Z then q
              else if (half <? r)%Z then (q + 1)%Z
              else if Z.even q then q else (q + 1)%Z in
    (Z.sgn x * Z.shiftl q' e)%Z.

(** The value [nextPort++] leaves in [nextPort]. *)
Definition increment (n : Z) : Z := to_double (n + 1).

(** The listening socket behind [app.listen(port)]. [Unbound]: the task
    that calls [app.listen] has not started. *)
Inductive Socket := Unbound | Binding | Listening | Closing | Closed | Failed.

(** Where the lifecycle task of [doSpawnServer] stands.
    [Unstarted]: the spawn task was handed to [scope.run] and has not
    started, so [doSpawnServer] has not run.  [Halting]: the task was halted
    or its watcher threw; [finallyRan] tells whether the task's [finally]
    block ran, [res] where the [finally] block of the server resource
    stands ([Released] at once for a task halted while it waited for
    [app.listen]: the resource body is left before its [try]).
    [FailedStart]: [app.listen] failed, [catch] and [finally] ran.
    [NeverStarted]: halted before it started. *)
Inductive Phase :=
  | Unstarted
  | Starting
  | Suspended
  | Halting (finallyRan : bool) (res : Teardown)
  | FailedStart
  | NeverStarted.

Record Creation := mkCreation {
  info : ServerInfo;
  readyPromise : Promise;
  phase : Phase;
  spawnPromise : Promise;
  socket : Socket;
}.

Record State := mkState {
  servers : gmap string nat;
  serverTasks : gmap string nat;
  pendingCreations : gmap string nat;
  nextPort : Z;
  events : list ServerEvent;      (* what was passed to [events.send] *)
  delivered : list ServerEvent;   (* what the signal passed on to subscribers *)
  closed : bool;                  (* [events.close] was called: the pool was left *)
  store : list Creation;
  calls : list Call;
  shutdowns : list ShutdownCall;
}.

Definition with_registry (f : gmap string nat → gmap string nat) (st : State) : State :=
  mkState (f (servers st)) (f (serverTasks st)) (pendingCreations st) (nextPort st)
          (events st) (delivered st) (closed st) (store st) (calls st) (shutdowns st).

Definition with_pendingCreations (f : gmap string nat → gmap string nat) (st : State) : State :=
  mkState (servers st) (serverTasks st) (f (pendingCreations st)) (nextPort st)
          (events st) (delivered st) (closed st) (store st) (calls st) (shutdowns st).

Definition with_nextPort (p : Z) (st : State) : State :=
  mkState (servers st) (serverTasks st) (pendingCreations st) p
          (events st) (delivered st) (closed st) (store st) (calls st) (shutdowns st).

Definition with_store (f : list Creation → list Creation) (st : State) : State :=
  mkState (servers st) (serverTasks st) (pendingCreations st) (nextPort st)
          (events st) (delivered st) (closed st) (f (store st)) (calls st) (shutdowns st).

Definition with_calls (f : list Call → list Call) (st : State) : State :=
  mkState (servers st) (serverTasks st) (pendingCreations st) (nextPort st)
          (events st) (delivered st) (closed st) (store st) (f (calls st)) (shutdowns st).

Definition with_shutdowns (f : list ShutdownCall → list ShutdownCall) (st : State) : State :=
  mkState (servers st) (serverTasks st) (pendingCreations st) (nextPort st)
          (events st) (delivered st) (closed st) (store st) (calls st) (f (shutdowns st)).

(** [events.send(event)]: subscribers receive it unless the signal was
    closed. *)
Definition emitEvent (e : ServerEvent) (st : State) : State :=
  mkState (servers st) (serverTasks st) (pendingCreations st) (nextPort st)
          (events st ++ [e])
          (if closed st then delivered st else delivered st ++ [e])
          (closed st) (store st) (calls st) (shutdowns st).

Definition set_server (h : option nat) (c : Creation) : Creation :=
  mkCreation (mkInfo (hostname (info c)) (port (info c)) h (task (info c)))
             (readyPromise c) (phase c) (spawnPromise c) (socket c).

Definition set_task (t : option nat) (c : Creation) : Creation :=
  mkCreation (mkInfo (hostname (info c)) (port (info c)) (server (info c)) t)
             (readyPromise c) (phase c) (spawnPromise c) (socket c).

Definition set_readyPromise (p : Promise) (c : Creation) : Creation :=
  mkCreation (info c) p (phase c) (spawnPromise c) (socket c).

Definition set_phase (l : Phase) (c : Creation) : Creation :=
  mkCreation (info c) (readyPromise c) l (spawnPromise c) (socket c).

Definition set_spawnPromise (p : Promise) (c : Creation) : Creation :=
  mkCreation (info c) (readyPromise c) (phase c) p (socket c).

Definition set_socket (s : Socket) (c : Creation) : Creation :=
  mkCreation (info c) (readyPromise c) (phase c) (spawnPromise c) s.

Definition update (i : nat) (f : Creation → Creation) (st : State) : State :=
  with_store (alter f i) st.

(** The runtime halts the tasks of creation [c]: a spawn task whose ready
    promise was fulfilled has returned; any other is halted, and its
    promise is rejected.  A lifecycle task that has not ended is halted. *)
Definition halted (c : Creation) : Creation :=
  let sp := match spawnPromise c, readyPromise c with
            | Pending, Fulfilled => Fulfilled
            | Pending, _ => Rejected HaltedError
            | p, _ => p
            end in
  let ph := match phase c with
            | Unstarted => NeverStarted
            | Starting => Halting false Released
            | Suspended => Halting false Provided
            | p => p
            end in
  mkCreation (info c) (readyPromise c) ph sp (socket c).

(** The pool resource is left: its [finally] block closes the event
    signal, and the runtime halts every task that was started with
    [scope.run] on the pool's scope. *)
Definition leave (st : State) : State :=
  mkState (servers st) (serverTasks st) (pendingCreations st) (nextPort st)
          (events st) (delivered st) true (halted <$> store st) (calls st) (shutdowns st).

Section WithConfig.

Variable config : ServerPoolConfig.

(** [basePort] is a JavaScript number; it is taken to be an integer. *)
Definition init : State :=
  mkState ∅ ∅ ∅ (basePort config) [] [] false [] [] [].

(** The body of the [try] block's [finally] in the lifecycle task. *)
Definition finally_block (h : string) (st : State) : State :=
  with_registry (delete h) (emitEvent (Stopped h) st).

(** The [catch] block of the lifecycle task of creation [i]. *)
Definition catch_block (i : nat) (h : string) (e : Error) (st : State) : State :=
  update i (λ c, set_readyPromise (settle (Rejected e) (readyPromise c)) c)
         (emitEvent (ErrorEvent h e) st).

(** The spawn task of creation [i] starts: [doSpawnServer(hostname, port)]
    up to its [yield* call(() => readyPromise)].  The placeholder is
    stored, the lifecycle task is started and runs until it waits for
    [app.listen], and the task is recorded. *)
Definition doSpawnServer (i : nat) (st : State) : State :=
  match store st !! i with
  | Some c =>
      match phase c with
      | Unstarted =>
          with_registry <[hostname (info c) := i]>
            (update i (λ c, set_phase Starting (set_socket Binding (set_task (Some i) c))) st)
      | _ => st
      end
  | None => st
  end.

(** [existing && existing.server] *)
Definition existing_ready (st : State) (h : string) : option nat :=
  i ← servers st !! h;
  c ← store st !! i;
  _ ← server (info c);
  Some i.

Definition push_call (h : string) (cs : CallState) (st : State) : State :=
  with_calls (λ l, l ++ [mkCall h cs]) st.

(** [getOrCreate(hostname)] up to its first [await] or its return.
    [now] tells whether [scope.run] starts the spawn task before it
    returns (a call from outside any operation) or leaves it to start
    later (a call from inside an operation).  A creation on a pool that
    was left is not part of the model. *)
Definition getOrCreate (h : string) (now : bool) (st : State) : State :=
  match existing_ready st h with
  | Some i => push_call h (Returned (Resolved i)) st
  | None =>
      match pendingCreations st !! h with
      | Some p => push_call h (ReturnedPending p) st
      | None =>
          if (limit config <=? Z.of_nat (size (servers st)))%Z then
            let error := MaxServersReached (limit config) in
            push_call h (Returned (Threw error)) (emitEvent (ErrorEvent h error) st)
          else if closed st then st
          else
            let p := nextPort st in
            let i := length (store st) in
            let c := mkCreation (mkInfo h p None None) Pending Unstarted Pending Unbound in
            let st1 := with_store (λ s, s ++ [c]) (with_nextPort (increment p) st) in
            let st2 := if now then doSpawnServer i st1 else st1 in
            push_call h (AwaitingSpawn i) (with_pendingCreations <[h := i]> st2)
      end
  end.

(** [get(hostname)]: a reference to the record, whatever its state. *)
Definition get (st : State) (h : string) : option nat := servers st !! h.

(** The ['listening'] callback of [app.listen] for server [i]: the resource
    provides the handle, the task fills in [info], sends [started], resolves
    the ready promise and suspends.  A task halted while it was waiting is
    gone; its socket still opens. *)
Definition on_listening (i : nat) (st : State) : State :=
  match store st !! i with
  | Some c =>
      match socket c with
      | Binding =>
          match phase c with
          | Starting =>
              emitEvent (Started (hostname (info c)) (port (info c)))
                (update i (λ c, set_phase Suspended
                                  (set_readyPromise (settle Fulfilled (readyPromise c))
                                     (set_server (Some i) (set_socket Listening c)))) st)
          | _ => update i (set_socket Listening) st
          end
      | _ => st
      end
  | None => st
  end.

(** The ['error'] event of a server that is not listening yet: the
    resource throws before [provide], the task runs [catch], rethrows and
    runs [finally].  The task has nothing to release and ends with the
    error at once, which fails the pool's scope. *)
Definition on_listen_error (i : nat) (message : string) (st : State) : State :=
  match store st !! i with
  | Some c =>
      match socket c with
      | Binding =>
          match phase c with
          | Starting =>
              let h := hostname (info c) in
              leave
                (update i (set_phase FailedStart)
                   (finally_block h
                      (catch_block i h (ListenError message)
                         (update i (set_socket Failed) st))))
          | _ => update i (set_socket Failed) st
          end
      | _ => st
      end
  | None => st
  end.

(** [return yield* call(() => readyPromise)]: the spawn task, once
    started, ends as the ready promise did. *)
Definition spawn_settles (i : nat) (st : State) : State :=
  match store st !! i with
  | Some c =>
      match phase c with
      | Unstarted => st
      | _ =>
          if is_settled (readyPromise c) then
            update i (λ c, set_spawnPromise (settle (readyPromise c) (spawnPromise c)) c) st
          else st
      end
  | None => st
  end.

(** [getOrCreate] past [await spawnPromise]: the [finally] block deletes
    the pending entry. *)
Definition await_resumes (j : nat) (st : State) : State :=
  match calls st !! j with
  | Some (mkCall h (AwaitingSpawn p)) =>
      match store st !! p with
      | Some c =>
          if is_settled (spawnPromise c) then
            with_calls <[j := mkCall h (Resumed p)]>
              (with_pendingCreations (delete h) st)
          else st
      | None => st
      end
  | _ => st
  end.

(** [task.halt()] is requested: nothing of the task's teardown runs before
    the caller's [await]. *)
Definition halt (i : nat) (st : State) : State :=
  match store st !! i with
  | Some c =>
      match phase c with
      | Starting => update i (set_phase (Halting false Released)) st
      | Suspended => update i (set_phase (Halting false Provided)) st
      | _ => st
      end
  | None => st
  end.

(** [shutdown(hostname)] up to [await task.halt()]. *)
Definition shutdown (h : string) (st : State) : State :=
  match serverTasks st !! h with
  | Some t => with_shutdowns (λ l, l ++ [AwaitingHalt t]) (halt t st)
  | None => with_shutdowns (λ l, l ++ [ShutdownReturned None]) st
  end.

(** The lifecycle task has ended: nothing of it is left to run. *)
Definition torn_down (c : Creation) : bool :=
  match phase c with
  | Halting true Released | FailedStart | NeverStarted => true
  | _ => false
  end.

(** [shutdown] past [await task.halt()]. *)
Definition shutdown_resumes (j : nat) (st : State) : State :=
  match shutdowns st !! j with
  | Some (AwaitingHalt t) =>
      match store st !! t with
      | Some c =>
          if torn_down c then with_shutdowns <[j := ShutdownReturned (Some t)]> st
          else st
      | None => st
      end
  | _ => st
  end.

(** The watcher of [useExpressServerDaemon] sees ['close'] ([cause] is
    [None]) or ['error'] on a running server and throws
    [ServerDaemonError]: the lifecycle task is ended through its [finally]
    block; the error does not pass through its [catch].  The error then
    fails the pool's scope, as a failed start does; at which point of the
    task's teardown the runtime does so is not fixed here: [Leave] may
    follow any later segment. *)
Definition server_died (i : nat) (cause : option string) (st : State) : State :=
  match store st !! i with
  | Some c =>
      match phase c, socket c with
      | Suspended, Listening =>
          update i (λ c, set_phase (Halting false Provided)
                           (set_socket (match cause with Some _ => Listening | None => Closed end) c)) st
      | _, _ => st
      end
  | None => st
  end.

(** The [finally] block of a lifecycle task that is ending. *)
Definition task_finally (i : nat) (st : State) : State :=
  match store st !! i with
  | Some c =>
      match phase c with
      | Halting false r =>
          update i (set_phase (Halting true r)) (finally_block (hostname (info c)) st)
      | _ => st
      end
  | None => st
  end.

(** [server.close()]: a ['close'] event will follow, also for a server
    that is closed already. *)
Definition server_close (s : Socket) : Socket :=
  match s with
  | Listening | Closed => Closing
  | _ => s
  end.

(** The [finally] block of [useExpressServer] up to its wait; it runs
    after the [finally] block of the task that uses the resource. *)
Definition resource_closes (i : nat) (st : State) : State :=
  match store st !! i with
  | Some c =>
      match phase c with
      | Halting true Provided =>
          update i (λ c, set_phase (Halting true AwaitingClose)
                           (set_socket (server_close (socket c)) c)) st
      | _ => st
      end
  | None => st
  end.

(** The ['close'] event of a socket that was asked to close. *)
Definition close_emitted (i : nat) (st : State) : State :=
  match store st !! i with
  | Some c =>
      match socket c with
      | Closing =>
          update i (λ c, set_socket Closed
                           (match phase c with
                            | Halting f AwaitingClose => set_phase (Halting f Released) c
                            | _ => c
                            end)) st
      | _ => st
      end
  | None => st
  end.

(** What can happen, one synchronous segment each.  A label that cannot
    occur in a state leaves it as it is. *)
Inductive Label :=
  | GetOrCreate (hostname : string) (now : bool)
  | SpawnStarts (i : nat)
  | NowListening (i : nat)
  | ListenFailed (i : nat) (message : string)
  | SpawnSettles (i : nat)
  | AwaitResumes (j : nat)
  | Shutdown (hostname : string)
  | ShutdownResumes (j : nat)
  | ServerDied (i : nat) (cause : option string)
  | TaskFinally (i : nat)
  | ResourceCloses (i : nat)
  | CloseEmitted (i : nat)
  | Leave.

Definition step (l : Label) (st : State) : State :=
  match l with
  | GetOrCreate h now => getOrCreate h now st
  | SpawnStarts i => doSpawnServer i st
  | NowListening i => on_listening i st
  | ListenFailed i m => on_listen_error i m st
  | SpawnSettles i => spawn_settles i st
  | AwaitResumes j => await_resumes j st
  | Shutdown h => shutdown h st
  | ShutdownResumes j => shutdown_resumes j st
  | ServerDied i cause => server_died i cause st
  | TaskFinally i => task_finally i st
  | ResourceCloses i => resource_closes i st
  | CloseEmitted i => close_emitted i st
  | Leave => leave st
  end.

Fixpoint exec (ls : list Label) (st : State) : State :=
  match ls with
  | [] => st
  | l :: ls' => exec ls' (step l st)
  end.

(** The segments that finish the teardown of task [i]: its [finally]
    block, the [server.close()] of the resource, the ['close'] event. *)
Definition finish_teardown (i : nat) : list Label :=
  [TaskFinally i; ResourceCloses i; CloseEmitted i].

Definition drain (n : nat) : list Label := flat_map finish_teardown (seq 0 n).

(** What the promise returned by a [getOrCreate] invocation has settled
    to, if it has. *)
Definition call_result (st : State) (c : Call) : option Outcome :=
  match call_state c with
  | Returned o => Some o
  | ReturnedPending p | Resumed p =>
      c ← store st !! p; outcome_of p (spawnPromise c)
  | AwaitingSpawn _ => None
  end.

End WithConfig.

End Tasks.

(** ** Invariants of the pool under the runtime's scheduling *)

Module TaskInvariant.

Import Pool Tasks.

(** The task started and its own [finally] block has not run yet: the
    server is registered. *)
Definition live (c : Creation) : bool :=
  match phase c with
  | Starting | Suspended | Halting false _ => true
  | _ => false
  end.

(** The task has not been halted and has not ended. *)
Definition active (c : Creation) : bool :=
  match phase c with
  | Unstarted | Starting | Suspended => true
  | _ => false
  end.

(** The task has started: [doSpawnServer] ran. *)
Definition began (c : Creation) : bool :=
  match phase c with
  | Unstarted | NeverStarted => false
  | _ => true
  end.

(** The task's own [finally] block ran. *)
Definition ended (c : Creation) : bool :=
  match phase c with
  | Halting true _ | FailedStart => true
  | _ => false
  end.

(** The events one segment can send for the server of creation [c]:
    nothing, [started], [stopped], or the [error] of a failed start
    followed by [stopped]. *)
Definition tail_of (c : Creation) (del : bool) (tail : list ServerEvent) : Prop :=
  match tail with
  | [] => del = false
  | [Started h p] => del = false ∧ h = hostname (info c) ∧ p = port (info c) ∧
                     phase c = Starting
  | [Stopped h] => del = true ∧ h = hostname (info c)
  | [ErrorEvent h (ListenError _); Stopped h'] =>
      del = true ∧ h = hostname (info c) ∧ h' = hostname (info c)
  | _ => False
  end.

(** How one creation can change over time. *)
Definition keeps (c c' : Creation) : Prop :=
  hostname (info c') = hostname (info c) ∧
  port (info c') = port (info c) ∧
  (is_Some (server (info c)) → is_Some (server (info c'))) ∧
  (readyPromise c ≠ Pending → readyPromise c' = readyPromise c) ∧
  (spawnPromise c ≠ Pending → spawnPromise c' = spawnPromise c) ∧
  (torn_down c = true → torn_down c' = true) ∧
  (phase c = FailedStart → phase c' = FailedStart) ∧
  (began c = true → began c' = true).

Definition store_keeps (st st' : State) : Prop :=
  ∀ i c, store st !! i = Some c → ∃ c', store st' !! i = Some c' ∧ keeps c c'.

Definition calls_evolve (st st' : State) : Prop :=
  ∀ j k, calls st !! j = Some k →
         ∃ k', calls st' !! j = Some k' ∧ Invariant.call_evolves k k'.

(** Between [st] and [st'] the event log only grows, and a creation
    whose [finally] ran in between has its [stopped] event in what was
    added. *)
Definition stops_logged (st st' : State) : Prop :=
  ∃ tail, events st' = events st ++ tail ∧
    ∀ i c, store st !! i = Some c →
      ∃ c', store st' !! i = Some c' ∧
            hostname (info c') = hostname (info c) ∧
            (live c = true → live c' = false → Stopped (hostname (info c)) ∈ tail).

(** The ports handed out so far, in the order of the [nextPort++] that
    produced them. *)
Definition assigned_ports (st : State) : list Z := (λ c, port (info c)) <$> store st.

(** The order of the events in a log: an [error] other than the capacity
    error is the failure of a start, and the [stopped] of the same
    hostname follows it directly. *)
Fixpoint ordered (l : list ServerEvent) : bool :=
  match l with
  | [] => true
  | ErrorEvent _ (MaxServersReached _) :: l' => ordered l'
  | ErrorEvent h (ListenError _) :: l' =>
      match l' with
      | Stopped h' :: _ => String.eqb h h' && ordered l'
      | _ => false
      end
  | ErrorEvent _ _ :: _ => false
  | _ :: l' => ordered l'
  end.

(** A segment that changes creation [i] from [c] to [c'], sends [tail]
    and, when [del], deletes the hostname of [c] from [servers] and
    [serverTasks]. *)
Definition apply_local (i : nat) (c c' : Creation) (del : bool)
    (tail : list ServerEvent) (st : State) : State :=
  let h := hostname (info c) in
  mkState (if del then delete h (servers st) else servers st)
          (if del then delete h (serverTasks st) else serverTasks st)
          (pendingCreations st) (nextPort st) (events st ++ tail)
          (if closed st then delivered st else delivered st ++ tail)
          (closed st) (<[i := c']> (store st)) (calls st) (shutdowns st).

(** The creation was halted while it started, and nobody has been told:
    its ready promise and its spawn task stay as they are, and its
    hostname keeps its pending entry, until the pool is left. *)
Definition abandoned (i : nat) (h : string) (st : State) : Prop :=
  closed st = false →
  pendingCreations st !! h = Some i ∧
  ∃ c f, store st !! i = Some c ∧ hostname (info c) = h ∧
         phase c = Halting f Released ∧
         readyPromise c = Pending ∧ spawnPromise c = Pending ∧
         servers st !! h = if f then None else Some i.

Section WithConfig.

Variable config : ServerPoolConfig.

Definition nth_port (i : nat) : Z := Nat.iter i increment (basePort config).

Definition unsettled_or (p q : Promise) : Prop := p = Pending ∨ p = q.

(** What holds of the objects of creation number [i], whatever the rest of
    the pool does. *)
Definition wf (i : nat) (c : Creation) : Prop :=
  port (info c) = nth_port i ∧
  match phase c with
  | Unstarted =>
      readyPromise c = Pending ∧ spawnPromise c = Pending ∧
      server (info c) = None ∧ task (info c) = None ∧ socket c = Unbound
  | NeverStarted =>
      readyPromise c = Pending ∧ spawnPromise c = Rejected HaltedError ∧
      server (info c) = None ∧ task (info c) = None ∧ socket c = Unbound
  | Starting =>
      readyPromise c = Pending ∧ spawnPromise c = Pending ∧
      server (info c) = None ∧ task (info c) = Some i ∧ socket c = Binding
  | Suspended =>
      readyPromise c = Fulfilled ∧ unsettled_or (spawnPromise c) Fulfilled ∧
      server (info c) = Some i ∧ task (info c) = Some i ∧ socket c = Listening
  | Halting f r =>
      task (info c) = Some i ∧
      ((readyPromise c = Fulfilled ∧ unsettled_or (spawnPromise c) Fulfilled ∧
        server (info c) = Some i ∧
        match r with
        | Provided => socket c = Listening ∨ socket c = Closed
        | AwaitingClose => f = true ∧ socket c = Closing
        | Released => f = true ∧ socket c = Closed
        end) ∨
       (readyPromise c = Pending ∧ unsettled_or (spawnPromise c) (Rejected HaltedError) ∧
        server (info c) = None ∧ r = Released ∧
        (socket c = Binding ∨ socket c = Listening ∨ socket c = Failed)))
  | FailedStart =>
      (∃ m, readyPromise c = Rejected (ListenError m)) ∧
      spawnPromise c = Rejected HaltedError ∧
      server (info c) = None ∧ task (info c) = Some i ∧ socket c = Failed
  end.

Record LocalStep (i : nat) (c c' : Creation) (del : bool)
    (tail : list ServerEvent) : Prop := {
  ls_host : hostname (info c') = hostname (info c);
  ls_port : port (info c') = port (info c);
  ls_wf : wf i c → wf i c';
  ls_live : live c' = if del then false else live c;
  ls_del : del = true → live c = true;
  ls_ended : ended c' = ended c || del;
  ls_tail : tail_of c del tail;
  ls_unstarted : phase c' = Unstarted ↔ phase c = Unstarted;
  ls_active : active c' = true → active c = true;
  ls_torn : torn_down c = true → torn_down c' = true;
  ls_ready : readyPromise c ≠ Pending → readyPromise c' = readyPromise c;
  ls_spawn : spawnPromise c ≠ Pending → spawnPromise c' = spawnPromise c;
  ls_rejected : wf i c → ∀ e, spawnPromise c' = Rejected e →
                spawnPromise c = Rejected e ∨ phase c' = FailedStart;
  ls_server : is_Some (server (info c)) → is_Some (server (info c'));
  ls_failed : phase c = FailedStart → phase c' = FailedStart;
  ls_began : began c' = began c;
  ls_started : wf i c → ∀ h p, Started h p ∈ tail → readyPromise c' = Fulfilled;
  ls_ready_from : phase c ≠ Starting → readyPromise c' = readyPromise c;
  ls_spawn_from : readyPromise c = Pending → phase c ≠ Starting →
                  spawnPromise c' = spawnPromise c;
  ls_halting : ∀ f r, phase c = Halting f r → ∃ f' r', phase c' = Halting f' r';
}.

(** The creation that [getOrCreate] adds. *)
Definition placeholder (h : string) (p : Z) : Creation :=
  mkCreation (mkInfo h p None None) Pending Unstarted Pending Unbound.

Definition create (h : string) (st : State) : State :=
  push_call h (AwaitingSpawn (length (store st)))
    (with_pendingCreations <[h := length (store st)]>
       (with_store (λ s, s ++ [placeholder h (nextPort st)])
          (with_nextPort (increment (nextPort st)) st))).

(** What holds of an invocation of [shutdown]: it found the task of a
    creation that had started, and has returned only when that task has
    ended. *)
Definition shut_ok (st : State) (s : ShutdownCall) : Prop :=
  match s with
  | AwaitingHalt t => ∃ c, store st !! t = Some c ∧ began c = true
  | ShutdownReturned (Some t) =>
      ∃ c, store st !! t = Some c ∧ began c = true ∧ torn_down c = true
  | ShutdownReturned None => True
  end.

(** What [getOrCreate] can return before its first [await]. *)
Definition answer (st : State) (h : string) (cs : CallState) : Prop :=
  match cs with
  | Returned (Resolved i) => existing_ready st h = Some i
  | Returned (Threw e) => e = MaxServersReached (limit config)
  | ReturnedPending p => pendingCreations st !! h = Some p
  | _ => False
  end.

(** A change that registers nothing and creates nothing: a segment on one
    creation, or the pool being left. *)
Inductive Local (st : State) : State → Prop :=
  | lo_move i c c' del tail :
      store st !! i = Some c → LocalStep i c c' del tail →
      Local st (apply_local i c c' del tail st)
  | lo_leave : Local st (leave st).

(** [st'] registers no server and creates nothing that [st] does not
    have. *)
Definition Quiet (st st' : State) : Prop :=
  (size (servers st') ≤ size (servers st))%nat ∧
  ∀ i c', store st' !! i = Some c' → phase c' = Unstarted →
          ∃ c, store st !! i = Some c ∧ phase c = Unstarted.

(** A call of [getOrCreate] from outside any operation, or any other
    segment. *)
Definition immediate (l : Label) : bool :=
  match l with
  | GetOrCreate _ now => now
  | _ => true
  end.


(** C8 as the specification words it: the [stopped] event of every key
    registered when the pool is left is published, that is, reaches the
    subscribers of [pool.events], by the time every task has ended. *)
Definition termination_publishes_stopped : Prop :=
  ∀ ls ls' h,
    let st0 := exec config ls (init config) in
    let st2 := exec config ls' (leave st0) in
    is_Some (servers st0 !! h) → forallb torn_down (store st2) = true →
    Stopped h ∈ drop (length (delivered st0)) (delivered st2).


(** C7 as the specification words it: a port handed out later is above
    every port handed out before. *)
Definition ports_never_repeat : Prop :=
  ∀ ls i j pi pj,
    let st := exec config ls (init config) in
    assigned_ports st !! i = Some pi → assigned_ports st !! j = Some pj → i < j →
    (pi < pj)%Z.

(** C2 as the specification words it: the registry never holds more than
    [maxServers] records. *)
Definition registry_bounded : Prop :=
  ∀ ls, (Z.of_nat (size (servers (exec config ls (init config)))) ≤ limit config)%Z.

(** One change of the state; every segment is a sequence of these. *)
Inductive Change (st : State) : State → Prop :=
  | ch_create h :
      existing_ready st h = None → pendingCreations st !! h = None →
      closed st = false → (Z.of_nat (size (servers st)) < limit config)%Z →
      Change st (create h st)
  | ch_start i c :
      store st !! i = Some c → phase c = Unstarted →
      Change st (doSpawnServer i st)
  | ch_local st' : Local st st' → Change st st'
  | ch_resume j h p c :
      calls st !! j = Some (mkCall h (AwaitingSpawn p)) →
      store st !! p = Some c → is_settled (spawnPromise c) = true →
      Change st (await_resumes j st)
  | ch_call h cs : answer st h cs → Change st (push_call h cs st)
  | ch_event h :
      Change st (emitEvent (ErrorEvent h (MaxServersReached (limit config))) st)
  | ch_shut f :
      (∀ j s, f (shutdowns st) !! j = Some s → shut_ok st s) →
      Change st (with_shutdowns f st).

Definition Changes : relation State := rtc Change.

(** What holds in every state. *)
Record Inv (st : State) : Prop := {
  inv_next : nextPort st = nth_port (length (store st));
  inv_wf : ∀ i c, store st !! i = Some c → wf i c;
  inv_tasks : serverTasks st = servers st;
  inv_live : ∀ k i, servers st !! k = Some i →
               ∃ c, store st !! i = Some c ∧ hostname (info c) = k ∧ live c = true;
  inv_back : ∀ i c, store st !! i = Some c → live c = true →
               servers st !! hostname (info c) = Some i;
  inv_started : ∀ h p, Started h p ∈ events st →
                  ∃ i c, store st !! i = Some c ∧ hostname (info c) = h ∧
                         port (info c) = p ∧ readyPromise c = Fulfilled;
  inv_stopped : ∀ i c, store st !! i = Some c → ended c = true →
                  Stopped (hostname (info c)) ∈ events st;
  inv_shutdown : ∀ j s, shutdowns st !! j = Some s → shut_ok st s;
  inv_closed : closed st = true → ∀ i c, store st !! i = Some c → active c = false;
  inv_rejected : ∀ i c e, store st !! i = Some c → spawnPromise c = Rejected e →
                   closed st = true ∨ phase c = FailedStart;
  inv_call : ∀ j h p, calls st !! j = Some (mkCall h (AwaitingSpawn p)) →
               pendingCreations st !! h = Some p;
  inv_entry : ∀ h p, pendingCreations st !! h = Some p →
                ∃ j, calls st !! j = Some (mkCall h (AwaitingSpawn p));
  inv_ref : ∀ j h cs p, calls st !! j = Some (mkCall h cs) →
              Invariant.call_ref cs = Some p →
              ∃ c, store st !! p = Some c ∧ hostname (info c) = h;
  inv_unique : ∀ j1 j2 h1 h2 p,
                 calls st !! j1 = Some (mkCall h1 (AwaitingSpawn p)) →
                 calls st !! j2 = Some (mkCall h2 (AwaitingSpawn p)) → j1 = j2;
  inv_spawn : ∀ i c, store st !! i = Some c → spawnPromise c = Pending →
                ∃ j, calls st !! j = Some (mkCall (hostname (info c)) (AwaitingSpawn i));
  inv_same : ∀ h p i, pendingCreations st !! h = Some p → servers st !! h = Some i →
               i = p;
}.

End WithConfig.

End TaskInvariant.

(** ** Concrete runs under the runtime's scheduling *)

Module TaskScenario.

Import Pool Tasks.

(** A pool whose port counter starts at the last integer that JavaScript
    numbers count exactly. *)
Definition at_the_edge : ServerPoolConfig := mkConfig (2 ^ 53) (Some 10%Z).

(** Two requests for new hostnames made inside one operation: both
    spawn tasks start when the operation yields. *)
Definition deferred_pair : list Label :=
  [GetOrCreate "a" false; GetOrCreate "b" false; SpawnStarts 0; SpawnStarts 1].

(** The server for "a" is created and listens. *)
Definition running : list Label := [GetOrCreate "a" true; NowListening 0].

(** A server is created as creation [i] by call [j], serves, and is shut
    down. *)
Definition serve_and_stop (h : string) (i j : nat) : list Label :=
  [GetOrCreate h true; NowListening i; SpawnSettles i; AwaitResumes j;
   Shutdown h; TaskFinally i; ResourceCloses i; CloseEmitted i].

(** Servers for "a", "b" and "c" come and go, then "d" is requested. *)
Definition abc_then_d : list Label :=
  serve_and_stop "a" 0 0 ++ serve_and_stop "b" 1 1 ++ serve_and_stop "c" 2 2 ++
  [GetOrCreate "d" true].

(** Two requests for "a" while its server starts. *)
Definition two_requests : list Label := [GetOrCreate "a" true; GetOrCreate "a" true].

(** The placeholder of creation [i] once its task has started. *)
Definition starting (h : string) (p : Z) (i : nat) : Creation :=
  mkCreation (mkInfo h p None (Some i)) Pending Starting Pending Binding.

End TaskScenario.

(** * Properties *)

(** ** Hostname extraction *)

Section ExtractHostname.

Import Switchboard.

(** The first element of [s.split(sep)] is the part of [s] before its first
    separator. *)
Lemma split_head (sep : ascii) (s : string) :
  ∃ h t, split sep s = h :: t ∧ includes sep h = false ∧
         ((t = [] ∧ s = h) ∨ ∃ r, s = h +:+ String sep r).
Proof.
  induction s as [|c s IH]; simpl.
  - exists "", []. auto.
  - destruct (Ascii.eqb c sep) eqn:E.
    + apply Ascii.eqb_eq in E as ->.
      exists "", (split sep s). repeat split; eauto.
    + destruct IH as (h & t & -> & Hh & Hs).
      exists (String c h), t. simpl. rewrite E, Hh.
      repeat split; auto.
      destruct Hs as [[-> ->]|[r ->]]; [left|right]; eauto.
Qed.

Lemma includes_app_sep (sep : ascii) (h r : string) :
  includes sep (h +:+ String sep r) = true.
Proof.
  induction h as [|c h IH]; simpl.
  - rewrite Ascii.eqb_refl. reflexivity.
  - rewrite IH. apply orb_true_r.
Qed.

Lemma hostWithoutPort_spec (s : string) :
  includes colon (hostWithoutPort s) = false ∧
  (s = hostWithoutPort s ∨ ∃ r, s = hostWithoutPort s +:+ String colon r).
Proof.
  unfold hostWithoutPort.
  destruct (split_head colon s) as (h & t & -> & Hh & Hs). simpl.
  split; [done|]. destruct Hs as [[_ ->]|?]; auto.
Qed.

(** C6, the claim as stated fails: a request whose [X-App-Name] header is
    present with an empty value is routed to the default, not to the
    header's value. *)
Lemma extractHostname_empty_header :
  ¬ (∀ req d, extractHostname req d = spec_routing_key req d).
Proof.
  intros H.
  specialize (H (mkRequest (Some "localhost") (Some "")) "default").
  vm_compute in H. discriminate.
Qed.

(** C6 as amended: the host is cut at its first colon; when what is left
    holds a dot the key is what precedes the first dot; otherwise a
    non-empty [X-App-Name] header is the key, verbatim; otherwise (no
    header, or an empty one) the key is the configured default. *)
Theorem extractHostname_precedence (req : Request) (d : string) :
  let h := hostWithoutPort (or_empty (host req)) in
  (includes colon h = false ∧
   (or_empty (host req) = h ∨ ∃ r, or_empty (host req) = h +:+ String colon r)) ∧
  (includes dot h = true →
   includes dot (extractHostname req d) = false ∧
   ∃ r, h = extractHostname req d +:+ String dot r) ∧
  (includes dot h = false →
   ∀ v, x_app_name req = Some v → v ≠ "" → extractHostname req d = v) ∧
  (includes dot h = false →
   x_app_name req = None ∨ x_app_name req = Some "" → extractHostname req d = d) ∧
  extractHostname (mkRequest (Some "app-a.localhost:8000") None) "default" = "app-a" ∧
  extractHostname (mkRequest (Some "localhost") (Some "custom")) "default" = "custom" ∧
  extractHostname (mkRequest (Some "localhost") None) "default" = "default".
Proof.
  intros h. split; [apply hostWithoutPort_spec|].
  unfold extractHostname. fold h.
  repeat split; try reflexivity.
  - destruct (includes dot h) eqn:E; [|done].
    destruct (split_head dot h) as (k & t & -> & Hk & _). done.
  - destruct (includes dot h) eqn:E; [|done].
    destruct (split_head dot h) as (k & t & -> & Hk & Hs). simpl.
    destruct Hs as [[_ Hs]|[r Hs]]; [congruence|eauto].
  - intros E v Hv Hne. rewrite E, Hv. destruct v; done.
  - intros E Hv. rewrite E. destruct Hv as [-> | ->]; done.
Qed.

Lemma extractHostname_precedence_witness :
  includes dot (hostWithoutPort (or_empty (Some "app-a.localhost:8000"))) = true ∧
  extractHostname (mkRequest (Some "app-a.localhost:8000") None) "default" = "app-a".
Proof.
  split; [reflexivity|].
  pose proof (extractHostname_precedence
                (mkRequest (Some "app-a.localhost:8000") None) "default") as H.
  apply H.
Defined.

End ExtractHostname.

(** ** The pool: preservation of the invariants *)

Section PoolFacts.

Import Pool Invariant.

Variable config : ServerPoolConfig.

Lemma alter_lookup_insert {A} (f : A → A) (i : nat) (l : list A) (x : A) :
  l !! i = Some x → alter f i l = <[i := f x]> l.
Proof.
  revert i. induction l as [|y l IH]; intros [|i] H; simplify_eq/=; try done.
  f_equal. by apply IH.
Qed.

Lemma alter_insert_same {A} (f : A → A) (i : nat) (l : list A) (y : A) :
  i < length l → alter f i (<[i := y]> l) = <[i := f y]> l.
Proof.
  intros Hi. rewrite (alter_lookup_insert f i _ y).
  - apply list_insert_insert_eq.
  - by apply list_lookup_insert_eq.
Qed.

Ltac case_goal :=
  match goal with
  | |- context [match ?x with _ => _ end] => destruct x eqn:?
  end.

Ltac destruct_matches :=
  repeat match goal with
  | |- context [match ?x with _ => _ end] => destruct x eqn:?; simplify_eq/=
  | H : context [match ?x with _ => _ end] |- _ => destruct x eqn:?; simplify_eq/=
  end.

Ltac elems :=
  repeat match goal with
  | H : _ ∈ [] |- _ => by apply elem_of_nil in H
  | H : _ ∈ _ :: _ |- _ => apply elem_of_cons in H as [?|?]; simplify_eq/=
  end.

Ltac crush_creation :=
  repeat match goal with
  | c : Creation |- _ => destruct c as [[? ? ? ?] ? ? ? ?]
  end;
  unfold wf, evolves, follows, tail_of, live, torn_down, halted, settle, server_close,
    set_lifecycle, set_readyPromise, set_server, set_socket, set_spawnPromise in *;
  simpl in *; simplify_eq/=; destruct_matches;
  intuition (elems; try congruence; try lia; eauto).

(** Rewriting a state built by the operations into the [apply_local] form. *)
Ltac store_norm c :=
  match goal with
  | H : store ?st !! ?i = Some c |- _ =>
      rewrite ?(alter_lookup_insert _ i (store st) c) by assumption;
      rewrite ?alter_insert_same by (eapply lookup_lt_Some; eassumption)
  end.

Ltac local_intro i c c' del tail :=
  right; exists i, c, c', del, tail; split; [assumption|]; split;
  [ split; crush_creation
  | unfold apply_local, update, finally_block, catch_block, emitEvent,
      with_store, with_servers, with_serverTasks; simpl;
    store_norm c; rewrite <- ?app_assoc; simpl; rewrite ?app_nil_r; reflexivity ].

Lemma on_listening_local i st : is_local config st (on_listening i st).
Proof.
  unfold is_local, on_listening.
  destruct (store st !! i) as [c|] eqn:Hc; [|by left].
  destruct (socket c) eqn:Hs; try (by left).
  destruct (lifecycle c) as [| |f r t|] eqn:Hl.
  - local_intro i c (set_lifecycle Suspended
        (set_readyPromise (settle Fulfilled (readyPromise c))
           (set_server (Some i) (set_socket Listening c)))) false
      [Started (hostname (info c)) (port (info c))].
  - local_intro i c (set_socket Listening c) false (@nil ServerEvent).
  - local_intro i c (set_socket Listening c) false (@nil ServerEvent).
  - local_intro i c (set_socket Listening c) false (@nil ServerEvent).
Qed.


Lemma on_listen_error_local i m st : is_local config st (on_listen_error i m st).
Proof.
  unfold is_local, on_listen_error.
  destruct (store st !! i) as [c|] eqn:Hc; [|by left].
  destruct (socket c) eqn:Hs; try (by left).
  destruct (lifecycle c) as [| |f r t|] eqn:Hl.
  - local_intro i c (set_lifecycle Finished
        (set_readyPromise (settle (Rejected (ListenError m)) (readyPromise c))
           (set_socket Failed c))) true
      [ErrorEvent (hostname (info c)) (ListenError m); Stopped (hostname (info c))].
  - local_intro i c (set_socket Failed c) false (@nil ServerEvent).
  - local_intro i c (set_socket Failed c) false (@nil ServerEvent).
  - local_intro i c (set_socket Failed c) false (@nil ServerEvent).
Qed.

Lemma spawn_settles_local i st : is_local config st (spawn_settles i st).
Proof.
  unfold is_local, spawn_settles.
  destruct (store st !! i) as [c|] eqn:Hc; [|by left].
  destruct (is_settled (readyPromise c)) eqn:Hs; [|by left].
  local_intro i c (set_spawnPromise (settle (readyPromise c) (spawnPromise c)) c)
    false (@nil ServerEvent).
Qed.

Lemma halt_local i st : is_local config st (halt i st).
Proof.
  unfold is_local, halt.
  destruct (store st !! i) as [c|] eqn:Hc; [|by left].
  destruct (lifecycle c) as [| |f r t|] eqn:Hl; try (by left).
  - local_intro i c (set_lifecycle Finished c) true [Stopped (hostname (info c))].
  - local_intro i c (set_lifecycle (Halting false Provided None) c) false
      (@nil ServerEvent).
Qed.

Lemma server_died_local i cause caught st : is_local config st (server_died i cause caught st).
Proof.
  unfold is_local, server_died.
  destruct (store st !! i) as [c|] eqn:Hc; [|by left].
  destruct (lifecycle c) as [| |f r t|] eqn:Hl; try (by left).
  destruct (socket c) eqn:Hs; try (by left).
  local_intro i c
    (set_lifecycle
       (Halting false Provided
          (if caught then Some (ServerDaemonError (hostname (info c)) (port (info c)) cause)
           else None))
       (set_socket (match cause with Some _ => Listening | None => Closed end) c))
    false (@nil ServerEvent).
Qed.

Lemma task_finally_local i st : is_local config st (task_finally i st).
Proof.
  unfold is_local, task_finally.
  destruct (store st !! i) as [c|] eqn:Hc; [|by left].
  destruct (lifecycle c) as [| |[] r t|] eqn:Hl; try (by left).
  destruct t as [e|].
  - local_intro i c
      (set_lifecycle (Halting true r (Some e))
         (set_readyPromise (settle (Rejected e) (readyPromise c)) c)) true
      [ErrorEvent (hostname (info c)) e; Stopped (hostname (info c))].
  - local_intro i c (set_lifecycle (Halting true r None) c) true
      [Stopped (hostname (info c))].
Qed.

Lemma resource_closes_local i st : is_local config st (resource_closes i st).
Proof.
  unfold is_local, resource_closes.
  destruct (store st !! i) as [c|] eqn:Hc; [|by left].
  destruct (lifecycle c) as [| |f [] t|] eqn:Hl; try (by left).
  local_intro i c
    (set_lifecycle (Halting f AwaitingClose t) (set_socket (server_close (socket c)) c))
    false (@nil ServerEvent).
Qed.

Lemma close_emitted_local i st : is_local config st (close_emitted i st).
Proof.
  unfold is_local, close_emitted.
  destruct (store st !! i) as [c|] eqn:Hc; [|by left].
  destruct (socket c) eqn:Hs; try (by left).
  local_intro i c
    (set_socket Closed
       (match lifecycle c with
        | Halting f AwaitingClose thrown => set_lifecycle (Halting f Released thrown) c
        | _ => c
        end))
    false (@nil ServerEvent).
Qed.


Lemma lookup_insert_store (l : list Creation) (i j : nat) (c x : Creation) :
  l !! i = Some c → <[i := x]> l !! j = Some x ∧ j = i ∨ (j ≠ i ∧ <[i := x]> l !! j = l !! j).
Proof.
  intros Hi. destruct (decide (j = i)) as [->|Hne].
  - left. split; [|done]. apply list_lookup_insert_eq. by eapply lookup_lt_Some.
  - right. split; [done|]. by apply list_lookup_insert_ne.
Qed.

Ltac at_entry Hi j :=
  let H := fresh "Hcase" in
  match goal with
  | Hj : <[_ := ?x]> _ !! j = Some _ |- _ =>
      destruct (lookup_insert_store _ _ j _ x Hi) as [[H ->]|[? H]];
      rewrite H in Hj; simplify_eq/=
  end.

Lemma tail_of_stopped c del tail :
  tail_of c del tail → del = true → Stopped (hostname (info c)) ∈ tail.
Proof.
  unfold tail_of. intros Ht ->.
  repeat case_match; subst; try done; destruct_and?; simplify_eq; set_solver.
Qed.

Lemma tail_of_started c del tail h p :
  tail_of c del tail → Started h p ∈ tail →
  del = false ∧ h = hostname (info c) ∧ p = port (info c).
Proof.
  unfold tail_of. intros Ht Hin.
  repeat case_match; subst; try done; destruct_and?; elems; done.
Qed.

Lemma apply_local_core i c c' del tail st :
  Core config st → store st !! i = Some c → LocalStep config i c c' del tail →
  Core config (apply_local i c c' del tail st).
Proof.
  intros HC Hi HL. destruct HL as [Lwf Lev Llive Ldel Ltail Lstart Lfol Lspawn Lhalt].
  destruct Lev as (Eh & Ep & Es & Er & Esp & El & Et).
  split; unfold apply_local; simpl.
  - rewrite length_insert. apply HC.
  - intros j cj Hj. at_entry Hi j.
    + apply Lwf. by eapply core_wf.
    + by eapply core_wf.
  - rewrite (core_tasks _ _ HC). done.
  - intros k j Hk.
    assert (servers st !! k = Some j ∧ (del = true → k ≠ hostname (info c))) as [Hk' Hne].
    { destruct del; [|done].
      apply lookup_delete_Some in Hk as [? ?]. split; [done|]. by intros _. }
    destruct (core_live _ _ HC _ _ Hk') as (cj & Hj & Hh & Hlive).
    destruct (decide (j = i)) as [->|Hji].
    + simplify_eq. exists c'.
      split; [apply list_lookup_insert_eq; by eapply lookup_lt_Some|].
      split; [done|].
      rewrite Llive. destruct del; [|done]. by destruct Hne.
    + exists cj. by rewrite list_lookup_insert_ne.
  - intros h p Hin. apply elem_of_app in Hin as [Hin|Hin].
    + destruct (core_started _ _ HC _ _ Hin) as (j & cj & Hj & Hh & Hp & Hr).
      destruct (decide (j = i)) as [->|Hne].
      * simplify_eq. exists i, c'. split.
        { apply list_lookup_insert_eq. by eapply lookup_lt_Some. }
        repeat split; try congruence. rewrite Er; [done|]. by rewrite Hr.
      * exists j, cj. split; [by rewrite list_lookup_insert_ne|done].
    + destruct (tail_of_started _ _ _ _ _ Ltail Hin) as (_ & -> & ->).
      exists i, c'. split.
      { apply list_lookup_insert_eq. by eapply lookup_lt_Some. }
      repeat split; try done. eapply Lstart; [by eapply core_wf|done].
  - intros j cj Hj Hlive. apply elem_of_app. at_entry Hi j.
    + rewrite Eh. destruct del.
      * right. by apply tail_of_stopped with true.
      * left. rewrite <- Eh. rewrite Llive in Hlive.
        rewrite Eh. by eapply core_stopped.
    + left. by eapply core_stopped.
  - intros j t Hj. destruct (core_shutdown _ _ HC _ _ Hj) as (ct & Ht & Htd).
    destruct (decide (t = i)) as [->|Hne].
    + simplify_eq. exists c'. split; [|by apply Et].
      apply list_lookup_insert_eq. by eapply lookup_lt_Some.
    + exists ct. split; [by rewrite list_lookup_insert_ne|done].
  - intros Hlim. pose proof (core_bounded _ _ HC Hlim) as Hb.
    destruct del; [|done].
    destruct (servers st !! hostname (info c)) eqn:E.
    + rewrite map_size_delete_Some by eauto. lia.
    + rewrite map_size_delete_None by done. lia.
Qed.

Lemma apply_local_provide i c c' del tail st :
  Inv config st → store st !! i = Some c → LocalStep config i c c' del tail →
  Provide (apply_local i c c' del tail st).
Proof.
  intros [HC HP] Hi HL. destruct HL as [Lwf Lev Llive Ldel Ltail Lstart Lfol Lspawn Lhalt].
  destruct Lev as (Eh & Ep & Es & Er & Esp & El & Et).
  split; unfold apply_local; simpl.
  - intros j cj Hj. at_entry Hi j.
    + apply Lfol; [by eapply core_wf|by eapply prov_follows].
    + by eapply prov_follows.
  - intros j cj Hj Hlive. at_entry Hi j.
    + rewrite Llive in Hlive. destruct del; [done|].
      rewrite Eh. by eapply prov_back.
    + pose proof (prov_back _ HP _ _ Hj Hlive) as Hb.
      destruct del; [|done].
      rewrite lookup_delete_ne; [done|]. intros Heq.
      pose proof (prov_back _ HP _ _ Hi (Ldel eq_refl)) as Hb'.
      rewrite Heq in Hb'. congruence.
  - apply HP.
  - apply HP.
  - intros j h cs p Hj Hp.
    destruct (prov_ref _ HP _ _ _ _ Hj Hp) as (cp & Hcp & Hh).
    destruct (decide (p = i)) as [->|Hne].
    + simplify_eq. exists c'. split; [|done].
      apply list_lookup_insert_eq. by eapply lookup_lt_Some.
    + exists cp. split; [by rewrite list_lookup_insert_ne|done].
  - apply HP.
  - intros j cj Hj Hsp. at_entry Hi j.
    + rewrite Eh. eapply prov_spawn; eauto.
    + eapply prov_spawn; eauto.
  - intros h p j Hp Hs. eapply prov_same; [done..|].
    destruct del; [|done]. by apply lookup_delete_Some in Hs as [_ ?].
Qed.


Lemma is_local_inv st st' : Inv config st → is_local config st st' → Inv config st'.
Proof.
  intros HI [->|(i & c & c' & del & tail & Hi & HL & ->)]; [done|].
  split; [apply apply_local_core; [apply HI|done..]|by apply apply_local_provide].
Qed.


(** Changes of [calls], [shutdowns] and [pendingCreations] do not touch
    the core invariant, as long as no returned shutdown is added. *)
Lemma core_frame st st' :
  Core config st →
  servers st' = servers st → serverTasks st' = serverTasks st →
  nextPort st' = nextPort st → store st' = store st →
  (∀ e, e ∈ events st → e ∈ events st') →
  (∀ h p, Started h p ∈ events st' → Started h p ∈ events st) →
  (∀ j t, shutdowns st' !! j = Some (ShutdownReturned (Some t)) →
          ∃ c, store st !! t = Some c ∧ torn_down c = true) →
  Core config st'.
Proof.
  intros HC Hs Ht Hn Hst He He' Hsh.
  split; rewrite ?Hs, ?Ht, ?Hn, ?Hst; try apply HC.
  - intros h p Hin. apply (core_started _ _ HC). by apply He'.
  - intros i c Hi Hl. apply He. by eapply core_stopped.
  - done.
Qed.

Lemma core_push_call st h cs : Core config st → Core config (push_call h cs st).
Proof.
  intros HC. eapply core_frame; eauto. apply HC.
Qed.

Lemma existing_ready_Some st h i :
  existing_ready st h = Some i →
  ∃ c, servers st !! h = Some i ∧ store st !! i = Some c ∧ is_Some (server (info c)).
Proof.
  unfold existing_ready. intros H.
  destruct (servers st !! h) as [i'|] eqn:Hs; simplify_eq/=.
  destruct (store st !! i') as [c|] eqn:Hc; simplify_eq/=.
  destruct (server (info c)) eqn:Hv; simplify_eq/=. eauto.
Qed.

Lemma existing_ready_None st h i c :
  existing_ready st h = None → servers st !! h = Some i → store st !! i = Some c →
  server (info c) = None.
Proof.
  unfold existing_ready. intros H Hs Hc. rewrite Hs in H. simpl in H.
  rewrite Hc in H. simpl in H. by destruct (server (info c)).
Qed.

Lemma starting_pending st i c :
  Inv config st → store st !! i = Some c → lifecycle c = Starting →
  pendingCreations st !! hostname (info c) = Some i.
Proof.
  intros [HC HP] Hi Hl.
  pose proof (core_wf _ _ HC _ _ Hi) as Hwf.
  pose proof (prov_follows _ HP _ _ Hi) as Hf.
  unfold wf in Hwf. rewrite Hl in Hwf. destruct Hwf as (_ & Hr & _).
  assert (spawnPromise c = Pending) as Hsp by (destruct Hf; congruence).
  destruct (prov_spawn _ HP _ _ Hi Hsp) as (j & Hj).
  by eapply prov_call.
Qed.

Lemma no_live_on_create st h i c :
  Inv config st → existing_ready st h = None → pendingCreations st !! h = None →
  store st !! i = Some c → live c = true → hostname (info c) ≠ h.
Proof.
  intros HI Hex Hpe Hi Hlive <-.
  pose proof (prov_back _ (inv_provide _ _ HI) _ _ Hi Hlive) as Hs.
  pose proof (existing_ready_None _ _ _ _ Hex Hs Hi) as Hnone.
  pose proof (core_wf _ _ (inv_core _ _ HI) _ _ Hi) as Hwf.
  assert (lifecycle c = Starting) as Hl.
  { unfold wf in Hwf. unfold live in Hlive.
    destruct (lifecycle c); try done; destruct Hwf as (_ & _ & ? & _); congruence. }
  pose proof (starting_pending _ _ _ HI Hi Hl). congruence.
Qed.

Lemma getOrCreate_core h st : Core config st → Core config (getOrCreate config h st).
Proof.
  intros HC. unfold getOrCreate.
  destruct (existing_ready st h) as [i|] eqn:Hex; [by apply core_push_call|].
  destruct (pendingCreations st !! h) as [p|] eqn:Hpe; [by apply core_push_call|].
  destruct (limit config <=? Z.of_nat (size (servers st)))%Z eqn:Hlim.
  { eapply core_frame; try done; simpl.
    - intros e He. apply elem_of_app. by left.
    - intros h' p' [?|?%list_elem_of_singleton]%elem_of_app; done.
    - apply HC. }
  apply Z.leb_gt in Hlim.
  set (n := length (store st)).
  set (c0 := mkCreation (mkInfo h (nextPort st) None (Some n)) Pending Starting
                        Pending Binding).
  split; unfold push_call, doSpawnServer; simpl; fold n; fold c0.
  - rewrite length_app. simpl. rewrite (core_next _ _ HC). fold n. lia.
  - intros j cj [[_ Hj]|[-> <-]]%lookup_snoc_Some; [by eapply core_wf|].
    unfold wf; simpl. rewrite (core_next _ _ HC). by repeat split.
  - by rewrite (core_tasks _ _ HC).
  - intros k j Hk. apply lookup_insert_Some in Hk as [[<- <-]|[Hne Hk]].
    + exists c0. split; [|done]. by apply list_lookup_middle.
    + destruct (core_live _ _ HC _ _ Hk) as (cj & Hj & ? & ?).
      exists cj. split; [by apply lookup_app_l_Some|done].
  - intros h' p' Hin. destruct (core_started _ _ HC _ _ Hin) as (j & cj & Hj & ?).
    exists j, cj. split; [by apply lookup_app_l_Some|done].
  - intros j cj [[_ Hj]|[-> <-]]%lookup_snoc_Some Hl; [by eapply core_stopped|done].
  - intros j t Hj. destruct (core_shutdown _ _ HC _ _ Hj) as (ct & Ht & ?).
    exists ct. split; [by apply lookup_app_l_Some|done].
  - intros _. pose proof (map_size_insert h n (servers st)) as Hsz.
    destruct (servers st !! h); simpl in Hsz; lia.
Qed.

Lemma push_call_provide st h cs :
  Provide st →
  (∀ p, call_ref cs = Some p → ∃ c, store st !! p = Some c ∧ hostname (info c) = h) →
  (∀ p, cs ≠ AwaitingSpawn p) →
  Provide (push_call h cs st).
Proof.
  intros HP Href Hcs.
  split; unfold push_call; simpl; try apply HP.
  - intros j h' p [[_ Hj]|[_ ?]]%lookup_snoc_Some; [by eapply prov_call|].
    simplify_eq. by destruct (Hcs p).
  - intros h' p Hp. destruct (prov_entry _ HP _ _ Hp) as (j & Hj).
    exists j. by apply lookup_app_l_Some.
  - intros j h' cs' p [[_ Hj]|[_ ?]]%lookup_snoc_Some Hr; [by eapply prov_ref|].
    simplify_eq. by apply Href.
  - intros j1 j2 h1 h2 p [[_ H1]|[_ ?]]%lookup_snoc_Some
      [[_ H2]|[_ ?]]%lookup_snoc_Some; simplify_eq.
    + by eapply prov_unique.
    + by destruct (Hcs p).
    + by destruct (Hcs p).
    + by destruct (Hcs p).
  - intros j cj Hj Hsp. destruct (prov_spawn _ HP _ _ Hj Hsp) as (j' & Hj').
    exists j'. by apply lookup_app_l_Some.
Qed.

Lemma getOrCreate_inv h st : Inv config st → Inv config (getOrCreate config h st).
Proof.
  intros HI. split; [by apply getOrCreate_core, HI|].
  pose proof HI as [HC HP]. unfold getOrCreate.
  destruct (existing_ready st h) as [i|] eqn:Hex.
  { apply existing_ready_Some in Hex as (c & Hs & Hc & Hv).
    apply push_call_provide; [done| |done].
    intros p [= <-]. destruct (core_live _ _ HC _ _ Hs) as (c' & ? & ? & _).
    simplify_eq. eauto. }
  destruct (pendingCreations st !! h) as [p|] eqn:Hpe.
  { apply push_call_provide; [done| |done].
    intros p' [= <-]. destruct (prov_entry _ HP _ _ Hpe) as (j' & Hj').
    by eapply (prov_ref _ HP j'). }
  destruct (limit config <=? Z.of_nat (size (servers st)))%Z eqn:Hlim.
  { apply push_call_provide; [|done|done]. split; simpl; apply HP. }
  apply Z.leb_gt in Hlim.
  set (n := length (store st)).
  set (c0 := mkCreation (mkInfo h (nextPort st) None (Some n)) Pending Starting
                        Pending Binding).
  split; unfold push_call, doSpawnServer; simpl; fold n; fold c0.
  - intros j cj [[_ Hj]|[-> <-]]%lookup_snoc_Some; [by eapply prov_follows|by left].
  - intros j cj [[_ Hj]|[-> <-]]%lookup_snoc_Some Hl; simpl.
    + rewrite lookup_insert_ne; [by eapply prov_back|].
      intros Heq. by eapply (no_live_on_create st h j cj).
    + by rewrite lookup_insert_eq.
  - intros j h' p' [[_ Hj]|[_ ?]]%lookup_snoc_Some; simplify_eq/=.
    + rewrite lookup_insert_ne; [by eapply prov_call|].
      intros <-. pose proof (prov_call _ HP _ _ _ Hj). congruence.
    + by rewrite lookup_insert_eq.
  - intros h' p' [[<- <-]|[Hne Hp]]%lookup_insert_Some.
    + exists (length (calls st)). by apply list_lookup_middle.
    + destruct (prov_entry _ HP _ _ Hp) as (j & Hj).
      exists j. by apply lookup_app_l_Some.
  - intros j h' cs p' [[_ Hj]|[_ ?]]%lookup_snoc_Some Hr; simplify_eq/=.
    + destruct (prov_ref _ HP _ _ _ _ Hj Hr) as (cp & ? & ?).
      exists cp. split; [by apply lookup_app_l_Some|done].
    + exists c0. split; [by apply list_lookup_middle|done].
  - intros j1 j2 h1 h2 p' [[_ H1]|[-> ?]]%lookup_snoc_Some
      [[_ H2]|[-> ?]]%lookup_snoc_Some; simplify_eq/=; try done.
    + by eapply prov_unique.
    + destruct (prov_ref _ HP _ _ _ _ H1 eq_refl) as (cp & Hcp & _).
      apply lookup_lt_Some in Hcp. lia.
    + destruct (prov_ref _ HP _ _ _ _ H2 eq_refl) as (cp & Hcp & _).
      apply lookup_lt_Some in Hcp. lia.
  - intros j cj [[_ Hj]|[-> <-]]%lookup_snoc_Some Hsp; simpl.
    + destruct (prov_spawn _ HP _ _ Hj Hsp) as (j' & Hj').
      exists j'. by apply lookup_app_l_Some.
    + exists (length (calls st)). by apply list_lookup_middle.
  - intros h' p' j [[<- <-]|[Hne Hp]]%lookup_insert_Some Hs.
    + rewrite lookup_insert_eq in Hs. congruence.
    + rewrite lookup_insert_ne in Hs by done. by eapply prov_same.
Qed.

Lemma await_resumes_inv j st : Inv config st → Inv config (await_resumes j st).
Proof.
  intros HI. pose proof HI as [HC HP]. unfold await_resumes.
  destruct (calls st !! j) as [[h [| |p|]]|] eqn:Hj; try done.
  destruct (store st !! p) as [c|] eqn:Hp; try done.
  destruct (is_settled (spawnPromise c)) eqn:Hs; try done.
  split; [eapply core_frame; eauto; apply HC|].
  split; simpl; try apply HP.
  - intros j' h' p' Hj'.
    destruct (decide (j' = j)) as [->|Hne].
    { rewrite list_lookup_insert_eq in Hj' by (by eapply lookup_lt_Some). done. }
    rewrite list_lookup_insert_ne in Hj' by done.
    rewrite lookup_delete_ne; [by eapply prov_call|].
    intros <-. pose proof (prov_call _ HP _ _ _ Hj). pose proof (prov_call _ HP _ _ _ Hj').
    simplify_eq. apply Hne. by eapply prov_unique.
  - intros h' p' [Hne Hpe]%lookup_delete_Some.
    destruct (prov_entry _ HP _ _ Hpe) as (j' & Hj').
    exists j'. rewrite list_lookup_insert_ne; [done|]. intros <-. congruence.
  - intros j' h' cs p' Hj' Hr.
    destruct (decide (j' = j)) as [->|Hne].
    + rewrite list_lookup_insert_eq in Hj' by (by eapply lookup_lt_Some).
      simplify_eq/=. by eapply (prov_ref _ HP j).
    + rewrite list_lookup_insert_ne in Hj' by done. by eapply prov_ref.
  - intros j1 j2 h1 h2 p' H1 H2.
    destruct (decide (j1 = j)) as [->|Hne1].
    { rewrite list_lookup_insert_eq in H1 by (by eapply lookup_lt_Some). done. }
    destruct (decide (j2 = j)) as [->|Hne2].
    { rewrite list_lookup_insert_eq in H2 by (by eapply lookup_lt_Some). done. }
    rewrite list_lookup_insert_ne in H1, H2 by done. by eapply prov_unique.
  - intros i ci Hi Hsp. destruct (prov_spawn _ HP _ _ Hi Hsp) as (j' & Hj').
    exists j'. rewrite list_lookup_insert_ne; [done|].
    intros <-. simplify_eq. by rewrite Hsp in Hs.
  - intros h' p' i [Hne Hpe]%lookup_delete_Some Hsv. by eapply prov_same.
Qed.

Lemma with_shutdowns_inv f st :
  Inv config st →
  (∀ j t, f (shutdowns st) !! j = Some (ShutdownReturned (Some t)) →
          ∃ c, store st !! t = Some c ∧ torn_down c = true) →
  Inv config (with_shutdowns f st).
Proof.
  intros [HC HP] Hf. split.
  - eapply core_frame; eauto.
  - split; simpl; apply HP.
Qed.

Lemma shutdown_resumes_inv j st : Inv config st → Inv config (shutdown_resumes j st).
Proof.
  intros HI. unfold shutdown_resumes.
  destruct (shutdowns st !! j) as [[t|]|] eqn:Hj; try done.
  destruct (store st !! t) as [c|] eqn:Ht; try done.
  destruct (torn_down c) eqn:Htd; try done.
  apply with_shutdowns_inv; [done|].
  intros j' t' Hj'. destruct (decide (j' = j)) as [->|Hne].
  - rewrite list_lookup_insert_eq in Hj' by (by eapply lookup_lt_Some).
    simplify_eq. eauto.
  - rewrite list_lookup_insert_ne in Hj' by done.
    by eapply core_shutdown, Hj'; apply HI.
Qed.

Lemma shutdown_inv h st : Inv config st → Inv config (shutdown h st).
Proof.
  intros HI. unfold shutdown.
  destruct (serverTasks st !! h) as [t|] eqn:Ht.
  - assert (Inv config (halt t st)) as HI' by (by eapply is_local_inv, halt_local).
    apply with_shutdowns_inv; [done|].
    intros j t' [[_ Hj]|[_ ?]]%lookup_snoc_Some; [|done].
    by eapply core_shutdown; [apply HI'|].
  - apply with_shutdowns_inv; [done|].
    intros j t' [[_ Hj]|[_ ?]]%lookup_snoc_Some; [|done].
    by eapply core_shutdown; [apply HI|].
Qed.

Lemma step_inv l st : Inv config st → Inv config (step config l st).
Proof.
  intros HI. destruct l; simpl.
  - by apply getOrCreate_inv.
  - by eapply is_local_inv, on_listening_local.
  - by eapply is_local_inv, on_listen_error_local.
  - by eapply is_local_inv, spawn_settles_local.
  - by apply await_resumes_inv.
  - by apply shutdown_inv.
  - by apply shutdown_resumes_inv.
  - by eapply is_local_inv, server_died_local.
  - by eapply is_local_inv, task_finally_local.
  - by eapply is_local_inv, resource_closes_local.
  - by eapply is_local_inv, close_emitted_local.
Qed.

Lemma init_inv : Inv config (init config).
Proof.
  split; split; unfold init; simpl; try done.
  all: try lia.
  intros h p Hin. by apply elem_of_nil in Hin.
Qed.

Lemma exec_inv ls st : Inv config st → Inv config (exec config ls st).
Proof.
  revert st. induction ls as [|l ls IH]; intros st HI; simpl; [done|].
  by apply IH, step_inv.
Qed.

Lemma reachable_inv ls : Inv config (exec config ls (init config)).
Proof. apply exec_inv, init_inv. Qed.

(** *** Calls *)


(** *** Leaving the pool *)





(** *** Capacity *)

(** C3, amended: at capacity, a [getOrCreate] for a key without record and
    without pending creation is rejected in its first segment with the
    capacity error; no record and no pending entry is created, no port is
    consumed and the registry is unchanged; one error event for the key is
    sent. *)
Theorem capacity_rejection (st : State) (h : string) :
  servers st !! h = None → pendingCreations st !! h = None →
  (limit config ≤ Z.of_nat (size (servers st)))%Z →
  let st' := getOrCreate config h st in
  let e := MaxServersReached (limit config) in
  calls st' = calls st ++ [mkCall h (Returned (Threw e))] ∧
  call_result st' (mkCall h (Returned (Threw e))) = Some (Threw e) ∧
  servers st' = servers st ∧ serverTasks st' = serverTasks st ∧
  pendingCreations st' = pendingCreations st ∧ store st' = store st ∧
  nextPort st' = nextPort st ∧
  events st' = events st ++ [ErrorEvent h e].
Proof.
  intros Hs Hp Hlim st' e. unfold st', getOrCreate, existing_ready.
  rewrite Hs, Hp. simpl.
  apply Z.leb_le in Hlim. rewrite Hlim. by repeat split.
Qed.

(** *** The placeholder record *)

Lemma list_running_spec st i :
  i ∈ list_running st →
  ∃ h c, servers st !! h = Some i ∧ store st !! i = Some c ∧ is_Some (server (info c)).
Proof.
  unfold list_running. intros [Hr Hin]%list_elem_of_filter.
  apply list_elem_of_fmap in Hin as ([h i'] & -> & Hin).
  apply elem_of_map_to_list in Hin. simpl in *.
  unfold server_not_null in Hr.
  destruct (store st !! i') as [c|]; [|done].
  destruct (server (info c)) eqn:Hs; [|done].
  exists h, c. rewrite Hs. eauto.
Qed.


End PoolFacts.

(** ** Proxy failures *)

Section RouterFacts.

Import Switchboard Pool Router.

(** C9, amended: when a forward to a ready backend fails, the callback of
    [proxy.web] (and the handler of the proxy's ['error'] event alike)
    leaves the pool as it is: the record stays registered and ready, and no
    event is sent; it answers with status 502 and a Bad Gateway body when
    no headers were sent yet, and leaves the response as it is
    otherwise. *)
Theorem proxy_failure_leaves_pool (sys : System) (x : nat) (e : Exchange)
    (message : string) :
  exchanges sys !! x = Some e → forwarding_to_ready sys x →
  ∀ sys',
    sys' = proxy_web_failed x message sys ∨ sys' = proxy_on_error x message sys →
    pool sys' = pool sys ∧
    events (pool sys') = events (pool sys) ∧
    forwarding_to_ready sys' x ∧
    ∃ e', exchanges sys' !! x = Some e' ∧ target e' = target e ∧ call e' = call e ∧
          (headersSent (response e) = false →
           headersSent (response e') = true ∧ statusCode (response e') = 502%Z ∧
           ∃ text, body (response e') = Some ("Bad Gateway", text)) ∧
          (headersSent (response e) = true → response e' = response e).
Proof.
  intros He (e0 & c & i & b & He0 & Hc & Hr & Hb & Hs & Hv) sys' Hsys'.
  simplify_eq.
  assert (pool sys' = pool sys) as Hpool by (by destruct Hsys' as [-> | ->]).
  assert (∃ e', exchanges sys' !! x = Some e' ∧ target e' = target e ∧
                call e' = call e ∧
                (headersSent (response e) = false →
                 headersSent (response e') = true ∧
                 statusCode (response e') = 502%Z ∧
                 ∃ text, body (response e') = Some ("Bad Gateway", text)) ∧
                (headersSent (response e) = true → response e' = response e))
    as (e' & He' & Ht & Hcall & Hans).
  { destruct Hsys' as [-> | ->]; unfold proxy_web_failed, proxy_on_error; simpl;
      rewrite list_lookup_alter_eq, He; simpl; eexists; (split; [done|]);
      simpl; destruct (headersSent (response e)); simpl; repeat split; eauto; done. }
  split; [done|]. split; [by rewrite Hpool|]. split.
  - exists e', c, i, b. rewrite Hpool, Ht, Hcall. by repeat split.
  - exists e'. tauto.
Qed.

End RouterFacts.

(** ** The properties on concrete runs *)

Import Pool Invariant Scenario.

(** C3, the claim as stated fails: the rejected call sends an error event,
    which the subscribers of [pool.events] observe. *)
Lemma capacity_rejection_sends_event :
  let st := exec single [GetOrCreate "a"] (init single) in
  servers st !! "b" = None ∧ pendingCreations st !! "b" = None ∧
  (Z.of_nat (size (servers st)) = limit single) ∧
  events (getOrCreate single "b" st) ≠ events st.
Proof. vm_compute. by repeat split. Qed.

Lemma capacity_rejection_witness :
  let st := exec single [GetOrCreate "a"] (init single) in
  servers st !! "b" = None ∧ pendingCreations st !! "b" = None ∧
  (limit single ≤ Z.of_nat (size (servers st)))%Z ∧
  servers (getOrCreate single "b" st) = servers st ∧
  nextPort (getOrCreate single "b" st) = nextPort st.
Proof.
  intros st.
  assert (servers st !! "b" = None) as H1 by (vm_compute; reflexivity).
  assert (pendingCreations st !! "b" = None) as H2 by (vm_compute; reflexivity).
  assert (limit single ≤ Z.of_nat (size (servers st)))%Z as H3
    by (vm_compute; discriminate).
  split; [exact H1|]. split; [exact H2|]. split; [exact H3|].
  pose proof (capacity_rejection single st "b" H1 H2 H3) as H.
  split; apply H.
Defined.


(** C9, the claim as stated fails: when http-proxy has written the head of
    the backend's answer before the forward fails, the callback leaves the
    response alone, and the client does not get a 502. *)
Lemma proxy_failure_after_headers : ¬ Router.proxy_failure_answers_502.
Proof.
  intros H.
  specialize (H forward_breaks_midway 0 "socket hang up"
                (Router.mkExchange "app-a" 0 (Router.mkResponse true 200 None))).
  assert (Router.forwarding_to_ready forward_breaks_midway 0) as Hready.
  { exists (Router.mkExchange "app-a" 0 (Router.mkResponse true 200 None)),
      (mkCall "app-a" (Resumed 0)), 0,
      (mkCreation (mkInfo "app-a" 3001 (Some 0) (Some 0)) Fulfilled Suspended
                  Fulfilled Listening).
    repeat split; try (vm_compute; reflexivity). by eexists. }
  specialize (H Hready eq_refl). discriminate H.
Qed.

Lemma proxy_failure_leaves_pool_witness :
  Router.exchanges forward_refused !! 0 =
    Some (Router.mkExchange "app-a" 0 Router.fresh_response) ∧
  Router.forwarding_to_ready forward_refused 0 ∧
  Router.pool (Router.proxy_web_failed 0 "ECONNREFUSED" forward_refused) =
    Router.pool forward_refused.
Proof.
  assert (Router.exchanges forward_refused !! 0 =
            Some (Router.mkExchange "app-a" 0 Router.fresh_response)) as H1
    by (vm_compute; reflexivity).
  assert (Router.forwarding_to_ready forward_refused 0) as H2.
  { exists (Router.mkExchange "app-a" 0 Router.fresh_response),
      (mkCall "app-a" (Resumed 0)), 0,
      (mkCreation (mkInfo "app-a" 3001 (Some 0) (Some 0)) Fulfilled Suspended
                  Fulfilled Listening).
    repeat split; try (vm_compute; reflexivity). by eexists. }
  split; [exact H1|]. split; [exact H2|].
  apply (proxy_failure_leaves_pool forward_refused 0 _ "ECONNREFUSED" H1 H2 _
           (or_introl eq_refl)).
Defined.

(** * Further properties *)

(** ** One step, seen from the registry *)

Section Views.

Import Pool Invariant Trace.

Variable config : ServerPoolConfig.

Ltac split_matches :=
  repeat match goal with
  | |- context [match ?x with _ => _ end] => destruct x eqn:?; simplify_eq/=
  | H : context [match ?x with _ => _ end] |- _ => destruct x eqn:?; simplify_eq/=
  end.

Ltac in_list :=
  repeat match goal with
  | H : _ ∈ [] |- _ => by apply elem_of_nil in H
  | H : _ ∈ _ :: _ |- _ => apply elem_of_cons in H as [?|?]; simplify_eq/=
  end.

Ltac open_creation :=
  repeat match goal with
  | c : Creation |- _ => destruct c as [[? ? ? ?] ? ? ? ?]
  end;
  unfold wf, evolves, follows, tail_of, live, torn_down, halted, settle, server_close,
    set_lifecycle, set_readyPromise, set_server, set_socket, set_spawnPromise in *;
  simpl in *; simplify_eq/=; split_matches.

Ltac solve_creation :=
  open_creation; intuition (in_list; try congruence; try lia; eauto).

Ltac solve_started :=
  open_creation; destruct_and?; simplify_eq/=;
  first [ left; by repeat split
        | right; left; split; [by (intros ? ? ?; in_list)|done]
        | right; right; split; [by (intros ? ? ?; in_list)|]; split; [done|];
          eexists; split; [done|congruence] ].

Ltac solve_spawn :=
  unfold is_settled in *; open_creation;
  first [ by left | right; split; [congruence|done] ].

Ltac norm_store c :=
  match goal with
  | H : store ?st !! ?i = Some c |- _ =>
      rewrite ?(alter_lookup_insert _ i (store st) c) by assumption;
      rewrite ?alter_insert_same by (eapply lookup_lt_Some; eassumption)
  end.

Ltac stays := apply Stays; [reflexivity..|by left|by left].

Ltac moves i c c' del tail :=
  apply (Moves config _ _ i c c' del tail);
  [ assumption
  | split;
    [ split; solve_creation
    | solve_creation
    | intros ?; solve_started
    | intros ?; solve_creation
    | solve_spawn ]
  | unfold update, finally_block, catch_block, emitEvent, with_store, with_servers,
      with_serverTasks, with_shutdowns; simpl; norm_store c; reflexivity
  | reflexivity
  | reflexivity
  | reflexivity
  | unfold update, finally_block, catch_block, emitEvent, with_store, with_servers,
      with_serverTasks, with_shutdowns; simpl;
    rewrite <- ?app_assoc; simpl; rewrite ?app_nil_r; reflexivity
  | reflexivity ].

Lemma on_listening_view i st : View config st (on_listening i st).
Proof.
  unfold on_listening.
  destruct (store st !! i) as [c|] eqn:Hc; [|stays].
  destruct (socket c) eqn:Hs; try stays.
  destruct (lifecycle c) as [| |f r t|] eqn:Hl.
  - moves i c (set_lifecycle Suspended
        (set_readyPromise (settle Fulfilled (readyPromise c))
           (set_server (Some i) (set_socket Listening c)))) false
      [Started (hostname (info c)) (port (info c))].
  - moves i c (set_socket Listening c) false (@nil ServerEvent).
  - moves i c (set_socket Listening c) false (@nil ServerEvent).
  - moves i c (set_socket Listening c) false (@nil ServerEvent).
Qed.

Lemma on_listen_error_view i m st : View config st (on_listen_error i m st).
Proof.
  unfold on_listen_error.
  destruct (store st !! i) as [c|] eqn:Hc; [|stays].
  destruct (socket c) eqn:Hs; try stays.
  destruct (lifecycle c) as [| |f r t|] eqn:Hl.
  - moves i c (set_lifecycle Finished
        (set_readyPromise (settle (Rejected (ListenError m)) (readyPromise c))
           (set_socket Failed c))) true
      [ErrorEvent (hostname (info c)) (ListenError m); Stopped (hostname (info c))].
  - moves i c (set_socket Failed c) false (@nil ServerEvent).
  - moves i c (set_socket Failed c) false (@nil ServerEvent).
  - moves i c (set_socket Failed c) false (@nil ServerEvent).
Qed.

Lemma spawn_settles_view i st : View config st (spawn_settles i st).
Proof.
  unfold spawn_settles.
  destruct (store st !! i) as [c|] eqn:Hc; [|stays].
  destruct (is_settled (readyPromise c)) eqn:Hs; [|stays].
  moves i c (set_spawnPromise (settle (readyPromise c) (spawnPromise c)) c)
    false (@nil ServerEvent).
Qed.

Lemma halt_view i st : View config st (halt i st).
Proof.
  unfold halt.
  destruct (store st !! i) as [c|] eqn:Hc; [|stays].
  destruct (lifecycle c) as [| |f r t|] eqn:Hl; try stays.
  - moves i c (set_lifecycle Finished c) true [Stopped (hostname (info c))].
  - moves i c (set_lifecycle (Halting false Provided None) c) false (@nil ServerEvent).
Qed.

Lemma server_died_view i cause caught st : View config st (server_died i cause caught st).
Proof.
  unfold server_died.
  destruct (store st !! i) as [c|] eqn:Hc; [|stays].
  destruct (lifecycle c) as [| |f r t|] eqn:Hl; try stays.
  destruct (socket c) eqn:Hs; try stays.
  moves i c
    (set_lifecycle
       (Halting false Provided
          (if caught then Some (ServerDaemonError (hostname (info c)) (port (info c)) cause)
           else None))
       (set_socket (match cause with Some _ => Listening | None => Closed end) c))
    false (@nil ServerEvent).
Qed.

Lemma task_finally_view i st : View config st (task_finally i st).
Proof.
  unfold task_finally.
  destruct (store st !! i) as [c|] eqn:Hc; [|stays].
  destruct (lifecycle c) as [| |[] r t|] eqn:Hl; try stays.
  destruct t as [e|].
  - moves i c
      (set_lifecycle (Halting true r (Some e))
         (set_readyPromise (settle (Rejected e) (readyPromise c)) c)) true
      [ErrorEvent (hostname (info c)) e; Stopped (hostname (info c))].
  - moves i c (set_lifecycle (Halting true r None) c) true
      [Stopped (hostname (info c))].
Qed.

Lemma resource_closes_view i st : View config st (resource_closes i st).
Proof.
  unfold resource_closes.
  destruct (store st !! i) as [c|] eqn:Hc; [|stays].
  destruct (lifecycle c) as [| |f [] t|] eqn:Hl; try stays.
  moves i c
    (set_lifecycle (Halting f AwaitingClose t) (set_socket (server_close (socket c)) c))
    false (@nil ServerEvent).
Qed.

Lemma close_emitted_view i st : View config st (close_emitted i st).
Proof.
  unfold close_emitted.
  destruct (store st !! i) as [c|] eqn:Hc; [|stays].
  destruct (socket c) eqn:Hs; try stays.
  moves i c
    (set_socket Closed
       (match lifecycle c with
        | Halting f AwaitingClose thrown => set_lifecycle (Halting f Released thrown) c
        | _ => c
        end))
    false (@nil ServerEvent).
Qed.

(** Changes of [shutdowns] are not seen in a view. *)
Lemma view_with_shutdowns f st st' :
  View config st st' → View config st (with_shutdowns f st').
Proof.
  intros [h|i c c' del tail|j h p c|]; [eapply Creates|eapply Moves|eapply Resumes|eapply Stays];
    simpl; eauto.
Qed.

Lemma shutdown_view h st : View config st (shutdown h st).
Proof.
  unfold shutdown. destruct (serverTasks st !! h) as [t|].
  - apply view_with_shutdowns, halt_view.
  - stays.
Qed.

Lemma shutdown_resumes_view j st : View config st (shutdown_resumes j st).
Proof.
  unfold shutdown_resumes.
  destruct (shutdowns st !! j) as [[t|t]|]; try stays.
  destruct (store st !! t) as [c|]; [|stays].
  destruct (torn_down c); stays.
Qed.

Lemma await_resumes_view j st : View config st (await_resumes j st).
Proof.
  unfold await_resumes.
  destruct (calls st !! j) as [[h [o|p|p|p]]|] eqn:Hj; try stays.
  destruct (store st !! p) as [c|] eqn:Hp; [|stays].
  destruct (is_settled (spawnPromise c)) eqn:Hs; [|stays].
  eapply (Resumes config _ _ j h p c); try done.
  by destruct (spawnPromise c).
Qed.

Lemma getOrCreate_view h st :
  Inv config st → View config st (getOrCreate config h st).
Proof.
  intros HI. unfold getOrCreate.
  destruct (existing_ready st h) as [i|] eqn:Hex.
  { apply Stays; try done; [by left|]. right. by exists h, (Returned (Resolved i)). }
  destruct (pendingCreations st !! h) as [p|] eqn:Hpe.
  { apply Stays; try done; [by left|]. right. by exists h, (ReturnedPending p). }
  assert (servers st !! h = None) as Hs.
  { destruct (servers st !! h) as [i|] eqn:Hs; [|done].
    destruct (core_live _ _ (inv_core _ _ HI) _ _ Hs) as (c & Hc & Hh & Hl).
    by destruct (no_live_on_create config st h i c). }
  destruct (limit config <=? Z.of_nat (size (servers st)))%Z eqn:Hlim.
  { apply Z.leb_le in Hlim.
    apply Stays; try done; [right; by exists h|].
    right. by exists h, (Returned (Threw (MaxServersReached (limit config)))). }
  apply Z.leb_gt in Hlim.
  by apply (Creates config _ _ h).
Qed.

Lemma step_view l st : Inv config st → View config st (step config l st).
Proof.
  intros HI. destruct l; simpl.
  - by apply getOrCreate_view.
  - apply on_listening_view.
  - apply on_listen_error_view.
  - apply spawn_settles_view.
  - apply await_resumes_view.
  - apply shutdown_view.
  - apply shutdown_resumes_view.
  - apply server_died_view.
  - apply task_finally_view.
  - apply resource_closes_view.
  - apply close_emitted_view.
Qed.

End Views.

(** ** Counting *)

Section Counting.

Import Pool Invariant Trace.

Variable config : ServerPoolConfig.

Lemma reachable_ind (Q : State → Prop) :
  Q (init config) →
  (∀ l st, Inv config st → Q st → Q (step config l st)) →
  ∀ ls, Q (exec config ls (init config)).
Proof.
  intros H0 Hstep ls.
  assert (∀ st, Inv config st → Q st → Q (exec config ls st)) as H.
  { induction ls as [|l ls IH]; intros st HI HQ; simpl; [done|].
    apply IH; [by apply step_inv|by apply Hstep]. }
  apply H; [apply init_inv|done].
Qed.

Lemma count_app {A} (f : A → bool) (l1 l2 : list A) :
  count f (l1 ++ l2) = count f l1 + count f l2.
Proof. unfold count. by rewrite List.filter_app, length_app. Qed.

Lemma count_insert {A} (f : A → bool) (l : list A) (i : nat) (x y : A) :
  l !! i = Some x →
  count f (<[i := y]> l) + Nat.b2n (f x) = count f l + Nat.b2n (f y).
Proof.
  unfold count. revert i. induction l as [|z l IH]; intros [|i] Hi; simplify_eq/=.
  - destruct (f x), (f y); simpl; lia.
  - specialize (IH _ Hi). destruct (f z); simpl; lia.
Qed.

Lemma count_zero {A} (f : A → bool) (l : list A) :
  (∀ x, x ∈ l → f x = false) → count f l = 0.
Proof.
  unfold count. induction l as [|z l IH]; intros H; simpl; [done|].
  rewrite (H z) by apply list_elem_of_here.
  apply IH. intros x Hx. apply H. by apply list_elem_of_further.
Qed.

Lemma count_pos {A} (f : A → bool) (l : list A) :
  (0 < count f l)%nat → ∃ x, x ∈ l ∧ f x = true.
Proof.
  unfold count. induction l as [|z l IH]; simpl; [lia|].
  destruct (f z) eqn:E.
  - intros _. exists z. split; [apply list_elem_of_here|done].
  - intros H. destruct (IH H) as (x & Hx & Hf).
    exists x. split; [by apply list_elem_of_further|done].
Qed.

Lemma count_le {A} (f g : A → bool) (l : list A) :
  (∀ x, x ∈ l → f x = true → g x = true) → (count f l ≤ count g l)%nat.
Proof.
  unfold count. induction l as [|z l IH]; intros H; simpl; [done|].
  assert (length (List.filter f l) ≤ length (List.filter g l))%nat as Hl.
  { apply IH. intros x Hx. apply H. by apply list_elem_of_further. }
  destruct (f z) eqn:E.
  - rewrite (H z) by (done || apply list_elem_of_here). simpl. lia.
  - destruct (g z); simpl; lia.
Qed.

Lemma count_split {A} (f g h : A → bool) (l : list A) :
  (∀ x, x ∈ l → f x = true → g x = true ∨ h x = true) →
  (count f l ≤ count g l + count h l)%nat.
Proof.
  unfold count. induction l as [|z l IH]; intros H; simpl; [done|].
  assert (length (List.filter f l) ≤
          length (List.filter g l) + length (List.filter h l))%nat as Hl.
  { apply IH. intros x Hx. apply H. by apply list_elem_of_further. }
  destruct (f z) eqn:E.
  - destruct (H z) as [Hg|Hh]; [apply list_elem_of_here|done| |].
    + rewrite Hg. destruct (h z); simpl; lia.
    + rewrite Hh. destruct (g z); simpl; lia.
  - destruct (g z), (h z); simpl; lia.
Qed.

Lemma count_unique {A} (f : A → bool) (l : list A) :
  (∀ i j x y, l !! i = Some x → l !! j = Some y → f x = true → f y = true → i = j) →
  (count f l ≤ 1)%nat.
Proof.
  unfold count. induction l as [|z l IH]; intros H; simpl; [lia|].
  destruct (f z) eqn:E.
  - simpl. fold (count f l). rewrite count_zero; [done|].
    intros x [i Hi]%list_elem_of_lookup.
    destruct (f x) eqn:Ex; [|done].
    by specialize (H 0 (S i) z x eq_refl Hi E Ex).
  - apply IH. intros i j x y Hi Hj Hx Hy.
    by specialize (H (S i) (S j) x y Hi Hj Hx Hy) as [= ->].
Qed.

Lemma tail_of_stops c del tail h :
  tail_of c del tail →
  count (is_stopped h) tail = Nat.b2n (del && bool_decide (hostname (info c) = h)).
Proof.
  unfold tail_of, count. intros Ht.
  repeat case_match; subst; try done; destruct_and?; simplify_eq/=; try done.
  - by destruct (bool_decide _).
  - by destruct (bool_decide _).
Qed.

Lemma no_started_count tail h :
  (∀ h' p, Started h' p ∉ tail) → count (is_started h) tail = 0.
Proof.
  intros H. apply count_zero. intros [h' p| |] Hin; simpl; try done.
  by destruct (H h' p).
Qed.

(** What the event log and the registry count. *)
Lemma step_counts l st :
  Inv config st →
  ((∀ h, count (is_started h) (events st) = count (ready_for h) (store st)) ∧
   (∀ h, count (is_stopped h) (events st) = count (ended_for h) (store st)) ∧
   size (servers st) = count live (store st)) →
  let st' := step config l st in
  (∀ h, count (is_started h) (events st') = count (ready_for h) (store st')) ∧
  (∀ h, count (is_stopped h) (events st') = count (ended_for h) (store st')) ∧
  size (servers st') = count live (store st').
Proof.
  intros HI (Hsta & Hsto & Hsz) st'.
  destruct (step_view config l st HI)
    as [h Hex Hpe Hs Hlim Hst Hsv Hpc Hn Hev Hca
       |i c c' del tail Hi HS Hst Hsv Hpc Hn Hev Hca
       |j h p c Hj Hp Hsp Hst Hsv Hpc Hn Hev Hca
       |Hst Hsv Hpc Hn Hev Hca]; fold st' in Hst, Hsv, Hev.
  - rewrite Hst, Hsv, Hev. repeat split.
    + intros h'. rewrite count_app, Hsta. unfold count at 3; simpl.
      unfold ready_for; simpl. rewrite andb_false_r. simpl. lia.
    + intros h'. rewrite count_app, Hsto. unfold count at 3; simpl.
      unfold ended_for; simpl. rewrite andb_false_r. simpl. lia.
    + rewrite count_app, map_size_insert, Hs, Hsz. unfold count at 3; simpl. lia.
  - destruct HS as [[Lwf Lev Llive Ldel Ltail Lstart Lfol Lspawn Lhalt] Stask Sstart Sfin Sspawn].
    destruct Lev as (Eh & Ep & Es & Er & Esp & El & Et).
    pose proof (core_wf _ _ (inv_core _ _ HI) _ _ Hi) as Hwf.
    rewrite Hst, Hev. repeat split.
    + intros h. rewrite count_app, Hsta.
      pose proof (count_insert (ready_for h) _ _ _ c' Hi) as Hins.
      assert (count (is_started h) tail + Nat.b2n (ready_for h c) =
              Nat.b2n (ready_for h c')) as Ht; [|lia].
      unfold ready_for. rewrite Eh.
      destruct (Sstart Hwf) as [(-> & Hr & Hr')|[(Hno & Hr)|(Hno & Hr & e & Hr' & _)]].
      * rewrite Hr, Hr'. unfold count; simpl.
        destruct (bool_decide _); simpl; lia.
      * rewrite no_started_count by done. by rewrite Hr.
      * rewrite no_started_count by done. rewrite Hr, Hr'.
        by rewrite andb_false_r.
    + intros h. rewrite count_app, Hsto.
      pose proof (count_insert (ended_for h) _ _ _ c' Hi) as Hins.
      assert (count (is_stopped h) tail + Nat.b2n (ended_for h c) =
              Nat.b2n (ended_for h c')) as Ht; [|lia].
      rewrite (tail_of_stops _ _ _ _ Ltail).
      unfold ended_for. rewrite Eh, Llive.
      destruct del; simpl.
      * rewrite (Ldel eq_refl). simpl. rewrite andb_false_r. simpl.
        by rewrite andb_true_r.
      * done.
    + pose proof (count_insert live _ _ _ c' Hi) as Hins.
      rewrite Hsv, Llive in *. destruct del; [|lia].
      rewrite (Ldel eq_refl) in Hins. simpl in Hins.
      rewrite map_size_delete_Some
        by (eexists; eapply (prov_back _ (inv_provide _ _ HI)); [done|by apply Ldel]).
      lia.
  - rewrite Hst, Hsv, Hev. done.
  - rewrite Hst, Hsv. repeat split; try done.
    + intros h. destruct Hev as [->|(h' & ->)]; [done|].
      rewrite count_app, Hsta. unfold count at 2; simpl. lia.
    + intros h. destruct Hev as [->|(h' & ->)]; [done|].
      rewrite count_app, Hsto. unfold count at 2; simpl. lia.
Qed.

Lemma reachable_counts ls :
  let st := exec config ls (init config) in
  (∀ h, count (is_started h) (events st) = count (ready_for h) (store st)) ∧
  (∀ h, count (is_stopped h) (events st) = count (ended_for h) (store st)) ∧
  size (servers st) = count live (store st).
Proof.
  apply (reachable_ind (λ st,
    (∀ h, count (is_started h) (events st) = count (ready_for h) (store st)) ∧
    (∀ h, count (is_stopped h) (events st) = count (ended_for h) (store st)) ∧
    size (servers st) = count live (store st))).
  - by repeat split.
  - intros l st HI HQ. by apply step_counts.
Qed.

End Counting.

(** ** More invariants of the pool *)

Section PoolMore.

Import Pool Invariant Trace.

Variable config : ServerPoolConfig.

Lemma lookup_insert_cases (l : list Creation) (i j : nat) (c x y : Creation) :
  l !! i = Some c → <[i := x]> l !! j = Some y →
  (j = i ∧ y = x) ∨ (j ≠ i ∧ l !! j = Some y).
Proof.
  intros Hi Hj. destruct (decide (j = i)) as [->|Hne].
  - left. rewrite list_lookup_insert_eq in Hj by (by eapply lookup_lt_Some).
    by simplify_eq.
  - right. by rewrite list_lookup_insert_ne in Hj.
Qed.

Lemma ready_of_server st i c :
  Core config st → store st !! i = Some c → is_Some (server (info c)) →
  readyPromise c = Fulfilled ∧ server (info c) = Some i ∧ lifecycle c ≠ Starting ∧
  lifecycle c ≠ Finished.
Proof.
  intros HC Hi [v Hv]. pose proof (core_wf _ _ HC _ _ Hi) as Hwf.
  unfold wf in Hwf. destruct Hwf as [_ Hwf].
  destruct (lifecycle c); destruct_and?; simplify_eq; by repeat split.
Qed.

Lemma reachable_more ls :
  let st := exec config ls (init config) in
  (∀ i c, store st !! i = Some c → task (info c) = Some i) ∧
  (∀ i c, store st !! i = Some c → readyPromise c = Fulfilled →
          Started (hostname (info c)) (port (info c)) ∈ events st) ∧
  (∀ j h i, calls st !! j = Some (mkCall h (Returned (Resolved i))) →
            ∃ c, store st !! i = Some c ∧ readyPromise c = Fulfilled) ∧
  (store st ≠ [] → (0 < limit config)%Z).
Proof.
  apply (reachable_ind config (λ st,
    (∀ i c, store st !! i = Some c → task (info c) = Some i) ∧
    (∀ i c, store st !! i = Some c → readyPromise c = Fulfilled →
            Started (hostname (info c)) (port (info c)) ∈ events st) ∧
    (∀ j h i, calls st !! j = Some (mkCall h (Returned (Resolved i))) →
              ∃ c, store st !! i = Some c ∧ readyPromise c = Fulfilled) ∧
    (store st ≠ [] → (0 < limit config)%Z))).
  { by repeat split. }
  intros l st HI (Htask & Hlog & Hret & Hpos).
  destruct (step_view config l st HI)
    as [h Hex Hpe Hs Hlim Hst Hsv Hpc Hn Hev Hca
       |i c c' del tail Hi HS Hst Hsv Hpc Hn Hev Hca
       |j h p c Hj Hp Hsp Hst Hsv Hpc Hn Hev Hca
       |Hst Hsv Hpc Hn Hev Hca];
    rewrite Hst; try rewrite Hev; try rewrite Hca.
  - repeat split.
    + intros i c [[_ Hi]|[-> <-]]%lookup_snoc_Some; [by eapply Htask|done].
    + intros i c [[_ Hi]|[-> <-]]%lookup_snoc_Some Hr; [by eapply Hlog|done].
    + intros j h' i [[_ Hj]|[_ ?]]%lookup_snoc_Some; [|done].
      destruct (Hret _ _ _ Hj) as (c & Hc & Hr).
      exists c. split; [by apply lookup_app_l_Some|done].
    + intros _. lia.
  - destruct HS as [[Lwf Lev Llive Ldel Ltail Lstart Lfol Lspawn Lhalt] Stask Sstart Sfin Sspawn].
    destruct Lev as (Eh & Ep & Es & Er & Esp & El & Et).
    pose proof (core_wf _ _ (inv_core _ _ HI) _ _ Hi) as Hwf.
    repeat split.
    + intros k ck Hk. destruct (lookup_insert_cases _ _ _ _ _ _ Hi Hk) as [[-> ->]|[_ Hk']].
      * rewrite Stask. by eapply Htask.
      * by eapply Htask.
    + intros k ck Hk Hr. apply elem_of_app.
      destruct (lookup_insert_cases _ _ _ _ _ _ Hi Hk) as [[-> ->]|[_ Hk']].
      * rewrite Eh, Ep.
        destruct (Sstart Hwf) as [(-> & _)|[(_ & Hr')|(_ & _ & e & Hr' & _)]].
        -- right. apply list_elem_of_here.
        -- left. eapply Hlog; [done|congruence].
        -- congruence.
      * left. by eapply Hlog.
    + intros j h i' Hj. destruct (Hret _ _ _ Hj) as (ck & Hk & Hr).
      destruct (decide (i' = i)) as [->|Hne].
      * exists c'. split; [apply list_lookup_insert_eq; by eapply lookup_lt_Some|].
        simplify_eq. rewrite Er; [done|congruence].
      * exists ck. by rewrite list_lookup_insert_ne.
    + rewrite <- Hst. intros Hne. apply Hpos. intros Hnil.
      apply Hne. rewrite Hst, Hnil. done.
  - repeat split; try done.
    intros j' h' i Hj'. apply (Hret j' h' i).
    destruct (decide (j' = j)) as [->|Hne].
    + rewrite list_lookup_insert_eq in Hj' by (by eapply lookup_lt_Some). done.
    + by rewrite list_lookup_insert_ne in Hj'.
  - repeat split; try done.
    + intros i c Hi Hr. destruct Hev as [->|(h' & ->)]; [by eapply Hlog|].
      apply elem_of_app. left. by eapply Hlog.
    + destruct Hca as [->|(h & cs & -> & Hcs)]; [done|].
      intros j h' i [[_ Hj]|[_ ?]]%lookup_snoc_Some; [by eapply Hret|].
      simplify_eq.
      destruct (existing_ready_Some _ _ _ Hcs) as (c & _ & Hc & Hv).
      exists c. split; [done|].
      by destruct (ready_of_server _ _ _ (inv_core _ _ HI) Hc Hv).
Qed.

Lemma reachable_core ls : Core config (exec config ls (init config)).
Proof. apply inv_core, reachable_inv. Qed.

Lemma reachable_provide ls : Provide (exec config ls (init config)).
Proof. apply (inv_provide config), reachable_inv. Qed.

Lemma servers_inj st h1 h2 i :
  Core config st → servers st !! h1 = Some i → servers st !! h2 = Some i → h1 = h2.
Proof.
  intros HC H1 H2.
  destruct (core_live _ _ HC _ _ H1) as (c1 & Hc1 & Hh1 & _).
  destruct (core_live _ _ HC _ _ H2) as (c2 & Hc2 & Hh2 & _).
  congruence.
Qed.

(** X1: the registry and the task map always hold the same entries; the record
    [get] returns for a hostname carries that hostname and its own task,
    and is registered under no other hostname. *)
Theorem registry_consistent (ls : list Label) :
  let st := exec config ls (init config) in
  serverTasks st = servers st ∧
  ∀ h i, get st h = Some i →
    (∃ r, deref st i = Some r ∧ hostname r = h ∧ task r = Some i) ∧
    (∀ h', get st h' = Some i → h' = h).
Proof.
  intros st. pose proof (reachable_core ls) as HC. fold st in HC.
  destruct (reachable_more ls) as (Htask & _). fold st in Htask.
  split; [apply HC|].
  intros h i Hg. unfold get in Hg.
  destruct (core_live _ _ HC _ _ Hg) as (c & Hc & Hh & Hl).
  unfold deref. rewrite Hc. simpl. split.
  - exists (info c). repeat split; try done. by eapply Htask.
  - intros h' Hg'. by eapply servers_inj.
Qed.

Lemma list_running_iff st i :
  i ∈ list_running st ↔ ∃ h, existing_ready st h = Some i.
Proof.
  split.
  - intros (h & c & Hs & Hc & [v Hv])%list_running_spec.
    exists h. unfold existing_ready. rewrite Hs. simpl. rewrite Hc. simpl.
    by rewrite Hv.
  - intros (h & (c & Hs & Hc & [v Hv])%existing_ready_Some).
    unfold list_running. apply list_elem_of_filter. split.
    + unfold server_not_null. by rewrite Hc, Hv.
    + apply list_elem_of_fmap. exists (h, i). split; [done|].
      by apply elem_of_map_to_list.
Qed.

Lemma list_running_NoDup st : Core config st → NoDup (list_running st).
Proof.
  intros HC. unfold list_running. apply NoDup_filter.
  apply NoDup_fmap_2_strong; [|apply NoDup_map_to_list].
  intros [h1 i1] [h2 i2] H1%elem_of_map_to_list H2%elem_of_map_to_list Heq.
  simpl in Heq. subst i2. f_equal. by eapply servers_inj.
Qed.

(** X2: [list] returns exactly the records the fast path of [getOrCreate]
    returns, each once; there are no more of them than registered records,
    and each is ready, past its start, and registered under its own
    hostname. *)
Theorem list_is_fast_path (ls : list Label) :
  let st := exec config ls (init config) in
  (∀ i, i ∈ list_running st ↔ ∃ h, existing_ready st h = Some i) ∧
  NoDup (list_running st) ∧
  (length (list_running st) ≤ size (servers st))%nat ∧
  ∀ i, i ∈ list_running st →
       ∃ c, store st !! i = Some c ∧ readyPromise c = Fulfilled ∧
            lifecycle c ≠ Starting ∧ get st (hostname (info c)) = Some i.
Proof.
  intros st. pose proof (reachable_core ls) as HC. fold st in HC.
  split; [apply list_running_iff|]. split; [|split].
  - by apply list_running_NoDup.
  - unfold list_running.
    etrans; [apply length_filter|]. by rewrite length_fmap, length_map_to_list.
  - intros i (h & c & Hs & Hc & Hv)%list_running_spec.
    destruct (ready_of_server _ _ _ HC Hc Hv) as (Hr & _ & Hl & _).
    exists c. repeat split; try done.
    destruct (core_live _ _ HC _ _ Hs) as (c' & Hc' & Hh & _).
    unfold get. by simplify_eq.
Qed.

Lemma NoDup_omap_inj {A B} (f : A → option B) (l : list A) :
  NoDup l →
  (∀ x y z, x ∈ l → y ∈ l → f x = Some z → f y = Some z → x = y) →
  NoDup (omap f l).
Proof.
  induction 1 as [|x l Hx Hl IH]; intros Hinj; simpl; [constructor|].
  assert (NoDup (omap f l)) as Hnd.
  { apply IH. intros a b z Ha Hb. apply Hinj; by apply list_elem_of_further. }
  destruct (f x) as [z|] eqn:Hfx; [|done].
  constructor; [|done].
  intros (y & Hy & Hfy)%list_elem_of_omap.
  assert (x = y) as ->; [|done].
  eapply Hinj; eauto using list_elem_of_here, list_elem_of_further.
Qed.

(** X3: the listing routes of the switchboard show exactly the hostnames for
    which [getOrCreate] returns at once, each with the port its creation
    was given; that pair was announced by a [started] event, and no
    hostname and no port is listed twice. *)
Theorem servers_route_lists_ready (ls : list Label) :
  let st := exec config ls (init config) in
  (∀ h p, (h, p) ∈ Handler.servers_route st ↔
          ∃ i, existing_ready st h = Some i ∧ p = (basePort config + Z.of_nat i)%Z) ∧
  (∀ h p, (h, p) ∈ Handler.servers_route st → Started h p ∈ events st) ∧
  NoDup (Handler.servers_route st).*1 ∧
  NoDup (Handler.servers_route st).*2.
Proof.
  intros st. pose proof (reachable_core ls) as HC. fold st in HC.
  destruct (reachable_more ls) as (_ & Hlog & _). fold st in Hlog.
  assert (∀ h p, (h, p) ∈ Handler.servers_route st ↔
            ∃ i c, servers st !! h = Some i ∧ store st !! i = Some c ∧
                   is_Some (server (info c)) ∧ hostname (info c) = h ∧
                   port (info c) = p) as Hspec.
  { intros h p. unfold Handler.servers_route. rewrite list_elem_of_omap. split.
    - intros (i & (h' & c & Hs & Hc & Hv)%list_running_spec & Hg).
      unfold deref in Hg. rewrite Hc in Hg. simpl in Hg. simplify_eq.
      destruct (core_live _ _ HC _ _ Hs) as (c' & Hc' & Hh & _). simplify_eq.
      by exists i, c.
    - intros (i & c & Hs & Hc & [v Hv] & Hh & Hp).
      exists i. split.
      + apply list_running_iff. exists h. unfold existing_ready.
        rewrite Hs. simpl. rewrite Hc. simpl. by rewrite Hv.
      + unfold deref. rewrite Hc. simpl. by rewrite Hh, Hp. }
  split; [|split; [|split]].
  - intros h p. rewrite Hspec. split.
    + intros (i & c & Hs & Hc & [v Hv] & Hh & Hp).
      exists i. split.
      * unfold existing_ready. rewrite Hs. simpl. rewrite Hc. simpl. by rewrite Hv.
      * rewrite <- Hp. apply (core_wf _ _ HC _ _ Hc).
    + intros (i & (c & Hs & Hc & Hv)%existing_ready_Some & ->).
      exists i, c. repeat split; try done.
      * destruct (core_live _ _ HC _ _ Hs) as (c' & Hc' & Hh & _). by simplify_eq.
      * apply (core_wf _ _ HC _ _ Hc).
  - intros h p (i & c & Hs & Hc & Hv & <- & <-)%Hspec.
    eapply Hlog; [done|]. by destruct (ready_of_server _ _ _ HC Hc Hv).
  - apply NoDup_fmap_2_strong.
    + intros [h1 p1] [h2 p2] (i1 & c1 & Hs1 & Hc1 & _ & _ & Hp1)%Hspec
        (i2 & c2 & Hs2 & Hc2 & _ & _ & Hp2)%Hspec Heq.
      simpl in Heq. by simplify_eq.
    + unfold Handler.servers_route. apply NoDup_omap_inj.
      * by apply list_running_NoDup.
      * intros i1 i2 [h p] _ _ H1 H2. unfold deref in *.
        destruct (store st !! i1) as [c1|] eqn:Hc1; simplify_eq/=.
        destruct (store st !! i2) as [c2|] eqn:Hc2; simplify_eq/=.
        pose proof (core_wf _ _ HC _ _ Hc1) as [Hp1 _].
        pose proof (core_wf _ _ HC _ _ Hc2) as [Hp2 _]. lia.
  - apply NoDup_fmap_2_strong.
    + intros [h1 p1] [h2 p2] (i1 & c1 & Hs1 & Hc1 & _ & Hh1 & Hp1)%Hspec
        (i2 & c2 & Hs2 & Hc2 & _ & Hh2 & Hp2)%Hspec Heq.
      simpl in Heq. subst p2.
      pose proof (core_wf _ _ HC _ _ Hc1) as [Hq1 _].
      pose proof (core_wf _ _ HC _ _ Hc2) as [Hq2 _].
      assert (i1 = i2) by lia. by simplify_eq.
    + unfold Handler.servers_route. apply NoDup_omap_inj.
      * by apply list_running_NoDup.
      * intros i1 i2 [h p] _ _ H1 H2. unfold deref in *.
        destruct (store st !! i1) as [c1|] eqn:Hc1; simplify_eq/=.
        destruct (store st !! i2) as [c2|] eqn:Hc2; simplify_eq/=.
        pose proof (core_wf _ _ HC _ _ Hc1) as [Hp1 _].
        pose proof (core_wf _ _ HC _ _ Hc2) as [Hp2 _]. lia.
Qed.

(** X4: for every hostname, the [started] events sent are as many as the
    creations whose server became ready, and the [stopped] events as many
    as the lifecycle tasks whose [finally] block ran: none is sent twice.
    There is at most one [started] more than [stopped], and none more when
    no record is registered for the hostname. *)
Theorem events_counted (ls : list Label) (h : string) :
  let st := exec config ls (init config) in
  count (is_started h) (events st) = count (ready_for h) (store st) ∧
  count (is_stopped h) (events st) = count (ended_for h) (store st) ∧
  (count (is_started h) (events st) ≤ count (is_stopped h) (events st) + 1)%nat ∧
  (get st h = None →
   (count (is_started h) (events st) ≤ count (is_stopped h) (events st))%nat).
Proof.
  intros st. destruct (reachable_counts config ls) as (Hsta & Hsto & _).
  fold st in Hsta, Hsto.
  pose proof (reachable_provide ls) as HP. fold st in HP.
  set (live_for := λ c : Creation, bool_decide (hostname (info c) = h) && live c).
  assert (count (ready_for h) (store st) ≤
          count (ended_for h) (store st) + count live_for (store st))%nat as Hsplit.
  { apply count_split. intros c _. unfold ready_for, ended_for, live_for.
    destruct (bool_decide _); simpl; [|done]. intros _.
    destruct (live c); auto. }
  split; [apply Hsta|]. split; [apply Hsto|]. rewrite Hsta, Hsto. split.
  - assert (count live_for (store st) ≤ 1)%nat; [|lia].
    apply count_unique. intros i j x y Hi Hj Hx Hy. unfold live_for in *.
    apply andb_true_iff in Hx as [Hx%bool_decide_eq_true Hlx].
    apply andb_true_iff in Hy as [Hy%bool_decide_eq_true Hly].
    pose proof (prov_back _ HP _ _ Hi Hlx) as Hsi.
    pose proof (prov_back _ HP _ _ Hj Hly) as Hsj. congruence.
  - intros Hg. assert (count live_for (store st) = 0)%nat as Hz; [|lia].
    apply count_zero. intros c [i Hi]%list_elem_of_lookup. unfold live_for.
    destruct (bool_decide _) eqn:Hb; simpl; [|done].
    apply bool_decide_eq_true in Hb.
    destruct (live c) eqn:Hl; [|done].
    pose proof (prov_back _ HP _ _ Hi Hl) as Hs. unfold get in Hg. congruence.
Qed.

(** X5: the size of the registry is the number of lifecycle tasks whose
    [finally] block has not run, whether the server is starting, running
    or closing; a new hostname is accepted exactly when that number is
    below [maxServers]. *)
Theorem admission_counts_live_tasks (ls : list Label) (h : string) :
  let st := exec config ls (init config) in
  size (servers st) = count live (store st) ∧
  (get st h = None → pendingCreations st !! h = None →
   (store (getOrCreate config h st) ≠ store st ↔
    (Z.of_nat (count live (store st)) < limit config)%Z)).
Proof.
  intros st. destruct (reachable_counts config ls) as (_ & _ & Hsz). fold st in Hsz.
  split; [done|]. intros Hg Hpe. rewrite <- Hsz.
  unfold getOrCreate, existing_ready. unfold get in Hg. rewrite Hg, Hpe. simpl.
  destruct (limit config <=? Z.of_nat (size (servers st)))%Z eqn:Hlim.
  - apply Z.leb_le in Hlim. simpl. split; [done|lia].
  - apply Z.leb_gt in Hlim. simpl. split; [done|]. intros _ Heq.
    apply (f_equal length) in Heq. rewrite length_app in Heq. simpl in Heq. lia.
Qed.

(** X6: a hostname has an entry in [pendingCreations] exactly while the
    invocation of [getOrCreate] that made it is at its [await]; there is
    one such invocation per hostname and per creation, and the entry names
    a creation for that hostname. *)
Theorem pending_iff_awaiting (ls : list Label) (h : string) (p : nat) :
  let st := exec config ls (init config) in
  (pendingCreations st !! h = Some p ↔
   ∃ j, calls st !! j = Some (mkCall h (AwaitingSpawn p))) ∧
  (∀ j1 j2 h' q, calls st !! j1 = Some (mkCall h (AwaitingSpawn p)) →
                 calls st !! j2 = Some (mkCall h' (AwaitingSpawn q)) →
                 h' = h ∨ q = p → j1 = j2) ∧
  (pendingCreations st !! h = Some p →
   ∃ c, store st !! p = Some c ∧ hostname (info c) = h).
Proof.
  intros st. pose proof (reachable_provide ls) as HP. fold st in HP.
  split; [|split].
  - split; [apply (prov_entry _ HP)|]. intros [j Hj]. by eapply prov_call.
  - intros j1 j2 h' q H1 H2 [Heq|Heq]; rewrite Heq in H2.
    + pose proof (prov_call _ HP _ _ _ H1). pose proof (prov_call _ HP _ _ _ H2).
      simplify_eq. by eapply prov_unique.
    + by eapply prov_unique.
  - intros [j Hj]%(prov_entry _ HP).
    destruct (prov_ref _ HP _ _ _ p Hj eq_refl) as (c & Hc & Hh).
    by exists c.
Qed.


(** X9: with [maxServers] zero or negative (zero is not replaced by the
    default) no server is ever created: every [getOrCreate] is rejected
    with the capacity error, the port counter stays at [basePort], and the
    only events are the error events of the rejections. *)
Theorem nonpositive_limit_creates_nothing (ls : list Label) :
  (limit config ≤ 0)%Z →
  let st := exec config ls (init config) in
  store st = [] ∧ servers st = ∅ ∧ pendingCreations st = ∅ ∧
  nextPort st = basePort config ∧
  (∀ k, k ∈ calls st →
        call_state k = Returned (Threw (MaxServersReached (limit config)))) ∧
  (∀ ev, ev ∈ events st → ∃ h, ev = ErrorEvent h (MaxServersReached (limit config))).
Proof.
  intros Hlim.
  apply (reachable_ind config (λ st,
    store st = [] ∧ servers st = ∅ ∧ pendingCreations st = ∅ ∧
    nextPort st = basePort config ∧
    (∀ k, k ∈ calls st →
          call_state k = Returned (Threw (MaxServersReached (limit config)))) ∧
    (∀ ev, ev ∈ events st → ∃ h, ev = ErrorEvent h (MaxServersReached (limit config))))).
  { repeat split; try done; intros ? H; by apply elem_of_nil in H. }
  intros l st HI (Hst0 & Hsv0 & Hpc0 & Hn0 & Hca0 & Hev0).
  destruct (step_view config l st HI)
    as [h Hex Hpe Hs Hlt Hst Hsv Hpc Hn Hev Hca
       |i c c' del tail Hi HS Hst Hsv Hpc Hn Hev Hca
       |j h p c Hj Hp Hsp Hst Hsv Hpc Hn Hev Hca
       |Hst Hsv Hpc Hn Hev Hca].
  - lia.
  - by rewrite Hst0 in Hi.
  - by rewrite Hst0 in Hp.
  - rewrite Hst, Hsv, Hpc, Hn. repeat split; try done.
    + destruct Hca as [->|(h & cs & -> & Hcs)]; [done|].
      intros k [Hk|Hk%list_elem_of_singleton]%elem_of_app; [by apply Hca0|].
      subst k. simpl. destruct cs as [[i|e]|p|p|p]; try done.
      * apply existing_ready_Some in Hcs as (c & Hs & _). by rewrite Hsv0 in Hs.
      * by destruct Hcs as [-> _].
      * destruct Hcs as [_ Hp]. by rewrite Hpc0 in Hp.
    + destruct Hev as [->|(h & ->)]; [done|].
      intros ev [Hin|Hin%list_elem_of_singleton]%elem_of_app; [by apply Hev0|].
      by exists h.
Qed.

(** X10: a second [shutdown] of the same hostname changes neither the records
    nor the registry and sends nothing; a [shutdown] sends at most one
    [stopped], and for a hostname without record it returns at once and
    changes nothing. *)
Theorem shutdown_twice (ls : list Label) (h : string) :
  let st := exec config ls (init config) in
  let s1 := shutdown h st in
  let s2 := shutdown h s1 in
  store s2 = store s1 ∧ servers s2 = servers s1 ∧ events s2 = events s1 ∧
  (events s1 = events st ∨ events s1 = events st ++ [Stopped h]) ∧
  (get st h = None →
   store s1 = store st ∧ servers s1 = servers st ∧ events s1 = events st ∧
   shutdowns s1 = shutdowns st ++ [ShutdownReturned None]).
Proof.
  intros st s1 s2.
  pose proof (reachable_core ls) as HC. fold st in HC.
  unfold s2, s1, shutdown. rewrite (core_tasks _ _ HC). unfold get.
  destruct (servers st !! h) as [t|] eqn:Hs; simpl.
  2:{ rewrite (core_tasks _ _ HC), Hs. simpl. repeat split; auto; done. }
  destruct (core_live _ _ HC _ _ Hs) as (c & Hc & Hh & Hlive).
  unfold live in Hlive.
  destruct (lifecycle c) as [| |[] r thrown|] eqn:Hl; try done.
  - assert (halt t st = update t (set_lifecycle Finished) (finally_block h st)) as ->.
    { unfold halt. by rewrite Hc, Hl, Hh. }
    simpl. rewrite lookup_delete_eq. simpl. repeat split; auto; done.
  - assert (halt t st = update t (set_lifecycle (Halting false Provided None)) st) as ->.
    { unfold halt. by rewrite Hc, Hl. }
    simpl. rewrite (core_tasks _ _ HC), Hs. unfold halt. simpl.
    rewrite list_lookup_alter_eq, Hc. simpl. repeat split; auto; done.
  - assert (halt t st = st) as ->.
    { unfold halt. by rewrite Hc, Hl. }
    simpl. rewrite (core_tasks _ _ HC), Hs. unfold halt. simpl. rewrite Hc, Hl.
    simpl. repeat split; auto; done.
Qed.
















End PoolMore.

(** ** The switchboard, past the [await] *)

Section HandlerFacts.

Import Switchboard Pool Router Errors Handler Invariant.

Variable config : ServerPoolConfig.

(** X15: a request whose hostname is new while the pool is at capacity is
    answered, through the error handler, with status 500, the body
    [Internal Server Error] and the message of the capacity error; no
    record, no pending entry and no port is used. *)
Theorem capacity_is_answered_500 (sys : System) (d : string) (req : Request) :
  let h := extractHostname req d in
  let st := pool sys in
  servers st !! h = None → pendingCreations st !! h = None →
  (limit config ≤ Z.of_nat (size (servers st)))%Z →
  let sys1 := handle_request config d req sys in
  let x := length (exchanges sys) in
  ∃ sys2,
    handler_resumes x sys1 = (sys2, None) ∧
    exchanges sys2 !! x =
      Some (mkExchange h (length (calls st))
              (mkResponse true 500
                 (Some ("Internal Server Error", capacity_message (limit config))))) ∧
    store (pool sys2) = store st ∧ servers (pool sys2) = servers st ∧
    nextPort (pool sys2) = nextPort st ∧
    pendingCreations (pool sys2) = pendingCreations st.
Proof.
  intros h st Hs Hp Hlim sys1 x.
  assert (pool sys1 =
            push_call h (Returned (Threw (MaxServersReached (limit config))))
              (emitEvent (ErrorEvent h (MaxServersReached (limit config))) st)) as Hpool.
  { unfold sys1, handle_request. simpl. fold h st.
    unfold getOrCreate, existing_ready. rewrite Hs, Hp. simpl.
    apply Z.leb_le in Hlim. by rewrite Hlim. }
  assert (exchanges sys1 !! x = Some (mkExchange h (length (calls st)) fresh_response))
    as Hx.
  { unfold sys1, handle_request. simpl. by apply list_lookup_middle. }
  clearbody sys1.
  eexists. split.
  - unfold handler_resumes. rewrite Hx. simpl. rewrite Hpool. simpl.
    rewrite list_lookup_middle by done. simpl. reflexivity.
  - simpl. rewrite list_lookup_alter_eq, Hx. simpl. done.
Qed.

(** X16: a request whose [getOrCreate] has resolved is handed to [proxy.web]
    with the target [http://localhost:] followed by the port of the
    creation it resolved to, which is the port announced by a [started]
    event for the request's hostname and lies below the port counter. *)
Theorem resolved_request_is_forwarded (ls : list Label) (sys : System) (x : nat)
    (e : Exchange) (k : Call) (i : nat) :
  pool sys = exec config ls (init config) →
  exchanges sys !! x = Some e → calls (pool sys) !! call e = Some k →
  call_hostname k = target e →
  call_result (pool sys) k = Some (Resolved i) →
  let assigned := (basePort config + Z.of_nat i)%Z in
  handler_resumes x sys = (sys, Some (target_url assigned)) ∧
  Started (target e) assigned ∈ events (pool sys) ∧
  (assigned < nextPort (pool sys))%Z.
Proof.
  intros Hpool Hx Hk Hh Hres assigned.
  pose proof (reachable_inv config ls) as HI. rewrite <- Hpool in HI.
  pose proof (inv_core _ _ HI) as HC. pose proof (inv_provide _ _ HI) as HP.
  destruct (reachable_more config ls) as (_ & Hlog & Hret & _).
  rewrite <- Hpool in Hlog, Hret.
  destruct k as [h cs]. simpl in Hh. subst h.
  assert (∃ c, store (pool sys) !! i = Some c ∧ readyPromise c = Fulfilled ∧
               hostname (info c) = target e) as (c & Hc & Hr & Hhc).
  { unfold call_result in Hres. simpl in Hres.
    destruct cs as [o|q|q|q]; simplify_eq/=.
    - destruct (Hret _ _ _ Hk) as (c & Hc & Hr).
      destruct (prov_ref _ HP _ _ _ i Hk eq_refl) as (c' & Hc' & Hh').
      exists c. by simplify_eq.
    - destruct (prov_ref _ HP _ _ _ q Hk eq_refl) as (c & Hc & Hh').
      rewrite Hc in Hres. simpl in Hres.
      destruct (spawnPromise c) eqn:Hsp; simplify_eq/=.
      exists c. repeat split; try done.
      destruct (prov_follows _ HP _ _ Hc); congruence.
    - destruct (prov_ref _ HP _ _ _ q Hk eq_refl) as (c & Hc & Hh').
      rewrite Hc in Hres. simpl in Hres.
      destruct (spawnPromise c) eqn:Hsp; simplify_eq/=.
      exists c. repeat split; try done.
      destruct (prov_follows _ HP _ _ Hc); congruence. }
  pose proof (core_wf _ _ HC _ _ Hc) as Hwf. unfold wf in Hwf.
  destruct Hwf as [Hport _]. unfold assigned. clear assigned.
  split_and!.
  - unfold handler_resumes. rewrite Hx, Hk. simpl. rewrite Hres.
    unfold deref. rewrite Hc. simpl. by rewrite Hport.
  - rewrite <- Hhc, <- Hport. by apply (Hlog i c).
  - rewrite (core_next _ _ HC). apply lookup_lt_Some in Hc. lia.
Qed.

End HandlerFacts.

(** ** Hostname extraction: the edges *)

Section HostEdges.

Import Switchboard.

Lemma split_no_sep (sep : ascii) (s : string) :
  includes sep s = false → split sep s = [s].
Proof.
  induction s as [|c s IH]; simpl; [done|].
  intros [Hc Hs]%orb_false_iff. rewrite Hc, IH by done. done.
Qed.

Lemma split_at_sep (sep : ascii) (h r : string) :
  includes sep h = false → head (split sep (h +:+ String sep r)) = Some h.
Proof.
  induction h as [|c h IH]; simpl.
  - intros _. by rewrite Ascii.eqb_refl.
  - intros [Hc Hs]%orb_false_iff. rewrite Hc.
    specialize (IH Hs).
    destruct (split sep (h +:+ String sep r)) as [|y t]; simplify_eq/=. done.
Qed.

Lemma or_empty_Some (s : string) : or_empty (Some s) = s.
Proof. by destruct s. Qed.

(** X17: a port after the host name does not change the routing key. *)
Theorem port_is_ignored (h r : string) (x : option string) (d : string) :
  includes colon h = false →
  extractHostname (mkRequest (Some (h +:+ String colon r)) x) d =
  extractHostname (mkRequest (Some h) x) d.
Proof.
  intros Hh. unfold extractHostname. simpl host.
  rewrite !or_empty_Some. unfold hostWithoutPort.
  rewrite (split_at_sep colon h r) by done.
  rewrite (split_no_sep colon h) by done. done.
Qed.

(** X18: a request without [Host] header, with an empty one, or with one that
    holds only a port is routed by the [X-App-Name] header if that is not
    empty, otherwise to the default; a host that starts with a dot is
    routed to the empty hostname, whatever header and default. *)
Theorem host_edge_cases (x : option string) (d r : string) :
  let fallback := if truthy x then default "" x else d in
  extractHostname (mkRequest None x) d = fallback ∧
  extractHostname (mkRequest (Some "") x) d = fallback ∧
  extractHostname (mkRequest (Some (String colon r)) x) d = fallback ∧
  extractHostname (mkRequest (Some (String dot r)) x) d = "".
Proof.
  intros fallback. split_and!; try done.
  unfold extractHostname. simpl host. rewrite or_empty_Some.
  unfold hostWithoutPort. simpl.
  destruct (split colon r) as [|y t]; simpl; done.
Qed.

End HostEdges.

(** ** The further properties on concrete runs *)

Section Runs.

Import Switchboard Pool Router Errors Handler Invariant Trace Scenario.

Lemma registry_consistent_witness :
  let st := exec capstone [GetOrCreate "a"; GetOrCreate "b"] (init capstone) in
  get st "b" = Some 1 ∧
  ∃ r, deref st 1 = Some r ∧ hostname r = "b" ∧ task r = Some 1.
Proof.
  intros st.
  assert (get st "b" = Some 1) as H1 by (vm_compute; reflexivity).
  split; [exact H1|].
  destruct (registry_consistent capstone [GetOrCreate "a"; GetOrCreate "b"]) as [_ H].
  destruct (H "b" 1 H1) as [(r & Hr & Hh & Ht) _].
  exists r. repeat split; assumption.
Defined.

Lemma list_is_fast_path_witness :
  let st := exec capstone [GetOrCreate "a"; NowListening 0; GetOrCreate "b"] (init capstone) in
  existing_ready st "a" = Some 0 ∧ 0 ∈ list_running st ∧
  ∃ c, store st !! 0 = Some c ∧ readyPromise c = Fulfilled.
Proof.
  intros st.
  assert (existing_ready st "a" = Some 0) as H1 by (vm_compute; reflexivity).
  destruct (list_is_fast_path capstone
              [GetOrCreate "a"; NowListening 0; GetOrCreate "b"]) as (Hiff & _ & _ & Hall).
  assert (0 ∈ list_running st) as H2.
  { apply Hiff. exists "a". exact H1. }
  split; [exact H1|]. split; [exact H2|].
  destruct (Hall 0 H2) as (c & Hc & Hr & _). exists c. split; assumption.
Defined.

Lemma servers_route_lists_ready_witness :
  let st := exec capstone [GetOrCreate "a"; NowListening 0; GetOrCreate "b"] (init capstone) in
  existing_ready st "a" = Some 0 ∧
  ("a", 3001%Z) ∈ servers_route st ∧ Started "a" 3001 ∈ events st.
Proof.
  intros st.
  assert (existing_ready st "a" = Some 0) as H1 by (vm_compute; reflexivity).
  destruct (servers_route_lists_ready capstone
              [GetOrCreate "a"; NowListening 0; GetOrCreate "b"]) as (Hiff & Hlog & _).
  assert (("a", 3001%Z) ∈ servers_route st) as H2.
  { apply Hiff. exists 0. split; [exact H1|reflexivity]. }
  split; [exact H1|]. split; [exact H2|]. apply Hlog, H2.
Defined.

Lemma events_counted_witness :
  let st := exec capstone (serve_and_stop "a" 0) (init capstone) in
  get st "a" = None ∧
  (count (is_started "a") (events st) ≤ count (is_stopped "a") (events st))%nat.
Proof.
  intros st.
  assert (get st "a" = None) as H1 by (vm_compute; reflexivity).
  split; [exact H1|].
  destruct (events_counted capstone (serve_and_stop "a" 0) "a") as (_ & _ & _ & H).
  apply H, H1.
Defined.

Lemma admission_counts_live_tasks_witness :
  let st := exec single [GetOrCreate "a"] (init single) in
  get st "b" = None ∧ pendingCreations st !! "b" = None ∧
  (store (getOrCreate single "b" st) ≠ store st ↔
   (Z.of_nat (count live (store st)) < limit single)%Z).
Proof.
  intros st.
  assert (get st "b" = None) as H1 by (vm_compute; reflexivity).
  assert (pendingCreations st !! "b" = None) as H2 by (vm_compute; reflexivity).
  split; [exact H1|]. split; [exact H2|].
  destruct (admission_counts_live_tasks single [GetOrCreate "a"] "b") as [_ H].
  apply (H H1 H2).
Defined.

Lemma pending_iff_awaiting_witness :
  let st := exec capstone [GetOrCreate "a"] (init capstone) in
  pendingCreations st !! "a" = Some 0 ∧
  (∃ j, calls st !! j = Some (mkCall "a" (AwaitingSpawn 0))) ∧
  ∃ c, store st !! 0 = Some c ∧ hostname (info c) = "a".
Proof.
  intros st.
  assert (pendingCreations st !! "a" = Some 0) as H1 by (vm_compute; reflexivity).
  destruct (pending_iff_awaiting capstone [GetOrCreate "a"] "a" 0) as (Hiff & _ & Hc).
  split; [exact H1|]. split; [apply Hiff, H1|apply Hc, H1].
Defined.

Lemma nonpositive_limit_creates_nothing_witness :
  let closed := mkConfig 3001 (Some 0%Z) in
  (limit closed ≤ 0)%Z ∧
  store (exec closed [GetOrCreate "a"; GetOrCreate "b"] (init closed)) = [].
Proof.
  intros closed.
  assert (limit closed ≤ 0)%Z as H1 by (vm_compute; discriminate).
  split; [exact H1|].
  apply (nonpositive_limit_creates_nothing closed [GetOrCreate "a"; GetOrCreate "b"] H1).
Defined.

Lemma shutdown_twice_witness :
  let st := exec capstone [GetOrCreate "a"; NowListening 0] (init capstone) in
  get st "b" = None ∧ events (shutdown "b" st) = events st ∧
  events (shutdown "a" (shutdown "a" st)) = events (shutdown "a" st).
Proof.
  intros st.
  assert (get st "b" = None) as H1 by (vm_compute; reflexivity).
  split; [exact H1|]. split.
  - destruct (shutdown_twice capstone [GetOrCreate "a"; NowListening 0] "b")
      as (_ & _ & _ & _ & H).
    destruct (H H1) as (_ & _ & He & _). exact He.
  - destruct (shutdown_twice capstone [GetOrCreate "a"; NowListening 0] "a")
      as (_ & _ & He & _).
    exact He.
Defined.



Lemma capacity_is_answered_500_witness :
  let sys := mkSystem (exec single [GetOrCreate "a"] (init single)) [] in
  let req := mkRequest (Some "b.localhost:8000") None in
  servers (pool sys) !! "b" = None ∧ pendingCreations (pool sys) !! "b" = None ∧
  (limit single ≤ Z.of_nat (size (servers (pool sys))))%Z ∧
  ∃ sys2, handler_resumes 0 (handle_request single "default" req sys) = (sys2, None) ∧
          exchanges sys2 !! 0 =
            Some (mkExchange "b" 1
                    (mkResponse true 500
                       (Some ("Internal Server Error",
                              "Maximum number of servers (1) reached")))).
Proof.
  intros sys req.
  assert (servers (pool sys) !! "b" = None) as H1 by (vm_compute; reflexivity).
  assert (pendingCreations (pool sys) !! "b" = None) as H2 by (vm_compute; reflexivity).
  assert (limit single ≤ Z.of_nat (size (servers (pool sys))))%Z as H3
    by (vm_compute; discriminate).
  split; [exact H1|]. split; [exact H2|]. split; [exact H3|].
  destruct (capacity_is_answered_500 single sys "default" req H1 H2 H3)
    as (sys2 & Hr & Hx & _).
  exists sys2. split; [exact Hr|exact Hx].
Defined.

Lemma resolved_request_is_forwarded_witness :
  let ls := [GetOrCreate "app-a"; NowListening 0; SpawnSettles 0; AwaitResumes 0] in
  let e := mkExchange "app-a" 0 fresh_response in
  let k := mkCall "app-a" (Resumed 0) in
  pool forward_refused = exec capstone ls (init capstone) ∧
  exchanges forward_refused !! 0 = Some e ∧
  calls (pool forward_refused) !! call e = Some k ∧
  call_result (pool forward_refused) k = Some (Resolved 0) ∧
  handler_resumes 0 forward_refused =
    (forward_refused, Some "http://localhost:3001") ∧
  Started "app-a" 3001 ∈ events (pool forward_refused).
Proof.
  intros ls e k.
  assert (pool forward_refused = exec capstone ls (init capstone)) as H1
    by (vm_compute; reflexivity).
  assert (exchanges forward_refused !! 0 = Some e) as H2 by (vm_compute; reflexivity).
  assert (calls (pool forward_refused) !! call e = Some k) as H3
    by (vm_compute; reflexivity).
  assert (call_result (pool forward_refused) k = Some (Resolved 0)) as H4
    by (vm_compute; reflexivity).
  split; [exact H1|]. split; [exact H2|]. split; [exact H3|]. split; [exact H4|].
  destruct (resolved_request_is_forwarded capstone ls forward_refused 0 e k 0
              H1 H2 H3 eq_refl H4) as (Hr & Hs & _).
  split; [exact Hr|exact Hs].
Defined.

Lemma port_is_ignored_witness :
  includes colon "app-a.localhost" = false ∧
  extractHostname (mkRequest (Some "app-a.localhost:8000") None) "default" =
  extractHostname (mkRequest (Some "app-a.localhost") None) "default".
Proof.
  split; [reflexivity|].
  apply (port_is_ignored "app-a.localhost" "8000" None "default"). reflexivity.
Defined.

End Runs.

(** * The pool under the runtime's scheduling *)

(** ** Preservation of the invariants *)

Section TaskFacts.

Import Pool Tasks TaskInvariant.

Variable config : ServerPoolConfig.

Ltac idle := apply rtc_refl.

Lemma alter_at {A} (f : A → A) (i : nat) (l : list A) (x : A) :
  l !! i = Some x → alter f i l = <[i := f x]> l.
Proof.
  revert i. induction l as [|y l IH]; intros [|i] H; simplify_eq/=; try done.
  f_equal. by apply IH.
Qed.

Lemma alter_after_insert {A} (f : A → A) (i : nat) (l : list A) (y : A) :
  i < length l → alter f i (<[i := y]> l) = <[i := f y]> l.
Proof.
  intros Hi. rewrite (alter_at f i _ y).
  - apply list_insert_insert_eq.
  - by apply list_lookup_insert_eq.
Qed.

Ltac split_cases :=
  repeat match goal with
  | |- context [match ?x with _ => _ end] => destruct x eqn:?; simplify_eq/=
  | H : context [match ?x with _ => _ end] |- _ => destruct x eqn:?; simplify_eq/=
  end.

Ltac members :=
  repeat match goal with
  | H : _ ∈ [] |- _ => by apply elem_of_nil in H
  | H : _ ∈ _ :: _ |- _ => apply elem_of_cons in H as [?|?]; simplify_eq/=
  end.

Ltac open_task :=
  repeat match goal with
  | c : Creation |- _ => destruct c as [[? ? ? ?] ? ? ? ?]
  end;
  unfold wf, unsettled_or, tail_of, live, active, ended, began, torn_down, settle,
    server_close,
    halted, set_phase, set_readyPromise, set_server, set_task, set_socket,
    set_spawnPromise, is_Some in *;
  simpl in *; simplify_eq/=.

Ltac solve_task :=
  open_task; split_cases;
  try (intuition (members; try congruence; try lia; eauto; naive_solver)).

Ltac at_store c :=
  match goal with
  | H : store ?st !! ?i = Some c |- _ =>
      rewrite ?(alter_at _ i (store st) c) by assumption;
      rewrite ?alter_after_insert by (eapply lookup_lt_Some; eassumption)
  end.

Lemma move_as st st' i c c' del tail :
  store st !! i = Some c → LocalStep config i c c' del tail →
  st' = apply_local i c c' del tail st → rtc (Local config) st st'.
Proof. intros Hi HL ->. apply rtc_once. by eapply lo_move. Qed.

Ltac as_local c :=
  unfold apply_local, emitEvent, update, finally_block, catch_block, with_store,
    with_registry; simpl; at_store c;
  try (destruct (closed _));
  rewrite <- ?app_assoc, ?app_nil_r; simpl; reflexivity.

Ltac moves i c c' del tail :=
  apply (move_as _ _ i c c' del tail); [assumption|split; solve_task|as_local c].

Lemma halted_twice c : halted (halted c) = halted c.
Proof. by destruct c as [? [| |?] [] [| |?] ?]. Qed.

Lemma leave_absorbs i c c' del tail st :
  leave (apply_local i c c' del tail st) = leave (apply_local i c (halted c') del tail st).
Proof.
  unfold leave, apply_local; simpl. f_equal.
  by rewrite !list_fmap_insert, halted_twice.
Qed.

Lemma on_listening_moves i st : rtc (Local config) st (on_listening i st).
Proof.
  unfold on_listening.
  destruct (store st !! i) as [c|] eqn:Hc; [|idle].
  destruct (socket c) eqn:Hs; try idle.
  destruct (phase c) as [| | |f r| |] eqn:Hl.
  2: moves i c (set_phase Suspended
            (set_readyPromise (settle Fulfilled (readyPromise c))
               (set_server (Some i) (set_socket Listening c)))) false
            [Started (hostname (info c)) (port (info c))].
  all: moves i c (set_socket Listening c) false (@nil ServerEvent).
Qed.

Lemma on_listen_error_moves i m st : rtc (Local config) st (on_listen_error i m st).
Proof.
  unfold on_listen_error.
  destruct (store st !! i) as [c|] eqn:Hc; [|idle].
  destruct (socket c) eqn:Hs; try idle.
  destruct (phase c) as [| | |f r| |] eqn:Hl.
  2: { set (c1 := set_phase FailedStart
            (set_readyPromise (settle (Rejected (ListenError m)) (readyPromise c))
               (set_socket Failed c))).
       set (tail := [ErrorEvent (hostname (info c)) (ListenError m);
                     Stopped (hostname (info c))]).
       assert (update i (set_phase FailedStart)
                 (finally_block (hostname (info c))
                    (catch_block i (hostname (info c)) (ListenError m)
                       (update i (set_socket Failed) st)))
               = apply_local i c c1 true tail st) as -> by (symmetry; as_local c).
       rewrite leave_absorbs. eapply rtc_r; [|apply lo_leave].
       subst c1 tail. apply rtc_once. eapply lo_move; [done|split; solve_task]. }
  all: moves i c (set_socket Failed c) false (@nil ServerEvent).
Qed.

Lemma spawn_settles_moves i st : rtc (Local config) st (spawn_settles i st).
Proof.
  unfold spawn_settles.
  destruct (store st !! i) as [c|] eqn:Hc; [|idle].
  destruct (phase c) as [| | |f r| |] eqn:Hl; try idle.
  all: destruct (is_settled (readyPromise c)) eqn:Hs; [|idle].
  all: moves i c (set_spawnPromise (settle (readyPromise c) (spawnPromise c)) c)
         false (@nil ServerEvent).
Qed.

Lemma halt_moves i st : rtc (Local config) st (halt i st).
Proof.
  unfold halt.
  destruct (store st !! i) as [c|] eqn:Hc; [|idle].
  destruct (phase c) as [| | |f r| |] eqn:Hl; try idle.
  - moves i c (set_phase (Halting false Released) c) false (@nil ServerEvent).
  - moves i c (set_phase (Halting false Provided) c) false (@nil ServerEvent).
Qed.

Lemma server_died_moves i cause st : rtc (Local config) st (server_died i cause st).
Proof.
  unfold server_died.
  destruct (store st !! i) as [c|] eqn:Hc; [|idle].
  destruct (phase c) as [| | |f r| |] eqn:Hl; try idle.
  destruct (socket c) eqn:Hs; try idle.
  moves i c
    (set_phase (Halting false Provided)
       (set_socket (match cause with Some _ => Listening | None => Closed end) c))
    false (@nil ServerEvent).
Qed.

Lemma task_finally_moves i st : rtc (Local config) st (task_finally i st).
Proof.
  unfold task_finally.
  destruct (store st !! i) as [c|] eqn:Hc; [|idle].
  destruct (phase c) as [| | |[] r| |] eqn:Hl; try idle.
  moves i c (set_phase (Halting true r) c) true [Stopped (hostname (info c))].
Qed.

Lemma resource_closes_moves i st : rtc (Local config) st (resource_closes i st).
Proof.
  unfold resource_closes.
  destruct (store st !! i) as [c|] eqn:Hc; [|idle].
  destruct (phase c) as [| | |[] []| |] eqn:Hl; try idle.
  moves i c
    (set_phase (Halting true AwaitingClose) (set_socket (server_close (socket c)) c))
    false (@nil ServerEvent).
Qed.

Lemma close_emitted_moves i st : rtc (Local config) st (close_emitted i st).
Proof.
  unfold close_emitted.
  destruct (store st !! i) as [c|] eqn:Hc; [|idle].
  destruct (socket c) eqn:Hs; try idle.
  moves i c
    (set_socket Closed
       (match phase c with
        | Halting f AwaitingClose => set_phase (Halting f Released) c
        | _ => c
        end))
    false (@nil ServerEvent).
Qed.

Lemma doSpawnServer_at st i c :
  store st !! i = Some c → phase c = Unstarted →
  doSpawnServer i st =
  with_registry <[hostname (info c) := i]>
    (with_store <[i := set_phase Starting (set_socket Binding (set_task (Some i) c))]> st).
Proof.
  intros Hi Hp. unfold doSpawnServer. rewrite Hi, Hp.
  unfold update, with_store, with_registry. simpl. by at_store c.
Qed.

Lemma create_lookup h st :
  store (create h st) !! length (store st) = Some (placeholder h (nextPort st)).
Proof. unfold create. simpl. by apply list_lookup_middle. Qed.

Lemma getOrCreate_changes h now st : Changes config st (getOrCreate config h now st).
Proof.
  unfold getOrCreate.
  destruct (existing_ready st h) as [i|] eqn:Hex.
  { apply rtc_once. by apply ch_call. }
  destruct (pendingCreations st !! h) as [p|] eqn:Hpe.
  { apply rtc_once. by apply ch_call. }
  destruct (limit config <=? Z.of_nat (size (servers st)))%Z eqn:Hlim.
  { eapply rtc_l; [apply ch_event|]. apply rtc_once. by apply ch_call. }
  apply Z.leb_gt in Hlim.
  destruct (closed st) eqn:Hcl; [idle|].
  destruct now.
  - eapply rtc_l; [by apply (ch_create config st h)|].
    apply rtc_once.
    replace (push_call _ _ _) with (doSpawnServer (length (store st)) (create h st)).
    + eapply ch_start; [apply create_lookup|done].
    + rewrite (doSpawnServer_at _ _ _ (create_lookup h st) eq_refl).
      unfold doSpawnServer. simpl. rewrite list_lookup_middle by done. simpl.
      unfold create, push_call, with_calls, with_pendingCreations, with_registry,
        with_store, update; simpl.
      rewrite (alter_at _ _ _ _ (list_lookup_middle _ _ _ _ eq_refl)).
      done.
  - apply rtc_once. by apply (ch_create config st h).
Qed.

Lemma await_resumes_changes j st : Changes config st (await_resumes j st).
Proof.
  destruct (calls st !! j) as [[h cs]|] eqn:Hj.
  2: { unfold await_resumes. rewrite Hj. idle. }
  destruct cs as [| |p|]; try (unfold await_resumes; rewrite Hj; idle).
  destruct (store st !! p) as [c|] eqn:Hp.
  2: { unfold await_resumes. rewrite Hj, Hp. idle. }
  destruct (is_settled (spawnPromise c)) eqn:Hs.
  2: { unfold await_resumes. rewrite Hj, Hp, Hs. idle. }
  apply rtc_once. by eapply ch_resume.
Qed.

Lemma local_changes st st' : rtc (Local config) st st' → Changes config st st'.
Proof. apply rtc_subrel. intros x y H. by apply ch_local. Qed.

Lemma lookup_at (l : list Creation) (i j : nat) (c x : Creation) :
  l !! i = Some c → <[i := x]> l !! j = Some x ∧ j = i ∨ (j ≠ i ∧ <[i := x]> l !! j = l !! j).
Proof.
  intros Hi. destruct (decide (j = i)) as [->|Hne].
  - left. split; [|done]. apply list_lookup_insert_eq. by eapply lookup_lt_Some.
  - right. split; [done|]. by apply list_lookup_insert_ne.
Qed.

Ltac at_entry Hi j :=
  let H := fresh "Hcase" in
  match goal with
  | Hj : <[_ := ?x]> _ !! j = Some _ |- _ =>
      destruct (lookup_at _ _ j _ x Hi) as [[H ->]|[? H]];
      rewrite H in Hj; simplify_eq/=
  end.

Lemma tail_has_stopped c del tail :
  tail_of c del tail → del = true → Stopped (hostname (info c)) ∈ tail.
Proof.
  unfold tail_of. intros Ht ->.
  repeat case_match; subst; try done; destruct_and?; simplify_eq; set_solver.
Qed.

Lemma tail_has_started c del tail h p :
  tail_of c del tail → Started h p ∈ tail →
  del = false ∧ h = hostname (info c) ∧ p = port (info c).
Proof.
  unfold tail_of. intros Ht Hin.
  repeat case_match; subst; try done; destruct_and?; members; done.
Qed.

Lemma ready_record_Some st h i :
  existing_ready st h = Some i →
  ∃ c, servers st !! h = Some i ∧ store st !! i = Some c ∧ is_Some (server (info c)).
Proof.
  unfold existing_ready. intros H.
  destruct (servers st !! h) as [i'|] eqn:Hs; simplify_eq/=.
  destruct (store st !! i') as [c|] eqn:Hc; simplify_eq/=.
  destruct (server (info c)) eqn:Hv; simplify_eq/=. eauto.
Qed.

Lemma ready_record_None st h i c :
  existing_ready st h = None → servers st !! h = Some i → store st !! i = Some c →
  server (info c) = None.
Proof.
  unfold existing_ready. intros H Hs Hc. rewrite Hs in H. simpl in H.
  rewrite Hc in H. simpl in H. by destruct (server (info c)).
Qed.

(** *** How one creation changes *)

Lemma keeps_refl c : keeps c c.
Proof. by repeat split. Qed.

Lemma keeps_trans c1 c2 c3 : keeps c1 c2 → keeps c2 c3 → keeps c1 c3.
Proof.
  intros (H1 & H2 & H3 & H4 & H5 & H6 & H7 & H8) (K1 & K2 & K3 & K4 & K5 & K6 & K7 & K8).
  repeat split; try congruence; auto.
  - intros Hr. rewrite K4; [by apply H4|]. by rewrite H4.
  - intros Hs. rewrite K5; [by apply H5|]. by rewrite H5.
Qed.

Lemma store_keeps_refl st : store_keeps st st.
Proof. intros i c Hi. exists c. split; [done|apply keeps_refl]. Qed.

Lemma store_keeps_trans st1 st2 st3 :
  store_keeps st1 st2 → store_keeps st2 st3 → store_keeps st1 st3.
Proof.
  intros H12 H23 i c Hi.
  destruct (H12 _ _ Hi) as (c2 & Hi2 & E12).
  destruct (H23 _ _ Hi2) as (c3 & Hi3 & E23).
  exists c3. split; [done|]. by eapply keeps_trans.
Qed.

Lemma store_keeps_eq st st' : store st' = store st → store_keeps st st'.
Proof. intros Heq i c Hi. exists c. rewrite Heq. split; [done|apply keeps_refl]. Qed.

Lemma halted_keeps c : keeps c (halted c).
Proof. destruct c as [[? ? ? ?] [| |?] [] [| |?] ?]; by repeat split. Qed.

Lemma shut_ok_keeps st st' s : store_keeps st st' → shut_ok st s → shut_ok st' s.
Proof.
  intros Hk. destruct s as [t|[t|]]; simpl; [| |done].
  - intros (c & Hc & Hb). destruct (Hk _ _ Hc) as (c' & Hc' & K).
    exists c'. split; [done|]. by apply K.
  - intros (c & Hc & Hb & Htd). destruct (Hk _ _ Hc) as (c' & Hc' & K).
    exists c'. split; [done|]. split; by apply K.
Qed.

Lemma create_store h st : store_keeps st (create h st).
Proof.
  intros j cj Hj. exists cj. split; [|apply keeps_refl].
  unfold create. simpl. by apply lookup_app_l_Some.
Qed.

Lemma start_store i c st :
  store st !! i = Some c → phase c = Unstarted → store_keeps st (doSpawnServer i st).
Proof.
  intros Hi Hph. rewrite (doSpawnServer_at _ _ _ Hi Hph). intros j cj Hj. simpl.
  destruct (decide (j = i)) as [->|Hne].
  - simplify_eq. eexists. split.
    { apply list_lookup_insert_eq. by eapply lookup_lt_Some. }
    unfold keeps, torn_down, began. simpl. rewrite Hph. by repeat split.
  - exists cj. rewrite list_lookup_insert_ne by done. split; [done|apply keeps_refl].
Qed.

Lemma move_store i c c' del tail st :
  store st !! i = Some c → LocalStep config i c c' del tail →
  store_keeps st (apply_local i c c' del tail st).
Proof.
  intros Hi HL j cj Hj. unfold apply_local. simpl.
  destruct (decide (j = i)) as [->|Hne].
  - simplify_eq. exists c'. split.
    { apply list_lookup_insert_eq. by eapply lookup_lt_Some. }
    destruct HL. repeat split; try done. congruence.
  - exists cj. rewrite list_lookup_insert_ne by done. split; [done|apply keeps_refl].
Qed.

Lemma leave_store st : store_keeps st (leave st).
Proof.
  intros j cj Hj. exists (halted cj). split; [|apply halted_keeps].
  unfold leave. simpl. by rewrite list_lookup_fmap, Hj.
Qed.

(** A creation whose spawn task has not ended holds the pending entry of
    its hostname. *)
Lemma unsettled_pending st i c :
  Inv config st → store st !! i = Some c → spawnPromise c = Pending →
  pendingCreations st !! hostname (info c) = Some i.
Proof.
  intros HI Hi Hsp. destruct (inv_spawn _ _ HI _ _ Hi Hsp) as (j & Hj).
  by eapply inv_call.
Qed.

Lemma create_inv h st :
  Inv config st → existing_ready st h = None → pendingCreations st !! h = None →
  closed st = false → Inv config (create h st).
Proof.
  intros HI Hex Hpe Hcl.
  set (n := length (store st)).
  split; unfold create, push_call; simpl; fold n.
  - rewrite length_app. simpl. rewrite (inv_next _ _ HI). fold n.
    unfold nth_port. replace (n + 1) with (S n) by lia. done.
  - intros j cj [[_ Hj]|[-> <-]]%lookup_snoc_Some; [by eapply inv_wf|].
    unfold wf, placeholder; simpl. rewrite (inv_next _ _ HI). by repeat split.
  - apply HI.
  - intros k j Hk. destruct (inv_live _ _ HI _ _ Hk) as (cj & Hj & ? & ?).
    exists cj. split; [by apply lookup_app_l_Some|done].
  - intros j cj [[_ Hj]|[-> <-]]%lookup_snoc_Some Hl; [by eapply inv_back|done].
  - intros h' p' Hin. destruct (inv_started _ _ HI _ _ Hin) as (j & cj & Hj & ?).
    exists j, cj. split; [by apply lookup_app_l_Some|done].
  - intros j cj [[_ Hj]|[-> <-]]%lookup_snoc_Some Hl; [by eapply inv_stopped|done].
  - intros j s Hj. eapply shut_ok_keeps; [apply create_store|]. by eapply inv_shutdown.
  - congruence.
  - intros j cj e [[_ Hj]|[-> <-]]%lookup_snoc_Some Hsp; [by eapply inv_rejected|done].
  - intros j h' p' [[_ Hj]|[_ ?]]%lookup_snoc_Some; simplify_eq/=.
    + rewrite lookup_insert_ne; [by eapply inv_call|].
      intros <-. pose proof (inv_call _ _ HI _ _ _ Hj). congruence.
    + by rewrite lookup_insert_eq.
  - intros h' p' [[<- <-]|[Hne Hp]]%lookup_insert_Some.
    + exists (length (calls st)). by apply list_lookup_middle.
    + destruct (inv_entry _ _ HI _ _ Hp) as (j & Hj).
      exists j. by apply lookup_app_l_Some.
  - intros j h' cs p' [[_ Hj]|[_ ?]]%lookup_snoc_Some Hr; simplify_eq/=.
    + destruct (inv_ref _ _ HI _ _ _ _ Hj Hr) as (cp & ? & ?).
      exists cp. split; [by apply lookup_app_l_Some|done].
    + eexists. split; [by apply list_lookup_middle|done].
  - intros j1 j2 h1 h2 p' [[_ H1]|[-> ?]]%lookup_snoc_Some
      [[_ H2]|[-> ?]]%lookup_snoc_Some; simplify_eq/=; try done.
    + by eapply inv_unique.
    + destruct (inv_ref _ _ HI _ _ _ _ H1 eq_refl) as (cp & Hcp & _).
      apply lookup_lt_Some in Hcp. lia.
    + destruct (inv_ref _ _ HI _ _ _ _ H2 eq_refl) as (cp & Hcp & _).
      apply lookup_lt_Some in Hcp. lia.
  - intros j cj [[_ Hj]|[-> <-]]%lookup_snoc_Some Hsp; simpl.
    + destruct (inv_spawn _ _ HI _ _ Hj Hsp) as (j' & Hj').
      exists j'. by apply lookup_app_l_Some.
    + exists (length (calls st)). by apply list_lookup_middle.
  - intros h' p' j [[Hh' Hp']|[Hne Hp]]%lookup_insert_Some Hs; [|by eapply inv_same].
    subst h' p'. exfalso.
    destruct (inv_live _ _ HI _ _ Hs) as (cj & Hj & Hh & Hl).
    pose proof (inv_wf _ _ HI _ _ Hj) as Hwf.
    pose proof (ready_record_None _ _ _ _ Hex Hs Hj) as Hnone.
    assert (spawnPromise cj = Pending ∨
            ∃ e, spawnPromise cj = Rejected e ∧ phase cj ≠ FailedStart) as [Hc|(e & Hc & Hf)].
    { clear -Hwf Hl Hnone. solve_task. }
    + pose proof (unsettled_pending _ _ _ HI Hj Hc). congruence.
    + destruct (inv_rejected _ _ HI _ _ _ Hj Hc); congruence.
Qed.

Lemma start_inv i c st :
  Inv config st → store st !! i = Some c → phase c = Unstarted →
  Inv config (doSpawnServer i st).
Proof.
  intros HI Hi Hph. rewrite (doSpawnServer_at _ _ _ Hi Hph).
  set (c' := set_phase Starting (set_socket Binding (set_task (Some i) c))).
  pose proof (inv_wf _ _ HI _ _ Hi) as Hwf.
  assert (spawnPromise c = Pending) as Hsp by (clear -Hwf Hph; solve_task).
  pose proof (unsettled_pending _ _ _ HI Hi Hsp) as Hpe.
  assert (closed st = false) as Hcl.
  { destruct (closed st) eqn:E; [|done].
    pose proof (inv_closed _ _ HI E _ _ Hi) as Ha. unfold active in Ha.
    by rewrite Hph in Ha. }
  assert (∀ j cj, store st !! j = Some cj → live cj = true →
                  hostname (info cj) ≠ hostname (info c)) as Hfree.
  { intros j cj Hj Hl Heq.
    pose proof (inv_back _ _ HI _ _ Hj Hl) as Hs. rewrite Heq in Hs.
    pose proof (inv_same _ _ HI _ _ _ Hpe Hs). subst j. simplify_eq.
    unfold live in Hl. by rewrite Hph in Hl. }
  split; unfold with_registry, with_store; simpl.
  - rewrite length_insert. apply HI.
  - intros j cj Hj. at_entry Hi j; [|by eapply inv_wf].
    clear -Hwf Hph. solve_task.
  - by rewrite (inv_tasks _ _ HI).
  - intros k j [[<- <-]|[Hne Hk]]%lookup_insert_Some.
    + exists c'. split; [|done]. apply list_lookup_insert_eq. by eapply lookup_lt_Some.
    + destruct (inv_live _ _ HI _ _ Hk) as (cj & Hj & Hh & Hl).
      exists cj. split; [|done]. rewrite list_lookup_insert_ne; [done|].
      intros <-. by (simplify_eq; unfold live in *; rewrite ?Hph in * ).
  - intros j cj Hj Hl. at_entry Hi j.
    + by rewrite lookup_insert_eq.
    + rewrite lookup_insert_ne; [by eapply inv_back|].
      intros Heq. by eapply Hfree.
  - intros h p Hin. destruct (inv_started _ _ HI _ _ Hin) as (j & cj & Hj & Hh & Hp & Hr).
    exists j, cj. split; [|done]. rewrite list_lookup_insert_ne; [done|].
    intros <-. simplify_eq. clear -Hwf Hph Hr. solve_task.
  - intros j cj Hj He. at_entry Hi j; try done. by eapply inv_stopped.
  - intros j s Hj. eapply shut_ok_keeps; [|by eapply inv_shutdown].
    pose proof (start_store i c st Hi Hph) as K.
    rewrite (doSpawnServer_at _ _ _ Hi Hph) in K. exact K.
  - congruence.
  - intros j cj e Hj Hr. at_entry Hi j; try congruence. by eapply inv_rejected.
  - apply HI.
  - apply HI.
  - intros j h cs p Hj Hr. destruct (inv_ref _ _ HI _ _ _ _ Hj Hr) as (cp & Hp & Hh).
    destruct (decide (p = i)) as [->|Hne].
    + simplify_eq. exists c'. split; [|done].
      apply list_lookup_insert_eq. by eapply lookup_lt_Some.
    + exists cp. by rewrite list_lookup_insert_ne.
  - apply HI.
  - intros j cj Hj Hs. at_entry Hi j.
    + by eapply (inv_spawn _ _ HI i c).
    + by eapply inv_spawn.
  - intros h p j Hp [[<- <-]|[Hne Hk]]%lookup_insert_Some.
    + congruence.
    + by eapply inv_same.
Qed.

Lemma move_inv i c c' del tail st :
  Inv config st → store st !! i = Some c → LocalStep config i c c' del tail →
  Inv config (apply_local i c c' del tail st).
Proof.
  intros HI Hi HL. pose proof HL as HL'.
  destruct HL as [Lh Lport Lwf Llive Ldel Lend Ltail Lun Lact Ltorn Lr Ls Lrej Lsrv Lfail Lbeg
                   Lstart Lrf Lsf Lhalt].
  split; unfold apply_local; simpl.
  - rewrite length_insert. apply HI.
  - intros j cj Hj. at_entry Hi j; [apply Lwf|]; by eapply inv_wf.
  - by rewrite (inv_tasks _ _ HI).
  - intros k j Hk.
    assert (servers st !! k = Some j ∧ (del = true → k ≠ hostname (info c))) as [Hk' Hne].
    { destruct del; [|done].
      apply lookup_delete_Some in Hk as [? ?]. split; [done|]. by intros _. }
    destruct (inv_live _ _ HI _ _ Hk') as (cj & Hj & Hh & Hlive).
    destruct (decide (j = i)) as [->|Hji].
    + simplify_eq. exists c'.
      split; [apply list_lookup_insert_eq; by eapply lookup_lt_Some|].
      split; [done|].
      rewrite Llive. destruct del; [|done]. by destruct Hne.
    + exists cj. by rewrite list_lookup_insert_ne.
  - intros j cj Hj Hlive. at_entry Hi j.
    + rewrite Llive in Hlive. destruct del; [done|].
      rewrite Lh. by eapply inv_back.
    + pose proof (inv_back _ _ HI _ _ Hj Hlive) as Hb.
      destruct del; [|done].
      rewrite lookup_delete_ne; [done|]. intros Heq.
      pose proof (inv_back _ _ HI _ _ Hi (Ldel eq_refl)) as Hb'.
      rewrite Heq in Hb'. congruence.
  - intros h p Hin. apply elem_of_app in Hin as [Hin|Hin].
    + destruct (inv_started _ _ HI _ _ Hin) as (j & cj & Hj & Hh & Hp & Hr).
      destruct (decide (j = i)) as [->|Hne].
      * simplify_eq. exists i, c'. split.
        { apply list_lookup_insert_eq. by eapply lookup_lt_Some. }
        repeat split; try congruence. rewrite Lr; [done|]. by rewrite Hr.
      * exists j, cj. split; [by rewrite list_lookup_insert_ne|done].
    + destruct (tail_has_started _ _ _ _ _ Ltail Hin) as (_ & -> & ->).
      exists i, c'. split.
      { apply list_lookup_insert_eq. by eapply lookup_lt_Some. }
      repeat split; try done. eapply Lstart; [by eapply inv_wf|done].
  - intros j cj Hj He. apply elem_of_app. at_entry Hi j.
    + rewrite Lh. rewrite Lend in He. destruct del.
      * right. by apply tail_has_stopped with true.
      * left. rewrite orb_false_r in He. by eapply inv_stopped.
    + left. by eapply inv_stopped.
  - intros j s Hj. eapply shut_ok_keeps; [|by eapply inv_shutdown].
    by apply move_store.
  - intros Hcl j cj Hj. at_entry Hi j; [|by eapply inv_closed].
    pose proof (inv_closed _ _ HI Hcl _ _ Hi) as Ha.
    destruct (active cj) eqn:E; [|done]. rewrite Lact in Ha; done.
  - intros j cj e Hj Hr. at_entry Hi j; [|by eapply inv_rejected].
    destruct (Lrej (inv_wf _ _ HI _ _ Hi) _ Hr) as [Hr'|Hf]; [|by right].
    destruct (inv_rejected _ _ HI _ _ _ Hi Hr') as [?|Hf]; [by left|].
    right. by apply Lfail.
  - apply HI.
  - apply HI.
  - intros j h cs p Hj Hp.
    destruct (inv_ref _ _ HI _ _ _ _ Hj Hp) as (cp & Hcp & Hh).
    destruct (decide (p = i)) as [->|Hne].
    + simplify_eq. exists c'. split; [|done].
      apply list_lookup_insert_eq. by eapply lookup_lt_Some.
    + exists cp. split; [by rewrite list_lookup_insert_ne|done].
  - apply HI.
  - intros j cj Hj Hsp. at_entry Hi j.
    + rewrite Lh. eapply inv_spawn; eauto.
      destruct (spawnPromise c) eqn:Ec; [done|..];
        (rewrite Ls in Hsp; done).
    + eapply inv_spawn; eauto.
  - intros h p j Hp Hs. eapply inv_same; [done..|].
    destruct del; [|done]. by apply lookup_delete_Some in Hs as [_ ?].
Qed.

Lemma halted_facts i c :
  wf config i c →
  wf config i (halted c) ∧ hostname (info (halted c)) = hostname (info c) ∧
  live (halted c) = live c ∧ ended (halted c) = ended c ∧ active (halted c) = false ∧
  (torn_down c = true → torn_down (halted c) = true) ∧
  spawnPromise (halted c) ≠ Pending.
Proof. intros Hwf. solve_task. Qed.

Lemma leave_inv st : Inv config st → Inv config (leave st).
Proof.
  intros HI.
  assert (∀ j x, (halted <$> store st) !! j = Some x →
                 ∃ c, store st !! j = Some c ∧ x = halted c ∧ wf config j c) as Hback.
  { intros j x Hj. rewrite list_lookup_fmap in Hj.
    destruct (store st !! j) as [c|] eqn:Hc; simplify_eq/=.
    exists c. split; [done|]. split; [done|]. by eapply inv_wf. }
  assert (∀ j c, store st !! j = Some c → (halted <$> store st) !! j = Some (halted c))
    as Hfwd.
  { intros j c Hj. by rewrite list_lookup_fmap, Hj. }
  split; unfold leave; simpl.
  - rewrite length_fmap. apply HI.
  - intros j x (c & Hc & -> & Hwf)%Hback. by apply halted_facts.
  - apply HI.
  - intros k j Hk. destruct (inv_live _ _ HI _ _ Hk) as (c & Hc & Hh & Hl).
    exists (halted c). split; [by apply Hfwd|].
    destruct (halted_facts _ _ (inv_wf _ _ HI _ _ Hc)) as (_ & -> & -> & _). done.
  - intros j x (c & Hc & -> & Hwf)%Hback Hl.
    destruct (halted_facts _ _ Hwf) as (_ & Hh & Hl' & _).
    rewrite Hh. rewrite Hl' in Hl. by eapply inv_back.
  - intros h p Hin. destruct (inv_started _ _ HI _ _ Hin) as (j & cj & Hj & Hh & Hp & Hr).
    exists j, (halted cj). split; [by apply Hfwd|]. by destruct cj as [[] ? ? ? ?].
  - intros j x (c & Hc & -> & Hwf)%Hback He.
    destruct (halted_facts _ _ Hwf) as (_ & Hh & _ & He' & _).
    rewrite Hh. rewrite He' in He. by eapply inv_stopped.
  - intros j s Hj. eapply shut_ok_keeps; [apply leave_store|]. by eapply inv_shutdown.
  - intros _ j x (c & Hc & -> & Hwf)%Hback. by apply (halted_facts _ _ Hwf).
  - intros. by left.
  - apply HI.
  - apply HI.
  - intros j h cs p Hj Hr. destruct (inv_ref _ _ HI _ _ _ _ Hj Hr) as (c & Hc & Hh).
    exists (halted c). split; [by apply Hfwd|].
    by destruct (halted_facts _ _ (inv_wf _ _ HI _ _ Hc)) as (_ & -> & _).
  - apply HI.
  - intros j x (c & Hc & -> & Hwf)%Hback Hs.
    by destruct (halted_facts _ _ Hwf) as (_ & _ & _ & _ & _ & _ & ?).
  - apply HI.
Qed.

(** Changes of [calls], [shutdowns] and the event log that keep the
    registry and the store. *)
Lemma frame_inv st st' :
  Inv config st →
  servers st' = servers st → serverTasks st' = serverTasks st →
  pendingCreations st' = pendingCreations st →
  nextPort st' = nextPort st → store st' = store st → closed st' = closed st →
  (∀ e, e ∈ events st → e ∈ events st') →
  (∀ h p, Started h p ∈ events st' → Started h p ∈ events st) →
  (∀ j s, shutdowns st' !! j = Some s → shut_ok st s) →
  (∀ j h p, calls st' !! j = Some (mkCall h (AwaitingSpawn p)) →
            calls st !! j = Some (mkCall h (AwaitingSpawn p))) →
  (∀ j h p, calls st !! j = Some (mkCall h (AwaitingSpawn p)) →
            calls st' !! j = Some (mkCall h (AwaitingSpawn p))) →
  (∀ j h cs p, calls st' !! j = Some (mkCall h cs) → Invariant.call_ref cs = Some p →
               ∃ c, store st !! p = Some c ∧ hostname (info c) = h) →
  Inv config st'.
Proof.
  intros HI Hs Ht Hp Hn Hst Hcl He He' Hsh Hc1 Hc2 Hr.
  split; rewrite ?Hs, ?Ht, ?Hp, ?Hn, ?Hst, ?Hcl; try apply HI.
  - intros h p Hin. apply (inv_started _ _ HI). by apply He'.
  - intros i c Hi Hl. apply He. by eapply inv_stopped.
  - intros j s Hj. specialize (Hsh _ _ Hj).
    destruct s as [t|[t|]]; simpl in *; by rewrite ?Hst.
  - intros j h p Hj. eapply inv_call; eauto.
  - intros h p Hpe. destruct (inv_entry _ _ HI _ _ Hpe) as (j & Hj). eauto.
  - done.
  - intros j1 j2 h1 h2 p H1 H2. eapply inv_unique; eauto.
  - intros i c Hi Hsp. destruct (inv_spawn _ _ HI _ _ Hi Hsp) as (j & Hj). eauto.
Qed.

Lemma call_inv h cs st : Inv config st → answer config st h cs → Inv config (push_call h cs st).
Proof.
  intros HI Ha. eapply frame_inv; eauto; simpl.
  - apply HI.
  - intros j h' p [[_ Hj]|[_ ?]]%lookup_snoc_Some; [done|]. simplify_eq. done.
  - intros j h' p Hj. by apply lookup_app_l_Some.
  - intros j h' cs' p [[_ Hj]|[_ ?]]%lookup_snoc_Some Hr; [by eapply inv_ref|].
    simplify_eq. destruct cs' as [[i|e]|q|q|q]; simplify_eq/=; try done.
    + apply ready_record_Some in Ha as (c & Hs & Hc & _).
      destruct (inv_live _ _ HI _ _ Hs) as (c' & ? & ? & _). simplify_eq. eauto.
    + destruct (inv_entry _ _ HI _ _ Ha) as (j' & Hj'). by eapply (inv_ref _ _ HI j').
Qed.

Lemma event_inv e st :
  Inv config st → (∀ h p, e ≠ Started h p) → Inv config (emitEvent e st).
Proof.
  intros HI Hne. eapply frame_inv; eauto; simpl.
  - intros e' He. apply elem_of_app. by left.
  - intros h p [?|Hin%list_elem_of_singleton]%elem_of_app; [done|].
    subst e. by destruct (Hne h p).
  - apply HI.
  - apply HI.
Qed.

Lemma shut_inv f st :
  Inv config st →
  (∀ j s, f (shutdowns st) !! j = Some s → shut_ok st s) →
  Inv config (with_shutdowns f st).
Proof.
  intros HI Hf. eapply frame_inv; eauto. apply HI.
Qed.

Lemma resume_inv j h p c st :
  Inv config st → calls st !! j = Some (mkCall h (AwaitingSpawn p)) →
  store st !! p = Some c → is_settled (spawnPromise c) = true →
  Inv config (await_resumes j st).
Proof.
  intros HI Hj Hp Hs. unfold await_resumes. rewrite Hj, Hp, Hs.
  split; simpl; try apply HI.
  - intros j' h' p' Hj'.
    destruct (decide (j' = j)) as [->|Hne].
    { rewrite list_lookup_insert_eq in Hj' by (by eapply lookup_lt_Some). done. }
    rewrite list_lookup_insert_ne in Hj' by done.
    rewrite lookup_delete_ne; [by eapply inv_call|].
    intros <-. pose proof (inv_call _ _ HI _ _ _ Hj). pose proof (inv_call _ _ HI _ _ _ Hj').
    simplify_eq. apply Hne. by eapply inv_unique.
  - intros h' p' [Hne Hpe]%lookup_delete_Some.
    destruct (inv_entry _ _ HI _ _ Hpe) as (j' & Hj').
    exists j'. rewrite list_lookup_insert_ne; [done|]. intros <-. congruence.
  - intros j' h' cs p' Hj' Hr.
    destruct (decide (j' = j)) as [->|Hne].
    + rewrite list_lookup_insert_eq in Hj' by (by eapply lookup_lt_Some).
      simplify_eq/=. by eapply (inv_ref _ _ HI j).
    + rewrite list_lookup_insert_ne in Hj' by done. by eapply inv_ref.
  - intros j1 j2 h1 h2 p' H1 H2.
    destruct (decide (j1 = j)) as [->|Hne1].
    { rewrite list_lookup_insert_eq in H1 by (by eapply lookup_lt_Some). done. }
    destruct (decide (j2 = j)) as [->|Hne2].
    { rewrite list_lookup_insert_eq in H2 by (by eapply lookup_lt_Some). done. }
    rewrite list_lookup_insert_ne in H1, H2 by done. by eapply inv_unique.
  - intros i ci Hi Hsp. destruct (inv_spawn _ _ HI _ _ Hi Hsp) as (j' & Hj').
    exists j'. rewrite list_lookup_insert_ne; [done|].
    intros <-. simplify_eq. by rewrite Hsp in Hs.
  - intros h' p' i [Hne Hpe]%lookup_delete_Some Hsv. by eapply inv_same.
Qed.

Lemma change_inv st st' : Inv config st → Change config st st' → Inv config st'.
Proof.
  intros HI [h Hex Hpe Hcl Hlim|i c Hi Hph|? [i c c' del tail Hi HL|]|j h p c Hj Hp Hs
            |h cs Ha|h|f Hf].
  - by apply create_inv.
  - by eapply start_inv.
  - by apply move_inv.
  - by apply leave_inv.
  - by eapply resume_inv.
  - by apply call_inv.
  - by apply event_inv.
  - by apply shut_inv.
Qed.

Lemma changes_inv st st' : Inv config st → Changes config st st' → Inv config st'.
Proof. intros HI H. induction H; [done|]. eauto using change_inv. Qed.

Lemma locals_store st st' : rtc (Local config) st st' → store_keeps st st'.
Proof.
  intros H. induction H as [|x y z [i c c' del tail Hi HL|] _ IH]; [apply store_keeps_refl|..].
  - eapply store_keeps_trans; [by apply move_store|done].
  - eapply store_keeps_trans; [apply leave_store|done].
Qed.

Lemma halt_keeps t st : store_keeps st (halt t st).
Proof. apply locals_store, halt_moves. Qed.

Lemma shutdown_changes h st : Inv config st → Changes config st (shutdown h st).
Proof.
  intros HI. unfold shutdown.
  destruct (serverTasks st !! h) as [t|] eqn:Ht.
  - eapply rtc_r; [apply local_changes, halt_moves|]. apply ch_shut.
    pose proof (changes_inv _ _ HI (local_changes _ _ (halt_moves t st))) as HI'.
    intros j s [[_ Hj]|[_ <-]]%lookup_snoc_Some; [by eapply inv_shutdown|].
    rewrite (inv_tasks _ _ HI) in Ht.
    destruct (inv_live _ _ HI _ _ Ht) as (c & Hc & _ & Hl).
    destruct (halt_keeps t st _ _ Hc) as (c' & Hc' & K).
    exists c'. split; [done|]. apply K.
    unfold live in Hl. unfold began. by destruct (phase c) as [| | |[]| |].
  - apply rtc_once, ch_shut.
    intros j s [[_ Hj]|[_ <-]]%lookup_snoc_Some; [by eapply inv_shutdown|done].
Qed.

Lemma shutdown_resumes_changes j st : Inv config st → Changes config st (shutdown_resumes j st).
Proof.
  intros HI. unfold shutdown_resumes.
  destruct (shutdowns st !! j) as [[t|]|] eqn:Hj; try idle.
  destruct (store st !! t) as [c|] eqn:Ht; try idle.
  destruct (torn_down c) eqn:Htd; try idle.
  apply rtc_once, ch_shut.
  intros j' s Hj'. destruct (decide (j' = j)) as [->|Hne].
  - rewrite list_lookup_insert_eq in Hj' by (by eapply lookup_lt_Some).
    simplify_eq. destruct (inv_shutdown _ _ HI _ _ Hj) as (c' & Hc' & Hb).
    simplify_eq. exists c. done.
  - rewrite list_lookup_insert_ne in Hj' by done.
    by eapply inv_shutdown.
Qed.

Lemma doSpawnServer_changes i st : Changes config st (doSpawnServer i st).
Proof.
  destruct (store st !! i) as [c|] eqn:Hc.
  2: { unfold doSpawnServer. rewrite Hc. idle. }
  destruct (phase c) eqn:Hp.
  1: { apply rtc_once. by eapply ch_start. }
  all: unfold doSpawnServer; rewrite Hc, Hp; idle.
Qed.

Lemma step_changes l st : Inv config st → Changes config st (step config l st).
Proof.
  intros HI. destruct l; simpl.
  - apply getOrCreate_changes.
  - apply doSpawnServer_changes.
  - apply local_changes, on_listening_moves.
  - apply local_changes, on_listen_error_moves.
  - apply local_changes, spawn_settles_moves.
  - apply await_resumes_changes.
  - by apply shutdown_changes.
  - by apply shutdown_resumes_changes.
  - apply local_changes, server_died_moves.
  - apply local_changes, task_finally_moves.
  - apply local_changes, resource_closes_moves.
  - apply local_changes, close_emitted_moves.
  - apply rtc_once, ch_local, lo_leave.
Qed.

Lemma step_keeps_inv l st : Inv config st → Inv config (step config l st).
Proof. intros HI. eapply changes_inv; [done|]. by apply step_changes. Qed.

Lemma init_has_inv : Inv config (init config).
Proof.
  split; unfold init; simpl; try done.
  intros h p Hin. by apply elem_of_nil in Hin.
Qed.

Lemma exec_keeps_inv ls st : Inv config st → Inv config (exec config ls st).
Proof.
  revert st. induction ls as [|l ls IH]; intros st HI; simpl; [done|].
  by apply IH, step_keeps_inv.
Qed.

Lemma reachable_has_inv ls : Inv config (exec config ls (init config)).
Proof. apply exec_keeps_inv, init_has_inv. Qed.

End TaskFacts.

(** ** Ports, capacity, events and leaving the pool *)

Section TaskClaims.

Import Pool Tasks TaskInvariant.

Variable config : ServerPoolConfig.

Lemma exec_concat ls1 ls2 st :
  exec config (ls1 ++ ls2) st = exec config ls2 (exec config ls1 st).
Proof. revert st. induction ls1 as [|l ls1 IH]; intros st; simpl; [done|apply IH]. Qed.

(** *** How the store grows *)

Lemma change_store st st' : Change config st st' → store_keeps st st'.
Proof.
  intros [h Hex Hpe Hcl Hlim|i c Hi Hph|? [i c c' del tail Hi HL|]|j h p c Hj Hp Hs
         |h cs Ha|h|f Hf].
  - apply create_store.
  - by eapply start_store.
  - by eapply move_store.
  - apply leave_store.
  - apply store_keeps_eq. unfold await_resumes. by rewrite Hj, Hp, Hs.
  - by apply store_keeps_eq.
  - by apply store_keeps_eq.
  - by apply store_keeps_eq.
Qed.

Lemma changes_store st st' : Changes config st st' → store_keeps st st'.
Proof.
  intros H. induction H; [apply store_keeps_refl|].
  eapply store_keeps_trans; [by apply change_store|done].
Qed.

Lemma exec_changes ls st : Inv config st → Changes config st (exec config ls st).
Proof.
  revert st. induction ls as [|l ls IH]; intros st HI; simpl; [apply rtc_refl|].
  pose proof (step_changes config l st HI) as H1.
  pose proof (IH _ (step_keeps_inv config l st HI)) as H2.
  unfold Changes in *. by etrans.
Qed.

Lemma exec_keeps_store ls st : Inv config st → store_keeps st (exec config ls st).
Proof. intros HI. by apply changes_store, exec_changes. Qed.

(** *** Ports *)

Lemma to_double_exact (x : Z) : (- 2 ^ 53 ≤ x ≤ 2 ^ 53)%Z → to_double x = x.
Proof.
  intros Hx. unfold to_double.
  destruct (Z.abs x <=? 2 ^ 53)%Z eqn:E; [done|]. apply Z.leb_gt in E. lia.
Qed.

Lemma nth_port_exact (n : nat) :
  (- 2 ^ 53 ≤ basePort config)%Z → (basePort config + Z.of_nat n ≤ 2 ^ 53)%Z →
  nth_port config n = (basePort config + Z.of_nat n)%Z.
Proof.
  intros Hlo. induction n as [|n IH]; intros Hhi; unfold nth_port in *; simpl.
  - lia.
  - rewrite IH by lia. unfold increment. rewrite to_double_exact; lia.
Qed.

Lemma assigned_port_nth st i p :
  Inv config st → assigned_ports st !! i = Some p → p = nth_port config i.
Proof.
  intros HI. unfold assigned_ports. rewrite list_lookup_fmap.
  destruct (store st !! i) as [c|] eqn:Hi; [|done]. intros [= <-].
  by destruct (inv_wf _ _ HI _ _ Hi) as [? _].
Qed.

(** C7, amended: as long as the ports stay within the integers that
    JavaScript numbers hold exactly (from [-2^53] to [2^53]), the ports
    handed out by [getOrCreate] are [basePort], [basePort + 1], ... in the
    order they are handed out; later segments, teardown included, never
    change or drop what was handed out, so no port is handed out twice and
    every new port is above all earlier ones. *)
Theorem ports_strictly_increasing (ls : list Label) (i j : nat) (pi pj : Z) :
  let st := exec config ls (init config) in
  (- 2 ^ 53 ≤ basePort config)%Z →
  (basePort config + Z.of_nat (length (store st)) ≤ 2 ^ 53)%Z →
  assigned_ports st !! i = Some pi → assigned_ports st !! j = Some pj → i < j →
  pi = (basePort config + Z.of_nat i)%Z ∧
  pj = (basePort config + Z.of_nat j)%Z ∧
  (pi < pj)%Z ∧
  (pj < nextPort st)%Z ∧
  (∀ ls', assigned_ports (exec config ls' st) !! i = Some pi ∧
          assigned_ports (exec config ls' st) !! j = Some pj).
Proof.
  intros st Hlo Hhi Hi Hj Hlt.
  pose proof (reachable_has_inv config ls) as HI. fold st in HI.
  assert (j < length (store st)) as Hlen.
  { apply lookup_lt_Some in Hj. unfold assigned_ports in Hj.
    by rewrite length_fmap in Hj. }
  pose proof (assigned_port_nth _ _ _ HI Hi) as Hpi.
  pose proof (assigned_port_nth _ _ _ HI Hj) as Hpj.
  rewrite nth_port_exact in Hpi, Hpj by lia.
  split; [done|]. split; [done|]. split; [lia|]. split.
  - rewrite (inv_next _ _ HI), nth_port_exact by lia. lia.
  - intros ls'.
    assert (∀ k p, assigned_ports st !! k = Some p →
                   assigned_ports (exec config ls' st) !! k = Some p) as Hkeep.
    { intros k p. unfold assigned_ports. rewrite !list_lookup_fmap.
      destruct (store st !! k) as [c|] eqn:Hc; [|done]. intros [= <-].
      destruct (exec_keeps_store ls' st HI _ _ Hc) as (c' & -> & Hev). simpl.
      f_equal. apply Hev. }
    split; by apply Hkeep.
Qed.

(** *** Capacity *)

Lemma getOrCreate_outcomes h now st :
  let st' := getOrCreate config h now st in
  (store st' = store st ∧ servers st' = servers st ∧ serverTasks st' = serverTasks st ∧
   pendingCreations st' = pendingCreations st ∧ nextPort st' = nextPort st ∧
   closed st' = closed st) ∨
  (existing_ready st h = None ∧ pendingCreations st !! h = None ∧
   (Z.of_nat (size (servers st)) < limit config)%Z ∧ closed st = false ∧
   st' = if now then doSpawnServer (length (store st)) (create h st) else create h st).
Proof.
  intros st'. subst st'. unfold getOrCreate.
  destruct (existing_ready st h) as [i|] eqn:Hex; [by left|].
  destruct (pendingCreations st !! h) as [p|] eqn:Hpe; [by left|].
  destruct (limit config <=? Z.of_nat (size (servers st)))%Z eqn:Hlim; [by left|].
  apply Z.leb_gt in Hlim.
  destruct (closed st) eqn:Hcl; [by left|].
  right. repeat split; try done.
  destruct now; [|done].
  rewrite (doSpawnServer_at _ _ _ (create_lookup h st) eq_refl).
  unfold doSpawnServer. simpl. rewrite list_lookup_middle by done. simpl.
  unfold create, push_call, with_calls, with_pendingCreations, with_registry,
    with_store, update; simpl.
  rewrite (alter_at _ _ _ _ (list_lookup_middle _ _ _ _ eq_refl)).
  done.
Qed.

(** What a call from outside any operation that finds room leaves. *)
Lemma create_now h st :
  let n := length (store st) in
  let st' := doSpawnServer n (create h st) in
  servers st' = <[h := n]> (servers st) ∧
  serverTasks st' = <[h := n]> (serverTasks st) ∧
  pendingCreations st' = <[h := n]> (pendingCreations st) ∧
  nextPort st' = increment (nextPort st) ∧
  store st' =
    store st ++ [mkCreation (mkInfo h (nextPort st) None (Some n)) Pending Starting
                            Pending Binding] ∧
  calls st' = calls st ++ [mkCall h (AwaitingSpawn n)] ∧
  events st' = events st ∧ closed st' = closed st ∧ shutdowns st' = shutdowns st.
Proof.
  intros n st'. subst st' n.
  rewrite (doSpawnServer_at _ _ _ (create_lookup h st) eq_refl).
  unfold create; simpl. repeat split; try done.
  replace (length (store st)) with (length (store st) + 0) at 1 by lia.
  by rewrite insert_app_r.
Qed.

Lemma quiet_refl st : Quiet st st.
Proof. split; [done|]. eauto. Qed.

Lemma quiet_trans st1 st2 st3 : Quiet st1 st2 → Quiet st2 st3 → Quiet st1 st3.
Proof.
  intros [H1 K1] [H2 K2]. split; [lia|].
  intros i c3 Hi Hp. destruct (K2 _ _ Hi Hp) as (c2 & Hi2 & Hp2). eauto.
Qed.

Lemma quiet_eq st st' : servers st' = servers st → store st' = store st → Quiet st st'.
Proof. intros Hs Hst. split; rewrite ?Hs, ?Hst; [done|eauto]. Qed.

Lemma size_delete_le (h : string) (m : gmap string nat) :
  (size (delete h m) ≤ size m)%nat.
Proof.
  destruct (m !! h) eqn:E.
  - rewrite map_size_delete_Some by eauto. lia.
  - by rewrite map_size_delete_None.
Qed.

Lemma local_quiet st st' : Local config st st' → Quiet st st'.
Proof.
  intros [i c c' del tail Hi HL|]; split; simpl.
  - destruct del; [apply size_delete_le|done].
  - intros j cj Hj Hp. destruct (decide (j = i)) as [->|Hne].
    + rewrite list_lookup_insert_eq in Hj by (by eapply lookup_lt_Some).
      simplify_eq. exists c. split; [done|]. by apply (ls_unstarted _ _ _ _ _ _ HL).
    + rewrite list_lookup_insert_ne in Hj by done. eauto.
  - done.
  - intros j cj Hj Hp. rewrite list_lookup_fmap in Hj.
    destruct (store st !! j) as [c|] eqn:Hc; simplify_eq/=.
    unfold halted in Hp. simpl in Hp. by destruct (phase c).
Qed.

Lemma locals_quiet st st' : rtc (Local config) st st' → Quiet st st'.
Proof.
  intros H. induction H; [apply quiet_refl|].
  eapply quiet_trans; [by apply local_quiet|done].
Qed.

Lemma step_quiet l st :
  match l with GetOrCreate _ _ | SpawnStarts _ => False | _ => True end →
  Quiet st (step config l st).
Proof.
  destruct l; simpl; try done; intros _.
  - apply locals_quiet, on_listening_moves.
  - apply locals_quiet, on_listen_error_moves.
  - apply locals_quiet, spawn_settles_moves.
  - apply quiet_eq; unfold await_resumes; repeat case_match; done.
  - unfold shutdown. case_match.
    + eapply quiet_trans; [apply locals_quiet, halt_moves|]. by apply quiet_eq.
    + by apply quiet_eq.
  - apply quiet_eq; unfold shutdown_resumes; repeat case_match; done.
  - apply locals_quiet, server_died_moves.
  - apply locals_quiet, task_finally_moves.
  - apply locals_quiet, resource_closes_moves.
  - apply locals_quiet, close_emitted_moves.
  - apply locals_quiet, rtc_once, lo_leave.
Qed.

Lemma doSpawnServer_idle i st :
  (∀ c, store st !! i = Some c → phase c ≠ Unstarted) → doSpawnServer i st = st.
Proof.
  intros H. unfold doSpawnServer. destruct (store st !! i) as [c|] eqn:Hc; [|done].
  specialize (H c eq_refl). by destruct (phase c).
Qed.

Lemma step_immediate l st :
  (0 ≤ limit config)%Z → immediate l = true →
  (∀ i c, store st !! i = Some c → phase c ≠ Unstarted) →
  (Z.of_nat (size (servers st)) ≤ limit config)%Z →
  (∀ i c, store (step config l st) !! i = Some c → phase c ≠ Unstarted) ∧
  (Z.of_nat (size (servers (step config l st))) ≤ limit config)%Z.
Proof.
  intros Hlim Him Hun Hsz.
  assert (Quiet st (step config l st) →
          (∀ i c, store (step config l st) !! i = Some c → phase c ≠ Unstarted) ∧
          (Z.of_nat (size (servers (step config l st))) ≤ limit config)%Z) as Hq.
  { intros [Hs Hu]. split; [|lia].
    intros i c Hi Hp. destruct (Hu _ _ Hi Hp) as (c0 & Hi0 & Hp0). by eapply Hun. }
  destruct l as [h now|i| | | | | | | | | | |]; try (by apply Hq, step_quiet).
  - simpl in Him. subst now. simpl.
    destruct (getOrCreate_outcomes h true st) as [(Hst & Hs & _)|(_ & _ & Hlt & _ & ->)].
    + rewrite Hst, Hs. done.
    + destruct (create_now h st) as (Hs & _ & _ & _ & Hst & _). rewrite Hs, Hst. split.
      * intros i c [[_ Hi]|[_ <-]]%lookup_snoc_Some; [by eapply Hun|done].
      * pose proof (map_size_insert h (length (store st)) (servers st)) as Hsize.
        destruct (servers st !! h); simpl in Hsize; lia.
  - simpl. rewrite doSpawnServer_idle; [done|]. intros c. apply Hun.
Qed.

Lemma exec_immediate ls st :
  (0 ≤ limit config)%Z → forallb immediate ls = true →
  (∀ i c, store st !! i = Some c → phase c ≠ Unstarted) →
  (Z.of_nat (size (servers st)) ≤ limit config)%Z →
  (∀ i c, store (exec config ls st) !! i = Some c → phase c ≠ Unstarted) ∧
  (Z.of_nat (size (servers (exec config ls st))) ≤ limit config)%Z.
Proof.
  intros Hlim. revert st. induction ls as [|l ls IH]; intros st Him Hun Hsz; simpl; [done|].
  simpl in Him. apply andb_prop in Him as [Hl Hls].
  destruct (step_immediate l st Hlim Hl Hun Hsz) as [Hun' Hsz'].
  by apply IH.
Qed.

(** C2, as far as it holds: as long as every [getOrCreate] is called from
    outside any operation, so that [scope.run] starts the spawn task
    before it returns, the registry holds at most [maxServers] records in
    every state and no creation waits to be registered; the segment of a
    call that finds room stores the record of the new key before it ends,
    so a second [getOrCreate] for another new key counts it. *)
Theorem registry_within_capacity (ls : list Label) (h1 h2 : string) :
  (0 ≤ limit config)%Z → forallb immediate ls = true →
  let st := exec config ls (init config) in
  let st1 := getOrCreate config h1 true st in
  (Z.of_nat (size (servers st)) ≤ limit config)%Z ∧
  (∀ i c, store st !! i = Some c → phase c ≠ Unstarted) ∧
  (store st1 ≠ store st →
   (Z.of_nat (size (servers st)) < limit config)%Z ∧
   servers st1 = <[h1 := length (store st)]> (servers st) ∧
   ∃ c, store st1 !! length (store st) = Some c ∧
        phase c = Starting ∧ server (info c) = None) ∧
  (Z.of_nat (size (servers (getOrCreate config h2 true st1))) ≤ limit config)%Z.
Proof.
  intros Hlim Him st st1.
  assert (∀ i c, store (init config) !! i = Some c → phase c ≠ Unstarted) as H0 by done.
  assert (Z.of_nat (size (servers (init config))) ≤ limit config)%Z as H1.
  { unfold init. simpl. by rewrite map_size_empty. }
  destruct (exec_immediate ls _ Hlim Him H0 H1) as [Hun Hsz]. fold st in Hun, Hsz.
  split; [done|]. split; [done|]. split.
  - intros Hne. subst st1.
    destruct (getOrCreate_outcomes h1 true st) as [(Hst & _)|(_ & _ & Hlt & _ & Heq)]; [done|].
    rewrite Heq. destruct (create_now h1 st) as (Hs & _ & _ & _ & Hst & _).
    split; [done|]. split; [done|]. rewrite Hst.
    eexists. split; [by apply list_lookup_middle|done].
  - assert (forallb immediate (ls ++ [GetOrCreate h1 true; GetOrCreate h2 true]) = true)
      as Him2 by (rewrite forallb_app, Him; done).
    destruct (exec_immediate _ _ Hlim Him2 H0 H1) as [_ Hsz2].
    by rewrite exec_concat in Hsz2.
Qed.

(** *** Events and teardown *)




Lemma tail_of_ordered c del tail : tail_of c del tail → ordered tail = true.
Proof.
  unfold tail_of. intros H.
  repeat case_match; subst; try done; destruct_and?; simplify_eq/=.
  by rewrite String.eqb_refl.
Qed.

(** What one change adds to the event log. *)
Lemma change_events st st' :
  Change config st st' →
  ∃ tail, events st' = events st ++ tail ∧ ordered tail = true ∧
          (closed st = true → delivered st' = delivered st ∧ closed st' = true).
Proof.
  intros [h Hex Hpe Hcl Hlim|i c Hi Hph|? [i c c' del tail Hi HL|]|j h p c Hj Hp Hs
         |h cs Ha|h|f Hf].
  - exists []. rewrite app_nil_r. split; [done|]. split; [done|]. congruence.
  - exists []. rewrite app_nil_r, (doSpawnServer_at _ _ _ Hi Hph). by repeat split.
  - exists tail. split; [done|]. split; [by eapply tail_of_ordered, ls_tail|].
    simpl. by intros ->.
  - exists []. rewrite app_nil_r. by repeat split.
  - exists []. rewrite app_nil_r. unfold await_resumes. rewrite Hj, Hp, Hs. by repeat split.
  - exists []. rewrite app_nil_r. by repeat split.
  - eexists. split; [done|]. split; [done|]. simpl. by intros ->.
  - exists []. rewrite app_nil_r. by repeat split.
Qed.




(** *** Leaving the pool *)

Lemma stops_refl st : stops_logged st st.
Proof.
  exists []. split; [by rewrite app_nil_r|].
  intros i c Hi. exists c. repeat split; try done. congruence.
Qed.

Lemma stops_trans st1 st2 st3 :
  stops_logged st1 st2 → stops_logged st2 st3 → stops_logged st1 st3.
Proof.
  intros (t1 & He1 & H1) (t2 & He2 & H2). exists (t1 ++ t2).
  split; [by rewrite He2, He1, app_assoc|].
  intros i c Hi. destruct (H1 _ _ Hi) as (c2 & Hc2 & Hh2 & Hs2).
  destruct (H2 _ _ Hc2) as (c3 & Hc3 & Hh3 & Hs3).
  exists c3. split; [done|]. split; [congruence|].
  intros Hl Hl3. apply elem_of_app.
  destruct (live c2) eqn:Hl2.
  - right. rewrite <- Hh2. by apply Hs3.
  - left. by apply Hs2.
Qed.

Lemma stops_same st st' :
  store st' = store st → (∃ tail, events st' = events st ++ tail) → stops_logged st st'.
Proof.
  intros Hst [tail He]. exists tail. split; [done|].
  intros i c Hi. exists c. rewrite Hst. repeat split; try done. congruence.
Qed.

Lemma change_stops st st' : Change config st st' → stops_logged st st'.
Proof.
  intros [h Hex Hpe Hcl Hlim|i c Hi Hph|? [i c c' del tail Hi HL|]|j h p c Hj Hp Hs
         |h cs Ha|h|f Hf].
  - exists []. split; [by rewrite app_nil_r|].
    intros j cj Hj. exists cj. split; [by apply lookup_app_l_Some|].
    split; [done|congruence].
  - exists []. rewrite (doSpawnServer_at _ _ _ Hi Hph). split; [by rewrite app_nil_r|].
    intros j cj Hj. simpl. destruct (decide (j = i)) as [->|Hne].
    + simplify_eq. eexists.
      split; [apply list_lookup_insert_eq; by eapply lookup_lt_Some|].
      split; [done|]. unfold live. by rewrite Hph.
    + exists cj. rewrite list_lookup_insert_ne by done. split; [done|].
      split; [done|congruence].
  - exists tail. split; [done|]. unfold apply_local; simpl.
    intros j cj Hj. destruct (decide (j = i)) as [->|Hne].
    + simplify_eq. exists c'.
      split; [apply list_lookup_insert_eq; by eapply lookup_lt_Some|].
      split; [by apply (ls_host _ _ _ _ _ _ HL)|].
      intros Hl Hl'. pose proof (ls_live _ _ _ _ _ _ HL) as Hlive.
      rewrite Hl' in Hlive. destruct del; [|congruence].
      eapply tail_has_stopped; [by eapply ls_tail|done].
    + exists cj. rewrite list_lookup_insert_ne by done.
      repeat split; try done. congruence.
  - exists []. split; [by rewrite app_nil_r|].
    intros j cj Hj. exists (halted cj). unfold leave; simpl.
    rewrite list_lookup_fmap, Hj. split; [done|]. split; [done|].
    intros Hl Hl'. exfalso. clear -Hl Hl'. unfold live, halted in *; simpl in *.
    destruct (phase cj) as [| | |[]| |]; done.
  - apply stops_same; [|exists []; rewrite app_nil_r];
      unfold await_resumes; by rewrite Hj, Hp, Hs.
  - apply stops_same; [done|]. exists []. by rewrite app_nil_r.
  - apply stops_same; [done|]. by eexists.
  - apply stops_same; [done|]. exists []. by rewrite app_nil_r.
Qed.

Lemma changes_stops st st' : Changes config st st' → stops_logged st st'.
Proof.
  intros H. induction H; [apply stops_refl|].
  eapply stops_trans; [by apply change_stops|done].
Qed.

(** Once the pool was left it stays left, and nothing more is delivered. *)
Lemma changes_closed st st' :
  Changes config st st' → closed st = true →
  closed st' = true ∧ delivered st' = delivered st.
Proof.
  intros H. induction H as [|x y z Hxy _ IH]; [done|]. intros Hcl.
  destruct (change_events _ _ Hxy) as (_ & _ & _ & Hd).
  destruct (Hd Hcl) as [Hd1 Hcl1]. destruct (IH Hcl1) as [? ?].
  split; [done|congruence].
Qed.

Lemma exec_closed ls st :
  Inv config st → closed st = true →
  closed (exec config ls st) = true ∧ delivered (exec config ls st) = delivered st.
Proof. intros HI. by apply changes_closed, exec_changes. Qed.

Lemma locals_length st st' :
  rtc (Local config) st st' → length (store st') = length (store st).
Proof.
  intros H. induction H as [|x y z [i c c' del tail Hi HL|] _ IH]; [done|..];
    rewrite IH; simpl; [apply length_insert|apply length_fmap].
Qed.

Lemma finish_teardown_length i st :
  length (store (exec config (finish_teardown i) st)) = length (store st).
Proof.
  simpl. rewrite (locals_length _ _ (close_emitted_moves config i _)).
  rewrite (locals_length _ _ (resource_closes_moves config i _)).
  apply (locals_length _ _ (task_finally_moves config i _)).
Qed.

Lemma teardown_finishes i c st :
  Inv config st → closed st = true → store st !! i = Some c →
  ∃ c', store (exec config (finish_teardown i) st) !! i = Some c' ∧
        torn_down c' = true.
Proof.
  intros HI Hcl Hi.
  pose proof (inv_wf _ _ HI _ _ Hi) as Hwf.
  pose proof (inv_closed _ _ HI Hcl _ _ Hi) as Hact.
  destruct c as [[h p sv tk] rp lc sp so]. unfold wf, active in *. simpl in *.
  destruct lc as [| | |f r| |]; try done.
  - destruct Hwf as (_ & _ & [(-> & _ & -> & Hso)|(-> & _ & -> & -> & Hso)]).
    + destruct f, r; simpl in Hso; destruct_and?; destruct_or?; simplify_eq;
        unfold task_finally, resource_closes, close_emitted, update, finally_block;
        repeat (simpl; rewrite ?list_lookup_alter_eq, ?Hi); simpl; eauto.
    + destruct f; destruct_or?; simplify_eq;
        unfold task_finally, resource_closes, close_emitted, update, finally_block;
        repeat (simpl; rewrite ?list_lookup_alter_eq, ?Hi); simpl; eauto.
  - destruct Hwf as (_ & _ & _ & _ & _ & ->).
    unfold task_finally, resource_closes, close_emitted.
    repeat (simpl; rewrite ?Hi). eauto.
  - destruct Hwf as (_ & _ & _ & _ & _ & ->).
    unfold task_finally, resource_closes, close_emitted.
    repeat (simpl; rewrite ?Hi). eauto.
Qed.

Lemma drain_finishes tasks st :
  Inv config st → closed st = true →
  let st' := exec config (flat_map finish_teardown tasks) st in
  length (store st') = length (store st) ∧
  ∀ j, j ∈ tasks → j < length (store st) →
       ∃ c, store st' !! j = Some c ∧ torn_down c = true.
Proof.
  revert st. induction tasks as [|i tasks IH]; intros st HI Hcl; simpl.
  { split; [done|]. intros j Hj. by apply elem_of_nil in Hj. }
  set (st1 := close_emitted i (resource_closes i (task_finally i st))).
  assert (st1 = exec config (finish_teardown i) st) as Hst1 by done.
  assert (Inv config st1) as HI1 by (rewrite Hst1; by apply exec_keeps_inv).
  assert (closed st1 = true) as Hcl1 by (rewrite Hst1; by apply exec_closed).
  assert (length (store st1) = length (store st)) as Hlen1
    by (rewrite Hst1; apply finish_teardown_length).
  destruct (IH st1 HI1 Hcl1) as (Hlen' & Htd').
  split; [congruence|].
  intros j Hj Hlt. apply elem_of_cons in Hj as [->|Hj].
  - destruct (lookup_lt_is_Some_2 _ _ Hlt) as [c Hc].
    destruct (teardown_finishes i c st HI Hcl Hc) as (c1 & Hc1 & Htd1).
    rewrite <- Hst1 in Hc1.
    destruct (exec_keeps_store (flat_map finish_teardown tasks) st1 HI1 _ _ Hc1)
      as (c2 & Hc2 & Hev).
    exists c2. split; [done|]. by apply Hev.
  - apply Htd'; [done|]. by rewrite Hlen1.
Qed.

Lemma forallb_at {A} (f : A → bool) (l : list A) :
  forallb f l = true ↔ ∀ i x, l !! i = Some x → f x = true.
Proof.
  rewrite forallb_forall. split.
  - intros H i x Hi. apply H, list_elem_of_In. by eapply list_elem_of_lookup_2.
  - intros H x Hx. apply list_elem_of_In, list_elem_of_lookup in Hx as [i Hi]. eauto.
Qed.

(** C8, as far as it holds: when the pool is left, the event signal is
    closed first and every task is halted; from then on nothing is
    delivered to the subscribers of [pool.events].  A task that was
    registered has not ended then.  Once every task has ended, the
    registry is empty, every key that was registered has had its
    [stopped] event passed to the closed signal, and the sockets of the
    servers that had started are closed.  The teardown segments of every
    task do bring the pool there. *)
Theorem pool_termination (ls ls' : list Label) :
  let st0 := exec config ls (init config) in
  let st1 := leave st0 in
  let st2 := exec config ls' st1 in
  (closed st1 = true ∧ events st1 = events st0 ∧
   ∀ i c, store st1 !! i = Some c → active c = false) ∧
  delivered st2 = delivered st0 ∧
  (forallb torn_down (store st2) = true →
   servers st2 = ∅ ∧ serverTasks st2 = ∅ ∧
   (∀ h, is_Some (servers st0 !! h) →
         Stopped h ∈ drop (length (events st0)) (events st2)) ∧
   (∀ i c, store st2 !! i = Some c → is_Some (server (info c)) → socket c = Closed)) ∧
  ((∃ i c, store st0 !! i = Some c ∧ live c = true) →
   forallb torn_down (store st1) = false) ∧
  forallb torn_down (store (exec config (drain (length (store st0))) st1)) = true.
Proof.
  intros st0 st1 st2.
  pose proof (reachable_has_inv config ls) as HI0. fold st0 in HI0.
  assert (Inv config st1) as HI1 by (by apply leave_inv).
  assert (Inv config st2) as HI2 by (by apply exec_keeps_inv).
  assert (closed st1 = true) as Hcl1 by done.
  split; [|split; [|split; [|split]]].
  - split; [done|]. split; [done|]. by apply (inv_closed _ _ HI1).
  - destruct (exec_closed ls' st1 HI1 Hcl1) as [_ Hd]. unfold st2. by rewrite Hd.
  - intros Hall. rewrite forallb_at in Hall.
    assert (∀ i c, store st2 !! i = Some c → live c = false) as Hdead.
    { intros i c Hi. specialize (Hall _ _ Hi). unfold torn_down, live in *.
      destruct (phase c) as [| | |[] []| |]; done. }
    assert (servers st2 = ∅) as Hempty.
    { apply map_eq. intros k. rewrite lookup_empty.
      destruct (servers st2 !! k) as [i|] eqn:Hk; [|done].
      destruct (inv_live _ _ HI2 _ _ Hk) as (c & Hc & _ & Hlive).
      by rewrite (Hdead _ _ Hc) in Hlive. }
    split; [done|]. split; [by rewrite (inv_tasks _ _ HI2)|]. split.
    + intros h [i Hh].
      destruct (inv_live _ _ HI0 _ _ Hh) as (c & Hc & <- & Hlive).
      assert (stops_logged st0 st2) as (tail & Hev & Hst).
      { eapply stops_trans.
        - apply change_stops, ch_local, lo_leave.
        - by apply changes_stops, exec_changes. }
      destruct (Hst _ _ Hc) as (c2 & Hc2 & _ & Hstop).
      rewrite Hev, drop_app_length.
      apply Hstop; [done|]. by eapply Hdead.
    + intros i c Hi [v Hv]. pose proof (inv_wf _ _ HI2 _ _ Hi) as Hwf.
      specialize (Hall _ _ Hi). clear -Hwf Hall Hv. unfold wf, torn_down in *.
      destruct (phase c) as [| | |[] []| |]; try done; intuition congruence.
  - intros (i & c & Hi & Hl).
    destruct (forallb torn_down (store st1)) eqn:Hf; [|done].
    rewrite forallb_at in Hf.
    assert (store st1 !! i = Some (halted c)) as Hi1.
    { unfold st1, leave; simpl. by rewrite list_lookup_fmap, Hi. }
    specialize (Hf _ _ Hi1). exfalso. clear -Hf Hl.
    unfold torn_down, live, halted in *; simpl in *.
    destruct (phase c) as [| | |[] []| |]; done.
  - destruct (drain_finishes (seq 0 (length (store st0))) st1 HI1 Hcl1) as (Hlen & Htd).
    unfold drain. apply forallb_at. intros i c Hi.
    assert (i < length (store st1)) as Hlt.
    { apply lookup_lt_Some in Hi. by rewrite Hlen in Hi. }
    destruct (Htd i) as (c' & Hc' & Htd'); [|done|congruence].
    apply elem_of_seq. unfold st1, leave in Hlt. simpl in Hlt.
    rewrite length_fmap in Hlt. lia.
Qed.

End TaskClaims.

(** ** Calls, failed starts and deduplication *)

Section TaskCalls.

Import Pool Tasks TaskInvariant.
Import Invariant (call_ref, call_evolves).

Variable config : ServerPoolConfig.

Lemma changes_ind (Q : State → Prop) st st' :
  Inv config st → Q st →
  (∀ s s', Inv config s → Q s → Change config s s' → Q s') →
  Changes config st st' → Q st'.
Proof.
  intros HI HQ Hstep H. induction H as [|x y z Hxy _ IH]; [done|].
  apply IH; [by eapply change_inv|by eapply Hstep].
Qed.

Lemma exec_by_changes (Q : State → Prop) st ls :
  Inv config st → Q st →
  (∀ s s', Inv config s → Q s → Change config s s' → Q s') →
  Q (exec config ls st).
Proof.
  intros HI HQ Hstep. eapply changes_ind; eauto. by apply exec_changes.
Qed.

(** *** Calls *)

Lemma call_keeps_refl k : call_evolves k k.
Proof. split; [done|by left]. Qed.

Lemma call_keeps_trans k1 k2 k3 :
  call_evolves k1 k2 → call_evolves k2 k3 → call_evolves k1 k3.
Proof.
  intros [H1 [E1|(p & E1 & E1')]] [H2 [E2|(q & E2 & E2')]]; split; try congruence.
  - left. congruence.
  - right. exists q. split; congruence.
  - right. exists p. split; congruence.
Qed.

Lemma calls_keep_refl st : calls_evolve st st.
Proof. intros j k Hj. exists k. split; [done|apply call_keeps_refl]. Qed.

Lemma calls_keep_eq st st' : calls st' = calls st → calls_evolve st st'.
Proof. intros Heq j k Hj. exists k. rewrite Heq. split; [done|apply call_keeps_refl]. Qed.

Lemma calls_keep_trans st1 st2 st3 :
  calls_evolve st1 st2 → calls_evolve st2 st3 → calls_evolve st1 st3.
Proof.
  intros H12 H23 j k Hj.
  destruct (H12 _ _ Hj) as (k2 & Hj2 & E12).
  destruct (H23 _ _ Hj2) as (k3 & Hj3 & E23).
  exists k3. split; [done|]. by eapply call_keeps_trans.
Qed.

Lemma calls_evolve_push st st' l : calls st' = calls st ++ l → calls_evolve st st'.
Proof.
  intros Heq j k Hj. exists k. split; [|apply call_keeps_refl].
  rewrite Heq. by apply lookup_app_l_Some.
Qed.

Lemma change_calls st st' : Change config st st' → calls_evolve st st'.
Proof.
  intros [h Hex Hpe Hcl Hlim|i c Hi Hph|? [i c c' del tail Hi HL|]|j h p c Hj Hp Hs
         |h cs Ha|h|f Hf]; try (by apply calls_keep_eq).
  - by eapply calls_evolve_push.
  - apply calls_keep_eq. by rewrite (doSpawnServer_at _ _ _ Hi Hph).
  - unfold await_resumes. rewrite Hj, Hp, Hs. intros j' k Hj'. simpl.
    destruct (decide (j' = j)) as [->|Hne].
    + simplify_eq. eexists. split.
      { apply list_lookup_insert_eq. by eapply lookup_lt_Some. }
      split; [done|]. right. by exists p.
    + exists k. rewrite list_lookup_insert_ne by done.
      split; [done|apply call_keeps_refl].
  - by eapply calls_evolve_push.
Qed.

Lemma changes_calls st st' : Changes config st st' → calls_evolve st st'.
Proof.
  intros H. induction H; [apply calls_keep_refl|].
  eapply calls_keep_trans; [by apply change_calls|done].
Qed.

Lemma exec_keeps_calls ls st : Inv config st → calls_evolve st (exec config ls st).
Proof. intros HI. by apply changes_calls, exec_changes. Qed.

(** *** Once the pool was left *)



(** *** A server that fails to start *)



(** *** Deduplication *)

Lemma getOrCreate_creates h now st :
  existing_ready st h = None → pendingCreations st !! h = None →
  (Z.of_nat (size (servers st)) < limit config)%Z → closed st = false →
  getOrCreate config h now st =
  if now then doSpawnServer (length (store st)) (create h st) else create h st.
Proof.
  intros Hex Hpe Hlim Hcl. unfold getOrCreate. rewrite Hex, Hpe, Hcl.
  destruct (limit config <=? Z.of_nat (size (servers st)))%Z eqn:E.
  { apply Z.leb_le in E. lia. }
  destruct now; [|done].
  rewrite (doSpawnServer_at _ _ _ (create_lookup h st) eq_refl).
  unfold doSpawnServer. simpl. rewrite list_lookup_middle by done. simpl.
  unfold create, push_call, with_calls, with_pendingCreations, with_registry,
    with_store, update; simpl.
  rewrite (alter_at _ _ _ _ (list_lookup_middle _ _ _ _ eq_refl)).
  done.
Qed.

Lemma getOrCreate_second h now st p j :
  Inv config st → calls st !! j = Some (mkCall h (AwaitingSpawn p)) →
  pendingCreations st !! h = Some p ∧
  ∃ cs, getOrCreate config h now st = push_call h cs st ∧
        ((cs = ReturnedPending p ∧ existing_ready st h = None) ∨
         (cs = Returned (Resolved p) ∧
          ∃ c, store st !! p = Some c ∧ readyPromise c = Fulfilled)).
Proof.
  intros HI Hj. pose proof (inv_call _ _ HI _ _ _ Hj) as Hpe. split; [done|].
  unfold getOrCreate. destruct (existing_ready st h) as [i|] eqn:Hex.
  - apply ready_record_Some in Hex as (c & Hs & Hc & Hv).
    pose proof (inv_same _ _ HI _ _ _ Hpe Hs) as ->.
    eexists. split; [done|]. right. split; [done|]. exists c. split; [done|].
    pose proof (inv_wf _ _ HI _ _ Hc) as Hwf. destruct Hv as [v Hv].
    clear -Hwf Hv. unfold wf in Hwf.
    destruct (phase c) as [| | |f r| |]; intuition congruence.
  - rewrite Hpe. eexists. split; [done|]. by left.
Qed.

Lemma fulfilled_server i c :
  wf config i c → readyPromise c = Fulfilled → server (info c) = Some i.
Proof.
  unfold wf, unsettled_or. intros Hwf Hr.
  destruct (phase c) as [| | |f r| |]; destruct_and?; try congruence; try done.
  - destruct_or?; destruct_and?; try congruence; done.
  - by match goal with H : ∃ m, readyPromise c = _ |- _ => destruct H; congruence end.
Qed.

(** The spawn task of a creation whose server started returns its record. *)
Lemma fulfilled_spawn i c :
  wf config i c → readyPromise c = Fulfilled →
  spawnPromise c = Pending ∨ spawnPromise c = Fulfilled.
Proof.
  unfold wf, unsettled_or. intros Hwf Hr.
  destruct (phase c) as [| | |f r| |]; destruct_and?; try congruence; try done.
  - destruct_or?; destruct_and?; try congruence; done.
  - by match goal with H : ∃ m, readyPromise c = _ |- _ => destruct H; congruence end.
Qed.

Ltac run_on Hp Hj :=
  unfold doSpawnServer, on_listening, on_listen_error, spawn_settles, await_resumes,
    leave, update, finally_block, catch_block;
  repeat (simpl; rewrite ?list_lookup_fmap, ?list_lookup_alter_eq, ?Hp, ?Hj).

(** Once the server listens, the spawn task returns and the invocation at
    its [await] resumes. *)
Lemma listening_resolves st p j h c :
  Inv config st → store st !! p = Some c → active c = true →
  calls st !! j = Some (mkCall h (AwaitingSpawn p)) →
  let ok := exec config [SpawnStarts p; NowListening p; SpawnSettles p; AwaitResumes j] st in
  calls ok = <[j := mkCall h (Resumed p)]> (calls st) ∧
  ∃ c', store ok !! p = Some c' ∧ spawnPromise c' = Fulfilled.
Proof.
  intros HI Hp Ha Hj. pose proof (inv_wf _ _ HI _ _ Hp) as Hwf.
  destruct c as [[hh pp sv tk] rp ph sp so]. unfold wf, unsettled_or, active in *.
  simpl in *.
  destruct ph; try done; destruct_and?; simplify_eq/=.
  - run_on Hp Hj. eauto.
  - run_on Hp Hj. eauto.
  - destruct_or?; simplify_eq; run_on Hp Hj; eauto.
Qed.

(** When the server fails to start, the spawn task is halted and the
    invocation at its [await] resumes. *)
Lemma failure_rejects st p j h c m :
  Inv config st → store st !! p = Some c → active c = true → server (info c) = None →
  calls st !! j = Some (mkCall h (AwaitingSpawn p)) →
  let ko := exec config [SpawnStarts p; ListenFailed p m; AwaitResumes j] st in
  calls ko = <[j := mkCall h (Resumed p)]> (calls st) ∧
  ∃ c', store ko !! p = Some c' ∧ spawnPromise c' = Rejected HaltedError.
Proof.
  intros HI Hp Ha Hv Hj. pose proof (inv_wf _ _ HI _ _ Hp) as Hwf.
  destruct c as [[hh pp sv tk] rp ph sp so]. unfold wf, unsettled_or, active in *.
  simpl in *.
  destruct ph; try done; destruct_and?; simplify_eq/=.
  - run_on Hp Hj. eauto.
  - run_on Hp Hj. eauto.
Qed.

(** C1: a [getOrCreate] that has to create starts exactly one creation:
    one record, one port, one pending entry naming it.  As long as that
    invocation is at its [await], whatever happened in between, another
    [getOrCreate] for the hostname starts nothing: it returns the pending
    promise, or the record of that very creation once its server
    listens.  Whenever both invocations have completed they have
    completed alike; and they do complete: with the record once the
    server listens, with the same error when it fails to start. *)
Theorem getOrCreate_deduplicates (ls : list Label) (h : string) (now : bool) :
  let st := exec config ls (init config) in
  existing_ready st h = None → pendingCreations st !! h = None →
  (Z.of_nat (size (servers st)) < limit config)%Z → closed st = false →
  let p := length (store st) in
  let j := length (calls st) in
  let st1 := getOrCreate config h now st in
  length (store st1) = S p ∧ nextPort st1 = increment (nextPort st) ∧
  (∃ c, store st1 !! p = Some c ∧ hostname (info c) = h ∧
        port (info c) = nextPort st ∧ spawnPromise c = Pending ∧ active c = true) ∧
  calls st1 !! j = Some (mkCall h (AwaitingSpawn p)) ∧
  pendingCreations st1 !! h = Some p ∧
  ∀ ls1 now',
    let st2 := exec config ls1 st1 in
    calls st2 !! j = Some (mkCall h (AwaitingSpawn p)) →
    let j' := length (calls st2) in
    let st3 := getOrCreate config h now' st2 in
    store st3 = store st2 ∧ nextPort st3 = nextPort st2 ∧
    servers st3 = servers st2 ∧ pendingCreations st3 = pendingCreations st2 ∧
    pendingCreations st2 !! h = Some p ∧
    (∃ cs, calls st3 !! j' = Some (mkCall h cs) ∧
           (cs = ReturnedPending p ∨ cs = Returned (Resolved p))) ∧
    (∀ ls2 k1 k2 o1 o2,
       let st4 := exec config ls2 st3 in
       calls st4 !! j = Some k1 → calls st4 !! j' = Some k2 →
       call_result st4 k1 = Some o1 → call_result st4 k2 = Some o2 → o1 = o2) ∧
    (∀ c2, store st3 !! p = Some c2 → active c2 = true →
       (let ok := exec config [SpawnStarts p; NowListening p; SpawnSettles p;
                               AwaitResumes j] st3 in
        ∃ k1 k2, calls ok !! j = Some k1 ∧ calls ok !! j' = Some k2 ∧
                 call_result ok k1 = Some (Resolved p) ∧
                 call_result ok k2 = Some (Resolved p)) ∧
       (server (info c2) = None → ∀ m,
        let ko := exec config [SpawnStarts p; ListenFailed p m; AwaitResumes j] st3 in
        ∃ k1 k2, calls ko !! j = Some k1 ∧ calls ko !! j' = Some k2 ∧
                 call_result ko k1 = Some (Threw HaltedError) ∧
                 call_result ko k2 = Some (Threw HaltedError))).
Proof.
  intros st Hex Hpe Hlim Hcl p j st1.
  pose proof (reachable_has_inv config ls) as HI. fold st in HI.
  assert (Inv config st1) as HI1 by apply (step_keeps_inv config (GetOrCreate h now)), HI.
  assert (st1 = if now then doSpawnServer p (create h st) else create h st) as Hst1.
  { by apply getOrCreate_creates. }
  assert (length (store st1) = S p ∧ nextPort st1 = increment (nextPort st) ∧
          (∃ c, store st1 !! p = Some c ∧ hostname (info c) = h ∧
                port (info c) = nextPort st ∧ spawnPromise c = Pending ∧
                active c = true) ∧
          calls st1 !! j = Some (mkCall h (AwaitingSpawn p)) ∧
          pendingCreations st1 !! h = Some p) as (H1 & H2 & H3 & H4 & H5).
  { rewrite Hst1. unfold p, j. destruct now.
    - destruct (create_now h st) as (_ & _ & -> & -> & -> & -> & _).
      rewrite length_app. simpl. split; [lia|]. split; [done|]. split.
      { eexists. split; [by apply list_lookup_middle|done]. }
      split; [by apply list_lookup_middle|apply lookup_insert_eq].
    - unfold create. simpl. rewrite length_app. simpl. split; [lia|]. split; [done|]. split.
      { eexists. split; [by apply list_lookup_middle|done]. }
      split; [by apply list_lookup_middle|apply lookup_insert_eq]. }
  clearbody st1. clear Hst1.
  do 5 (split; [done|]).
  intros ls1 now' st2 Hj j' st3.
  assert (Inv config st2) as HI2 by apply exec_keeps_inv, HI1.
  assert (Inv config st3) as HI3 by apply (step_keeps_inv config (GetOrCreate h now')), HI2.
  destruct (getOrCreate_second h now' st2 p j HI2 Hj) as (Hpe2 & cs & Heq & Hcs).
  fold st3 in Heq. clearbody st2 st3. subst st3.
  do 4 (split; [done|]). split; [done|].
  assert (calls (push_call h cs st2) !! j' = Some (mkCall h cs)) as Hj'
    by (by apply list_lookup_middle).
  assert (calls (push_call h cs st2) !! j = Some (mkCall h (AwaitingSpawn p))) as Hj3
    by (by apply lookup_app_l_Some).
  split; [exists cs; split; [done|]; tauto|].
  split.
  - intros ls2 k1 k2 o1 o2 st4 Hk1 Hk2 Ho1 Ho2.
    assert (Inv config st4) as HI4 by apply exec_keeps_inv, HI3.
    destruct (exec_keeps_calls ls2 _ HI3 _ _ Hj3) as (k1' & Hk1' & _ & Hev1).
    destruct (exec_keeps_calls ls2 _ HI3 _ _ Hj') as (k2' & Hk2' & _ & Hev2).
    fold st4 in Hk1', Hk2'. simplify_eq. simpl in Hev1, Hev2.
    assert (call_state k2 = cs) as Hcs2.
    { destruct Hev2 as [?|(q & Hq & _)]; [done|].
      destruct Hcs as [[-> _]|[-> _]]; done. }
    assert (∃ c4, store st4 !! p = Some c4 ∧ outcome_of p (spawnPromise c4) = Some o1)
      as (c4 & Hc4 & Hout).
    { unfold call_result in Ho1.
      destruct Hev1 as [E|(q & [= <-] & E)]; rewrite E in Ho1; [done|].
      destruct (store st4 !! p) as [c4|]; simplify_eq/=. eauto. }
    unfold call_result in Ho2. rewrite Hcs2 in Ho2.
    destruct Hcs as [[-> _]|[-> (c2 & Hc2 & Hr2)]].
    + rewrite Hc4 in Ho2. simpl in Ho2. congruence.
    + assert (o2 = Resolved p) as -> by (simpl in Ho2; congruence).
      destruct (exec_keeps_store config ls2 (push_call h (Returned (Resolved p)) st2) HI3 p c2 Hc2)
        as (c4' & Hc4' & Hk).
      fold st4 in Hc4'. rewrite Hc4 in Hc4'. injection Hc4' as <-.
      destruct Hk as (_ & _ & _ & Hrk & _). rewrite Hr2 in Hrk.
      specialize (Hrk ltac:(done)).
      destruct (fulfilled_spawn p c4 (inv_wf _ _ HI4 _ _ Hc4) Hrk) as [E|E];
        rewrite E in Hout; simpl in Hout; congruence.
  - intros c2 Hc2 Hact. split.
    + intros ok.
      destruct (listening_resolves _ p j h c2 HI3 Hc2 Hact Hj3) as (Hcalls & c' & Hc' & Hsp).
      fold ok in Hcalls, Hc'.
      exists (mkCall h (Resumed p)), (mkCall h cs).
      assert (j < length (calls st2)) as Hlt by (by eapply lookup_lt_Some).
      split; [rewrite Hcalls; apply list_lookup_insert_eq; simpl;
              rewrite length_app; lia|].
      split; [rewrite Hcalls, list_lookup_insert_ne by (unfold j'; lia); done|].
      unfold call_result. simpl. rewrite Hc'. simpl. rewrite Hsp. split; [done|].
      destruct Hcs as [[-> _]|[-> _]]; simpl; [|done]. rewrite Hc'. simpl. by rewrite Hsp.
    + intros Hv m ko.
      destruct (failure_rejects _ p j h c2 m HI3 Hc2 Hact Hv Hj3) as (Hcalls & c' & Hc' & Hsp).
      fold ko in Hcalls, Hc'.
      exists (mkCall h (Resumed p)), (mkCall h cs).
      assert (j < length (calls st2)) as Hlt by (by eapply lookup_lt_Some).
      split; [rewrite Hcalls; apply list_lookup_insert_eq; simpl;
              rewrite length_app; lia|].
      split; [rewrite Hcalls, list_lookup_insert_ne by (unfold j'; lia); done|].
      unfold call_result. simpl. rewrite Hc'. simpl. rewrite Hsp. split; [done|].
      destruct Hcs as [[-> _]|[-> (c0 & Hc0 & Hr0)]]; simpl.
      * rewrite Hc'. simpl. by rewrite Hsp.
      * exfalso. simpl in Hc2. rewrite Hc0 in Hc2. injection Hc2 as ->.
        pose proof (fulfilled_server _ _ (inv_wf _ _ HI2 _ _ Hc0) Hr0). congruence.
Qed.

End TaskCalls.

(** ** A halt while starting, and filling the pool *)

Section TaskMore.

Import Pool Tasks TaskInvariant.
Import Invariant (call_ref, call_evolves).

Variable config : ServerPoolConfig.

Lemma change_open st st' : Change config st st' → closed st' = false → closed st = false.
Proof.
  intros Hch Hcl. destruct (closed st) eqn:E; [|done].
  destruct (change_events _ _ _ Hch) as (_ & _ & _ & H).
  destruct (H E) as [_ ?]. congruence.
Qed.

Lemma abandoned_persists i h st st' :
  Inv config st → abandoned i h st → Change config st st' → abandoned i h st'.
Proof.
  intros HI Hab Hch Hcl'.
  destruct (Hab (change_open _ _ Hch Hcl')) as (Hpe & c & f & Hc & Hh & Hph & Hr & Hsp & Hsv).
  destruct Hch as [h' Hex Hpe' Hcl Hlim|i' c' Hi' Hph'|? [i' c0 c' del tail Hi' HL|]
                  |j h' p cp Hj Hp Hs|h' cs Ha|h'|g Hg].
  - assert (h' ≠ h) by congruence. simpl.
    rewrite lookup_insert_ne by done. split; [done|].
    exists c, f. split; [by apply lookup_app_l_Some|done].
  - assert (i' ≠ i) as Hne by (intros ->; simplify_eq; congruence).
    assert (hostname (info c') ≠ h) as Hneh.
    { intros Heq. pose proof (inv_wf _ _ HI _ _ Hi') as Hwf.
      unfold wf in Hwf. rewrite Hph' in Hwf. destruct Hwf as (_ & _ & Hsp' & _).
      pose proof (unsettled_pending _ _ _ _ HI Hi' Hsp') as Hpe'.
      rewrite Heq in Hpe'. congruence. }
    rewrite (doSpawnServer_at _ _ _ Hi' Hph'). simpl. split; [done|].
    exists c, f. rewrite list_lookup_insert_ne by done.
    rewrite lookup_insert_ne by done. done.
  - simpl. split; [done|].
    destruct (decide (i' = i)) as [->|Hne].
    + assert (c0 = c) as -> by congruence.
      destruct (ls_halting _ _ _ _ _ _ HL _ _ Hph) as (f' & r' & Hph2).
      assert (phase c ≠ Starting) as Hns by congruence.
      pose proof (ls_ready_from _ _ _ _ _ _ HL Hns) as Hr2.
      pose proof (ls_spawn_from _ _ _ _ _ _ HL Hr Hns) as Hsp2.
      pose proof (ls_wf _ _ _ _ _ _ HL (inv_wf _ _ HI _ _ Hc)) as Hwf2.
      pose proof (ls_ended _ _ _ _ _ _ HL) as He2.
      unfold ended in He2. rewrite Hph, Hph2 in He2. simpl in He2.
      assert (r' = Released) as ->.
      { clear -Hwf2 Hph2 Hr2 Hr. unfold wf in Hwf2. rewrite Hph2 in Hwf2.
        destruct Hwf2 as (_ & _ & [(? & _)|(_ & _ & _ & ? & _)]); congruence. }
      exists c', f'. split; [apply list_lookup_insert_eq; by eapply lookup_lt_Some|].
      split; [by rewrite (ls_host _ _ _ _ _ _ HL)|].
      split; [done|]. split; [congruence|]. split; [congruence|].
      assert (f' = f || del) as -> by (by destruct f', f, del).
      destruct f, del; simpl; try done; rewrite Hh.
      * apply lookup_delete_None. by right.
      * apply lookup_delete_eq.
    + exists c, f. rewrite list_lookup_insert_ne by done.
      repeat split; try done.
      destruct del; [|done].
      assert (hostname (info c0) ≠ h) as Hneh.
      { intros Heq.
        pose proof (inv_back _ _ HI _ _ Hi' (ls_del _ _ _ _ _ _ HL eq_refl)) as Hb.
        rewrite Heq, Hsv in Hb. destruct f; congruence. }
      by rewrite lookup_delete_ne.
  - done.
  - unfold await_resumes. rewrite Hj, Hp, Hs. simpl.
    assert (h' ≠ h) as Hne.
    { intros ->. pose proof (inv_call _ _ HI _ _ _ Hj). simplify_eq.
      by rewrite Hsp in Hs. }
    rewrite lookup_delete_ne by done. split; [done|]. by exists c, f.
  - split; [done|]. by exists c, f.
  - split; [done|]. by exists c, f.
  - split; [done|]. by exists c, f.
Qed.

(** X7: a [shutdown] of a server that is still starting only requests
    the halt: nothing is sent, and the record stays registered, and
    counted, until the task's [finally] block runs.  Neither the ready
    promise nor the spawn task is settled.  Until the pool is left,
    whatever happens next, the pending entry of the hostname stays, every
    [getOrCreate] for it returns that pending promise and creates nothing,
    and no invocation waiting for the creation completes. *)
Theorem shutdown_while_starting_blocks_key (ls : list Label) (i : nat) (c : Creation) :
  let st := exec config ls (init config) in
  store st !! i = Some c → phase c = Starting →
  let h := hostname (info c) in
  let st1 := step config (Shutdown h) st in
  events st1 = events st ∧ get st1 h = Some i ∧ servers st1 = servers st ∧
  ∀ ls',
    let st2 := exec config ls' st1 in
    closed st2 = false →
    pendingCreations st2 !! h = Some i ∧
    (∃ c2 f, store st2 !! i = Some c2 ∧ phase c2 = Halting f Released ∧
             readyPromise c2 = Pending ∧ spawnPromise c2 = Pending ∧
             get st2 h = if f then None else Some i) ∧
    (∀ now, getOrCreate config h now st2 = push_call h (ReturnedPending i) st2) ∧
    (∀ j k, calls st2 !! j = Some k →
            call_state k = AwaitingSpawn i ∨ call_state k = ReturnedPending i ∨
            call_state k = Resumed i →
            call_result st2 k = None).
Proof.
  intros st Hc Hl h st1.
  pose proof (reachable_has_inv config ls) as HI. fold st in HI.
  pose proof (inv_wf _ _ HI _ _ Hc) as Hwf.
  unfold wf in Hwf. rewrite Hl in Hwf. destruct Hwf as (_ & Hr & Hsp & Hv & _).
  assert (live c = true) as Hlive by (unfold live; by rewrite Hl).
  pose proof (inv_back _ _ HI _ _ Hc Hlive) as Hs. fold h in Hs.
  pose proof (unsettled_pending _ _ _ _ HI Hc Hsp) as Hpe. fold h in Hpe.
  assert (st1 = with_shutdowns (λ l, l ++ [AwaitingHalt i])
                  (update i (set_phase (Halting false Released)) st)) as Hst1.
  { unfold st1. simpl. unfold shutdown. rewrite (inv_tasks _ _ HI), Hs.
    unfold halt. by rewrite Hc, Hl. }
  assert (Inv config st1) as HI1 by apply step_keeps_inv, HI.
  split; [by rewrite Hst1|]. split; [by rewrite Hst1|]. split; [by rewrite Hst1|].
  intros ls' st2 Hopen.
  assert (Inv config st2) as HI2 by apply exec_keeps_inv, HI1.
  assert (abandoned i h st2) as Hab.
  { apply (exec_by_changes config (abandoned i h)); [done| |].
    - intros _. rewrite Hst1. simpl. split; [done|].
      exists (set_phase (Halting false Released) c), false.
      by rewrite list_lookup_alter_eq, Hc.
    - intros s s' HIs Hq Hch. by eapply abandoned_persists. }
  destruct (Hab Hopen) as (Hpe2 & c2 & f & Hc2 & Hh2 & Hph2 & Hr2 & Hsp2 & Hsv2).
  split; [done|]. split; [by exists c2, f|]. split.
  - intros now. unfold getOrCreate, existing_ready. rewrite Hsv2, Hpe2.
    destruct f; simpl; [done|]. rewrite Hc2. simpl.
    pose proof (inv_wf _ _ HI2 _ _ Hc2) as Hwf2. unfold wf in Hwf2. rewrite Hph2 in Hwf2.
    destruct Hwf2 as (_ & _ & [(? & _)|(_ & _ & -> & _)]); [congruence|done].
  - intros j [h' cs] Hj Hcs. unfold call_result. simpl in *.
    destruct Hcs as [->|[->| ->]]; [done|..]; rewrite Hc2; simpl; by rewrite Hsp2.
Qed.

(** X11: requesting pairwise different hostnames from outside any
    operation, no more than [maxServers], on a fresh pool registers every
    one of them with the port the counter held, without any event; within
    the integers that JavaScript numbers hold exactly, the k-th port is
    [basePort + k].  When they are [maxServers] many, one more new
    hostname is rejected with the capacity error. *)
Theorem distinct_keys_fill_the_pool (hs : list string) :
  NoDup hs → (Z.of_nat (length hs) ≤ limit config)%Z →
  let st := exec config ((λ h, GetOrCreate h true) <$> hs) (init config) in
  store st =
    imap (λ k h, mkCreation (mkInfo h (nth_port config k) None (Some k))
                            Pending Starting Pending Binding) hs ∧
  (∀ h k, get st h = Some k ↔ hs !! k = Some h) ∧
  pendingCreations st = servers st ∧
  size (servers st) = length hs ∧
  nextPort st = nth_port config (length hs) ∧
  events st = [] ∧ closed st = false ∧
  ((- 2 ^ 53 ≤ basePort config)%Z →
   (basePort config + Z.of_nat (length hs) ≤ 2 ^ 53)%Z →
   ∀ k, (k ≤ length hs)%nat → nth_port config k = (basePort config + Z.of_nat k)%Z) ∧
  (Z.of_nat (length hs) = limit config →
   ∀ h now, h ∉ hs →
        store (getOrCreate config h now st) = store st ∧
        calls (getOrCreate config h now st) =
          calls st ++ [mkCall h (Returned (Threw (MaxServersReached (limit config))))]).
Proof.
  intros Hnd Hlen st.
  assert (store st =
            imap (λ k h, mkCreation (mkInfo h (nth_port config k) None (Some k))
                                    Pending Starting Pending Binding) hs ∧
          (∀ h k, servers st !! h = Some k ↔ hs !! k = Some h) ∧
          pendingCreations st = servers st ∧
          size (servers st) = length hs ∧
          nextPort st = nth_port config (length hs) ∧
          events st = [] ∧ closed st = false) as (Hst & Hsv & Hpc & Hsz & Hn & Hev & Hcl).
  { unfold st. clear st. induction hs as [|h hs IH] using rev_ind.
    - simpl. repeat split; try done.
    - apply NoDup_app in Hnd as (Hnd & Hnot & _).
      rewrite length_app in Hlen. simpl in Hlen.
      destruct IH as (Hst & Hsv & Hpc & Hsz & Hn & Hev & Hcl); [done|lia|].
      rewrite fmap_app, exec_concat. simpl.
      set (st := exec config ((λ h, GetOrCreate h true) <$> hs) (init config)) in *.
      assert (servers st !! h = None) as Hs.
      { destruct (servers st !! h) as [k|] eqn:Hs; [|done].
        apply Hsv in Hs. apply list_elem_of_lookup_2 in Hs.
        destruct (Hnot _ Hs). apply list_elem_of_here. }
      assert (existing_ready st h = None) as Hex.
      { unfold existing_ready. by rewrite Hs. }
      rewrite getOrCreate_creates; [|done|by rewrite Hpc|lia|done].
      destruct (create_now h st) as (-> & _ & -> & -> & -> & _ & -> & -> & _).
      assert (length (store st) = length hs) as Hl by (by rewrite Hst, length_imap).
      rewrite Hl, Hn, Hpc. split_and!; try done.
      + rewrite imap_app, Hst. simpl. by rewrite Nat.add_0_r.
      + intros h' k. split.
        * intros [[<- <-]|[Hne Hk]]%lookup_insert_Some.
          -- by apply list_lookup_middle.
          -- apply lookup_app_l_Some. by apply Hsv.
        * intros [[Hk Hh]|[-> <-]]%lookup_snoc_Some.
          -- apply lookup_insert_Some. right. split; [|by apply Hsv].
             intros <-. apply list_elem_of_lookup_2 in Hh.
             destruct (Hnot _ Hh). apply list_elem_of_here.
          -- apply lookup_insert_eq.
      + rewrite map_size_insert, Hs, length_app. simpl. lia.
      + rewrite length_app. simpl. unfold nth_port.
        replace (length hs + 1) with (S (length hs)) by lia. done. }
  split_and!; try done.
  - intros Hlo Hhi k Hk. apply nth_port_exact; [done|lia].
  - intros Hfull h now Hh.
    assert (servers st !! h = None) as Hs.
    { destruct (servers st !! h) as [k|] eqn:Hs; [|done].
      apply Hsv in Hs. by apply list_elem_of_lookup_2 in Hs. }
    unfold getOrCreate, existing_ready. rewrite Hpc, Hs. simpl.
    assert ((limit config <=? Z.of_nat (size (servers st)))%Z = true) as ->
      by (apply Z.leb_le; lia).
    done.
Qed.

End TaskMore.

(** ** The properties on concrete runs *)

Section TaskRuns.

Import Pool Tasks TaskInvariant TaskScenario.
Import Scenario (capstone, single).

Lemma ports_strictly_increasing_witness :
  let st := exec capstone abc_then_d (init capstone) in
  (- 2 ^ 53 ≤ basePort capstone)%Z ∧
  (basePort capstone + Z.of_nat (length (store st)) ≤ 2 ^ 53)%Z ∧
  assigned_ports st !! 2 = Some 3003%Z ∧ assigned_ports st !! 3 = Some 3004%Z ∧
  servers st = {[ "d" := 3 ]} ∧ (3003 < 3004)%Z.
Proof.
  intros st.
  assert (- 2 ^ 53 ≤ basePort capstone)%Z as Hlo by (vm_compute; discriminate).
  assert (basePort capstone + Z.of_nat (length (store st)) ≤ 2 ^ 53)%Z as Hhi
    by (vm_compute; discriminate).
  assert (assigned_ports st !! 2 = Some 3003%Z) as H2 by (vm_compute; reflexivity).
  assert (assigned_ports st !! 3 = Some 3004%Z) as H3 by (vm_compute; reflexivity).
  split; [exact Hlo|]. split; [exact Hhi|].
  split; [exact H2|]. split; [exact H3|]. split; [vm_compute; reflexivity|].
  destruct (ports_strictly_increasing capstone abc_then_d 2 3 3003 3004 Hlo Hhi H2 H3)
    as (_ & _ & Hlt & _); [lia|exact Hlt].
Defined.

(** C7, the claim as stated fails: from [2^53] on the counter does not
    move, and the same port is handed out twice. *)
Lemma port_repeats_beyond_2_53 : ¬ ports_never_repeat at_the_edge.
Proof.
  intros H.
  specialize (H [GetOrCreate "a" true; GetOrCreate "b" true] 0 1 (2 ^ 53)%Z (2 ^ 53)%Z).
  simpl in H.
  assert (2 ^ 53 < 2 ^ 53)%Z as Hlt; [|lia].
  apply H; [vm_compute; reflexivity|vm_compute; reflexivity|lia].
Qed.

Lemma registry_within_capacity_witness :
  let st := exec capstone [GetOrCreate "a" true] (init capstone) in
  let st1 := getOrCreate capstone "b" true st in
  (0 ≤ limit capstone)%Z ∧ forallb immediate [GetOrCreate "a" true] = true ∧
  store st1 ≠ store st ∧
  servers st1 = <["b" := 1]> (servers st) ∧
  (Z.of_nat (size (servers (getOrCreate capstone "c" true st1))) ≤ limit capstone)%Z.
Proof.
  intros st st1.
  assert (0 ≤ limit capstone)%Z as H0 by (vm_compute; discriminate).
  assert (forallb immediate [GetOrCreate "a" true] = true) as H1 by reflexivity.
  assert (store st1 ≠ store st) as H2.
  { intros Heq. apply (f_equal length) in Heq. vm_compute in Heq. discriminate. }
  split; [exact H0|]. split; [exact H1|]. split; [exact H2|].
  destruct (registry_within_capacity capstone [GetOrCreate "a" true] "b" "c" H0 H1)
    as (_ & _ & Hadm & Hsz).
  split; [|exact Hsz]. destruct (Hadm H2) as (_ & Hs & _). exact Hs.
Defined.

(** C2, the claim as stated fails: two requests for new hostnames made
    inside one operation both pass the capacity check before either
    record is stored. *)
Lemma registry_exceeds_capacity : ¬ registry_bounded single.
Proof.
  intros H. specialize (H deferred_pair). vm_compute in H. by apply H.
Qed.





Lemma pool_termination_witness :
  let st0 := exec capstone running (init capstone) in
  let st2 := exec capstone (drain 1) (leave st0) in
  forallb torn_down (store st2) = true ∧
  servers st2 = ∅ ∧
  Stopped "a" ∈ drop (length (events st0)) (events st2) ∧
  delivered st2 = delivered st0.
Proof.
  intros st0 st2.
  assert (forallb torn_down (store st2) = true) as H1 by (vm_compute; reflexivity).
  assert (is_Some (servers st0 !! "a")) as H2 by (exists 0; vm_compute; reflexivity).
  split; [exact H1|].
  destruct (pool_termination capstone running (drain 1)) as (_ & Hd & Hfin & _).
  destruct (Hfin H1) as (Hs & _ & Hstop & _).
  split; [exact Hs|]. split; [exact (Hstop "a" H2)|exact Hd].
Defined.

(** C8, the claim as stated fails: the [stopped] events of the servers
    that were running when the pool is left are sent after the event
    signal was closed, and reach no subscriber. *)
Lemma stopped_after_close_is_lost : ¬ termination_publishes_stopped capstone.
Proof.
  intros H. specialize (H running (drain 1) "a"). simpl in H.
  assert (Stopped "a" ∈ @nil ServerEvent) as Hin; [|by apply elem_of_nil in Hin].
  apply H; [exists 0; vm_compute; reflexivity|vm_compute; reflexivity].
Qed.

Lemma getOrCreate_deduplicates_witness :
  let st := exec capstone [] (init capstone) in
  let st1 := getOrCreate capstone "a" true st in
  let st3 := getOrCreate capstone "a" true (exec capstone [] st1) in
  existing_ready st "a" = None ∧ pendingCreations st !! "a" = None ∧
  (Z.of_nat (size (servers st)) < limit capstone)%Z ∧ closed st = false ∧
  length (store st1) = 1 ∧ store st3 = store st1 ∧
  (∃ k1 k2,
     calls (exec capstone [SpawnStarts 0; NowListening 0; SpawnSettles 0;
                            AwaitResumes 0] st3) !! 0 = Some k1 ∧
     calls (exec capstone [SpawnStarts 0; NowListening 0; SpawnSettles 0;
                            AwaitResumes 0] st3) !! 1 = Some k2 ∧
     call_result (exec capstone [SpawnStarts 0; NowListening 0; SpawnSettles 0;
                                  AwaitResumes 0] st3) k1 = Some (Resolved 0) ∧
     call_result (exec capstone [SpawnStarts 0; NowListening 0; SpawnSettles 0;
                                  AwaitResumes 0] st3) k2 = Some (Resolved 0)).
Proof.
  intros st st1 st3.
  assert (existing_ready st "a" = None) as H1 by reflexivity.
  assert (pendingCreations st !! "a" = None) as H2 by reflexivity.
  assert (Z.of_nat (size (servers st)) < limit capstone)%Z as H3 by (vm_compute; reflexivity).
  assert (closed st = false) as H4 by reflexivity.
  do 4 (split; [assumption|]).
  destruct (getOrCreate_deduplicates capstone [] "a" true H1 H2 H3 H4)
    as (Hlen & _ & _ & Hj & _ & Hnext).
  split; [exact Hlen|].
  destruct (Hnext [] true Hj) as (Hst & _ & _ & _ & _ & _ & _ & Hprog).
  split; [exact Hst|].
  destruct (Hprog (starting "a" 3001 0)) as [Hok _];
    [vm_compute; reflexivity|reflexivity|].
  exact Hok.
Defined.

Lemma shutdown_while_starting_blocks_key_witness :
  let st := exec capstone [GetOrCreate "a" true] (init capstone) in
  let st1 := step capstone (Shutdown "a") st in
  store st !! 0 = Some (starting "a" 3001 0) ∧
  get st1 "a" = Some 0 ∧
  getOrCreate capstone "a" true (exec capstone [NowListening 0] st1) =
    push_call "a" (ReturnedPending 0) (exec capstone [NowListening 0] st1).
Proof.
  intros st st1.
  assert (store st !! 0 = Some (starting "a" 3001 0)) as Hc by (vm_compute; reflexivity).
  split; [exact Hc|].
  destruct (shutdown_while_starting_blocks_key capstone [GetOrCreate "a" true] 0
              (starting "a" 3001 0) Hc eq_refl) as (_ & Hg & _ & Hrest).
  split; [exact Hg|].
  destruct (Hrest [NowListening 0]) as (_ & _ & Hgo & _); [reflexivity|].
  exact (Hgo true).
Defined.

Lemma distinct_keys_fill_the_pool_witness :
  let hs := ["a"; "b"; "c"; "d"; "e"; "f"; "g"; "h"; "i"; "j"] in
  let st := exec capstone ((λ h, GetOrCreate h true) <$> hs) (init capstone) in
  NoDup hs ∧ (Z.of_nat (length hs) ≤ limit capstone)%Z ∧
  Z.of_nat (length hs) = limit capstone ∧ ("k" ∉ hs) ∧
  nextPort st = nth_port capstone 10 ∧
  nth_port capstone 10 = 3011%Z ∧
  store (getOrCreate capstone "k" true st) = store st.
Proof.
  intros hs st.
  assert (NoDup hs) as H1
    by (apply (@bool_decide_unpack (NoDup hs) _); vm_compute; exact I).
  assert (Z.of_nat (length hs) ≤ limit capstone)%Z as H2 by (vm_compute; discriminate).
  assert (Z.of_nat (length hs) = limit capstone) as H3 by reflexivity.
  assert ("k" ∉ hs) as H4
    by (apply (@bool_decide_unpack ("k" ∉ hs) _); vm_compute; exact I).
  split; [exact H1|]. split; [exact H2|]. split; [exact H3|]. split; [exact H4|].
  destruct (distinct_keys_fill_the_pool capstone hs H1 H2)
    as (_ & _ & _ & _ & Hn & _ & _ & Hp & H).
  split; [exact Hn|]. split.
  - apply (Hp ltac:(vm_compute; discriminate) ltac:(vm_compute; discriminate) 10).
    simpl. lia.
  - apply (H H3 "k" true H4).
Defined.

(** A server shut down while it starts: its socket opens later, and
    nothing is left to close it. *)
Example socket_left_open :
  let st := exec capstone [GetOrCreate "a" true; Shutdown "a"; TaskFinally 0;
                           ShutdownResumes 0; NowListening 0] (init capstone) in
  shutdowns st = [ShutdownReturned (Some 0)] ∧
  socket <$> store st !! 0 = Some Listening ∧ torn_down <$> store st !! 0 = Some true ∧
  ∀ i, step capstone (ResourceCloses i) st = st ∧ step capstone (CloseEmitted i) st = st.
Proof.
  intros st. split; [vm_compute; reflexivity|]. split; [vm_compute; reflexivity|].
  split; [vm_compute; reflexivity|].
  intros [|i]; split; vm_compute; reflexivity.
Qed.

End TaskRuns.

